(** * SyncLab dubbing engine: the job store, the pipeline and its helpers

    A shallow embedding of [src/index.js].  JavaScript numbers are modelled
    by exact numbers ([Z] for integers, [Q] for the second offsets of
    subtitle cues), strings by [string] (UTF-8 bytes), the [jobs] Map by a
    [gmap], and [async] functions by a state-and-exception monad in which
    [await] is bind, a rejected promise is a thrown message and every
    external capability (child process, HTTP provider, file system call,
    clock) answers from an explicit [world].  One pipeline is followed from
    its start to its last write; requests and other pipelines running in
    between are not interleaved with it.  A child process is followed up
    to the event that settles the promise built around it; see
    [proc_event] for the event Node delivers after that one and for the
    two functions in which it matters.  From the lip-sync stage on the run
    is also followed event by event, in every order in which the processes
    can be heard ([runPipeline_events]). *)

From Stdlib Require Import ZArith QArith Qround String Ascii DecimalString Lia.
From stdpp Require Import gmap strings list fin_maps.

Local Open Scope Z_scope.
Local Open Scope string_scope.

(** ** JavaScript helpers *)

Module Js.

Definition nl : string := String (ascii_of_nat 10) EmptyString.

(** [String(n)] for an integer [n]. *)
Definition String_ (n : Z) : string :=
  NilZero.string_of_int (Z.to_int n).

Fixpoint repeat_char (c : ascii) (n : nat) : string :=
  match n with
  | O => EmptyString
  | S k => String c (repeat_char c k)
  end.

(** [s.padStart(len, c)] with a one-character filler. *)
Definition padStart (len : nat) (c : ascii) (s : string) : string :=
  repeat_char c (len - String.length s) ++ s.

(** [Math.floor], [Math.round] (halves go up) and [%] (the result takes
    the sign of the dividend) on exact rationals. *)
Definition floor (x : Q) : Z := Qfloor x.

Definition round (x : Q) : Z := Qfloor (x + (1 # 2)).

Definition trunc (x : Q) : Z :=
  if Qle_bool 0 x then Qfloor x else Qceiling x.

Definition rem (a b : Q) : Q :=
  (a - inject_Z (trunc (a / b)) * b)%Q.

(** [xs.join(sep)] *)
Fixpoint join (sep : string) (xs : list string) : string :=
  match xs with
  | [] => EmptyString
  | [x] => x
  | x :: rest => x ++ sep ++ join sep rest
  end.

(** [xs.map((x, i) => f(x, i))], the index counted from [i]. *)
Fixpoint mapi_from {A B} (f : A -> nat -> B) (i : nat) (xs : list A) : list B :=
  match xs with
  | [] => []
  | x :: rest => f x i :: mapi_from f (S i) rest
  end.

Definition mapi {A B} (f : A -> nat -> B) (xs : list A) : list B :=
  mapi_from f 0 xs.

(** Truthiness of a string-valued expression that may be [undefined]:
    the empty string is falsy. *)
Definition truthy (o : option string) : bool :=
  match o with
  | Some (String _ _) => true
  | _ => false
  end.

(** [a || b] on such values. *)
Definition or_else (o : option string) (d : string) : string :=
  match o with
  | Some (String c s) => String c s
  | _ => d
  end.

Fixpoint starts_with (p s : string) : bool :=
  match p, s with
  | EmptyString, _ => true
  | String a p', String b s' => if Ascii.eqb a b then starts_with p' s' else false
  | String _ _, EmptyString => false
  end.

Fixpoint drop_chars (n : nat) (s : string) : string :=
  match n, s with
  | S k, String _ s' => drop_chars k s'
  | _, _ => s
  end.

(** [s.replace(pat, by)] with a string pattern: the first occurrence only. *)
Fixpoint replace (pat by_ s : string) : string :=
  if starts_with pat s then by_ ++ drop_chars (String.length pat) s
  else match s with
       | EmptyString => EmptyString
       | String c s' => String c (replace pat by_ s')
       end.

(** [s.toUpperCase()] on ASCII letters. *)
Definition upper_char (c : ascii) : ascii :=
  let n := nat_of_ascii c in
  if ((97 <=? n) && (n <=? 122))%nat then ascii_of_nat (n - 32) else c.

Fixpoint toUpperCase (s : string) : string :=
  match s with
  | EmptyString => EmptyString
  | String c s' => String (upper_char c) (toUpperCase s')
  end.

(** [path.join(...parts)], without the normalisation of [.] and [..]. *)
Definition path_join (parts : list string) : string := join "/" parts.

Fixpoint last_component (acc s : string) : string :=
  match s with
  | EmptyString => acc
  | String c s' =>
      if Ascii.eqb c "/" then last_component EmptyString s'
      else last_component (acc ++ String c EmptyString) s'
  end.

Fixpoint strip_suffix (ext s : string) : string :=
  if String.eqb s ext then EmptyString
  else match s with
       | EmptyString => EmptyString
       | String c s' => String c (strip_suffix ext s')
       end.

(** [path.basename(p, ext)] *)
Definition basename (p ext : string) : string :=
  strip_suffix ext (last_component EmptyString p).

(** [String(code)] for an exit code that may be [null]. *)
Definition show_code (code : option Z) : string :=
  match code with
  | Some c => String_ c
  | None => "null"
  end.

End Js.

(** ** Subtitle rendering *)

Record segment := Segment {
  seg_id : option Z;
  seg_start : Q;
  seg_end : Q;
  seg_text : string
}.

Record Transcript := mkTranscript {
  text : string;
  segments : option (list segment);
  language : option string;
  translatedText : option string
}.

Definition pad (n : Z) : string := Js.padStart 2 "0" (Js.String_ n).

(** On exact rationals.  The doubles of the source give the same stamp on
    the offsets the properties below are stated for, all below 100 hours:
    whole numbers of milliseconds, and offsets less than half a millisecond
    below a whole second.  Where the double of an offset falls on the other
    side of a rounding boundary (1.0005), and for very large offsets, the
    source stamps what its double gives. *)
Definition fmtSrtTime (sec : Q) : string :=
  let h := Js.floor (sec / 3600) in
  let m := Js.floor (Js.rem sec 3600 / 60) in
  let s := Js.floor (Js.rem sec 60) in
  let ms := Js.round (Js.rem sec 1 * 1000) in
  pad h ++ ":" ++ pad m ++ ":" ++ pad s ++ "," ++ Js.padStart 3 "0" (Js.String_ ms).

(** The [segments] and [srt] constants of [generateSrt]. *)
Definition srt_segments (translated : Transcript) : list segment :=
  match segments translated with
  | Some segs => segs
  | None => [Segment None 0 5 (Js.or_else (translatedText translated) EmptyString)]
  end.

Definition srt_cue (s : segment) (i : nat) : string :=
  Js.String_ (Z.of_nat i + 1) ++ Js.nl
  ++ fmtSrtTime (seg_start s) ++ " --> " ++ fmtSrtTime (seg_end s) ++ Js.nl
  ++ seg_text s ++ Js.nl.

Definition srt_content (translated : Transcript) : string :=
  Js.join Js.nl (Js.mapi srt_cue (srt_segments translated)).

(** ** The job record and the store *)

Inductive job_status := queued | running | done | error.

Record job_meta := Meta {
  videoPath : string;
  langFrom : string;
  langTo : string;
  voiceMode : string;
  quality : string;
  syncConfidence : Q;
  filename : string
}.

Record job := Job {
  id : string;
  status : job_status;
  stage : option string;
  progress : Z;
  message : string;
  meta : job_meta;
  createdAt : Z;
  updatedAt : Z;
  outputs : gmap string string
}.

(** One [key: value] entry of an object literal passed to [updateJob]. *)
Inductive assignment :=
| set_id (v : string)
| set_status (v : job_status)
| set_stage (v : option string)
| set_progress (v : Z)
| set_message (v : string)
| set_meta (v : job_meta)
| set_createdAt (v : Z)
| set_updatedAt (v : Z)
| set_outputs (v : gmap string string).

Definition assign (j : job) (a : assignment) : job :=
  match a with
  | set_id v => Job v (status j) (stage j) (progress j) (message j) (meta j) (createdAt j) (updatedAt j) (outputs j)
  | set_status v => Job (id j) v (stage j) (progress j) (message j) (meta j) (createdAt j) (updatedAt j) (outputs j)
  | set_stage v => Job (id j) (status j) v (progress j) (message j) (meta j) (createdAt j) (updatedAt j) (outputs j)
  | set_progress v => Job (id j) (status j) (stage j) v (message j) (meta j) (createdAt j) (updatedAt j) (outputs j)
  | set_message v => Job (id j) (status j) (stage j) (progress j) v (meta j) (createdAt j) (updatedAt j) (outputs j)
  | set_meta v => Job (id j) (status j) (stage j) (progress j) (message j) v (createdAt j) (updatedAt j) (outputs j)
  | set_createdAt v => Job (id j) (status j) (stage j) (progress j) (message j) (meta j) v (updatedAt j) (outputs j)
  | set_updatedAt v => Job (id j) (status j) (stage j) (progress j) (message j) (meta j) (createdAt j) v (outputs j)
  | set_outputs v => Job (id j) (status j) (stage j) (progress j) (message j) (meta j) (createdAt j) (updatedAt j) v
  end.

(** [Object.assign(job, updates, more)]: the entries are copied in order,
    so a later entry for the same key wins. *)
Definition Object_assign (j : job) (updates more : list assignment) : job :=
  fold_left assign (updates ++ more) j.

(** File system entries. *)
Inductive node := File (content : string) | Dir.

(** [q] is the path [p] or a path below the directory [p]. *)
Definition within (p q : string) : bool :=
  String.eqb q p || Js.starts_with (p ++ "/") q.

(** What the process can observe and change: the [jobs] Map, the files
    below [__dirname], the number of [Date.now()] readings taken so far and
    the pending [setTimeout] callbacks.  [journal] is ghost state: every
    record stored under a key, newest first, which is what a poller of that
    key can observe over time. *)
Record state := State {
  jobs : gmap string job;
  files : gmap string node;
  ticks : nat;
  timers : list (Z * string);
  journal : list (string * job)
}.

(** What a spawned child process reports first to the handlers registered
    on it: [close] with its exit code ([null] when killed by a signal), or
    [error] when it could not be launched.  That first event settles the
    promise built around the process, and the functions below follow the
    process up to it.

    After [error] Node delivers a second event to the same process object,
    [close] with a negative code.  In [extractAudio], [extractFrames],
    [transcribeAudio] and [finalRender] the [close] handler then only calls
    [resolve] or [reject] on a promise that is settled already, which does
    nothing.  In [mergeAudioOnly] it also writes progress 90, and in
    [runLipSync] it starts a second merge; these writes land at a moment
    the program does not control, possibly after the run has ended, and are
    not part of what [mergeAudioOnly] and [runLipSync] below return.
    [runPipeline_events] delivers both events to the handlers, in every
    order; it leaves the state of [runPipeline] when the two processes are
    launched ([lipsync_launches], [merge_launches]), and what is proved of
    the writes of [runPipeline] is proved of those runs. *)
Inductive proc_event := on_close (code : option Z) | on_error.

Inductive translation_reply :=
| fetch_failed                      (* [fetch] or [res.json()] threw *)
| body_malformed                    (* the body lacks the object holding the text *)
| body_text (t : option string).    (* the text field, possibly [undefined] *)

Inductive tts_reply :=
| tts_failed                        (* [fetch] threw *)
| tts_status (ok : bool) (body : option string).  (* [res.ok]; [arrayBuffer()] or a throw *)

(** The answers of everything outside the program. *)
Record world := World {
  dirname : string;
  LIBRETRANSLATE_URL : option string;
  LIBRETRANSLATE_KEY : option string;
  DEEPL_API_KEY : option string;
  XTTS_SERVER_URL : option string;
  ELEVENLABS_API_KEY : option string;
  WAV2LIP_MODEL : option string;
  WHISPER_MODEL : option string;
  clock : nat -> Z;
  spawn : string -> list string -> option string -> proc_event;
  whisper_json : string -> option Transcript;
  libretranslate : string -> string -> string -> string -> string -> translation_reply;
  deepl : string -> string -> string -> translation_reply;
  xtts : string -> option string -> string -> string -> string -> tts_reply;
  elevenlabs : string -> option string -> tts_reply;
  io_fails : string -> bool;
  parseFloat : string -> Q
}.

(** ** The monad of the program: state, and a thrown [Error] message *)

Inductive result (A : Type) := Ok (a : A) | Throw (msg : string).
Arguments Ok {A} a.
Arguments Throw {A} msg.

Definition M (A : Type) : Type := state -> result A * state.

Definition ret {A} (a : A) : M A := fun st => (Ok a, st).

Definition throw {A} (msg : string) : M A := fun st => (Throw msg, st).

Definition bind {A B} (m : M A) (k : A -> M B) : M B :=
  fun st =>
    match m st with
    | (Ok a, st') => k a st'
    | (Throw msg, st') => (Throw msg, st')
    end.

(** [try { m } catch (err) { h(err.message) }] *)
Definition try_catch {A} (m : M A) (h : string -> M A) : M A :=
  fun st =>
    match m st with
    | (Ok a, st') => (Ok a, st')
    | (Throw msg, st') => h msg st'
    end.

Declare Scope js_scope.
Delimit Scope js_scope with js.
Notation "'let*' x ':=' m 'in' k" := (bind m (fun x => k))
  (at level 10, x pattern, m at level 200, k at level 200,
   format "'[v' 'let*'  x  ':='  m  'in' '/' k ']'") : js_scope.
Notation "m ';;' k" := (bind m (fun _ => k))
  (at level 100, k at level 200, right associativity) : js_scope.
Local Open Scope js_scope.

(** ** The program *)

Section Program.

Variable w : world.

(** *** Primitive effects *)

Definition Date_now : M Z :=
  fun st => (Ok (clock w (ticks st)),
             State (jobs st) (files st) (S (ticks st)) (timers st) (journal st)).

Definition jobs_get (key : string) : M (option job) :=
  fun st => (Ok (jobs st !! key), st).

Definition jobs_set (key : string) (j : job) : M unit :=
  fun st => (Ok tt,
             State (<[key := j]> (jobs st)) (files st) (ticks st) (timers st)
                   ((key, j) :: journal st)).

Definition jobs_delete (key : string) : M unit :=
  fun st => (Ok tt,
             State (delete key (jobs st)) (files st) (ticks st) (timers st) (journal st)).

Definition existsSync (p : string) : M bool :=
  fun st => (Ok (bool_decide (is_Some (files st !! p))), st).

Definition set_files (f : gmap string node) : M unit :=
  fun st => (Ok tt, State (jobs st) f (ticks st) (timers st) (journal st)).

Definition get_files : M (gmap string node) :=
  fun st => (Ok (files st), st).

Definition unlinkSync (p : string) : M unit :=
  let* f := get_files in
  match f !! p with
  | Some (File _) =>
      if io_fails w p then throw ("EPERM: operation not permitted, unlink '" ++ p ++ "'")
      else set_files (delete p f)
  | Some Dir => throw ("EISDIR: illegal operation on a directory, unlink '" ++ p ++ "'")
  | None => throw ("ENOENT: no such file or directory, unlink '" ++ p ++ "'")
  end.

(** [fs.rmSync(p, { recursive: true })]: [p] is removed together with
    every path below it.  A removal that is refused makes the call throw;
    the entries removed by then depend on the order in which the directory
    is listed, and the refusal is taken to be met before any removal. *)
Definition rmSync (p : string) : M unit :=
  let* f := get_files in
  match f !! p with
  | Some _ =>
      if decide (map_Forall (fun q _ => within p q = true -> io_fails w q = false) f)
      then set_files (filter (fun e => within p e.1 = false) f)
      else throw ("EPERM: operation not permitted, rm '" ++ p ++ "'")
  | None => throw ("ENOENT: no such file or directory, rm '" ++ p ++ "'")
  end.

Definition mkdirSync (p : string) : M unit :=
  let* f := get_files in
  match f !! p with
  | Some _ => throw ("EEXIST: file already exists, mkdir '" ++ p ++ "'")
  | None =>
      if io_fails w p then throw ("EACCES: permission denied, mkdir '" ++ p ++ "'")
      else set_files (<[p := Dir]> f)
  end.

Definition writeFileSync (p content : string) : M unit :=
  let* f := get_files in
  match f !! p with
  | Some Dir => throw ("EISDIR: illegal operation on a directory, open '" ++ p ++ "'")
  | _ =>
      if io_fails w p then throw ("EACCES: permission denied, open '" ++ p ++ "'")
      else set_files (<[p := File content]> f)
  end.

Definition setTimeout (jobId : string) (delay : Z) : M unit :=
  fun st => (Ok tt,
             State (jobs st) (files st) (ticks st) ((delay, jobId) :: timers st) (journal st)).

(** *** In-memory job store *)

Definition createJob (id : string) (meta : job_meta) : M job :=
  let* created := Date_now in
  let* updated := Date_now in
  let job := Job id queued None 0 EmptyString meta created updated ∅ in
  jobs_set id job;;
  ret job.

Definition updateJob (id : string) (updates : list assignment) : M unit :=
  let* job := jobs_get id in
  match job with
  | None => ret tt
  | Some job =>
      let* now := Date_now in
      jobs_set id (Object_assign job updates [set_updatedAt now])
  end.

(** *** Pipeline steps *)

Definition temp_path (name : string) : string :=
  Js.path_join [dirname w; "temp"; name].

(** Step 1: extract audio from video using ffmpeg *)
Definition extractAudio_proc (videoPath audioPath : string) : proc_event :=
  spawn w "ffmpeg"
    ["-i"; videoPath; "-vn"; "-acodec"; "pcm_s16le";
     "-ar"; "16000"; "-ac"; "1"; "-y"; audioPath] None.

Definition extractAudio (videoPath jobId : string) : M string :=
  let audioPath := temp_path (jobId ++ "_audio.wav") in
  updateJob jobId [set_stage (Some "pill-extract"); set_progress 8;
                   set_message "Extracting audio from video..."];;
  match extractAudio_proc videoPath audioPath with
  | on_close code =>
      match code with
      | Some 0 => updateJob jobId [set_progress 15];; ret audioPath
      | _ => throw ("ffmpeg audio extraction failed (code " ++ Js.show_code code ++ ")")
      end
  | on_error => throw "ffmpeg not found — please install ffmpeg"
  end.

(** Step 2: extract video frames *)
Definition extractFrames (videoPath jobId : string) : M string :=
  let framesDir := temp_path (jobId ++ "_frames") in
  let* present := existsSync framesDir in
  (if present then ret tt else mkdirSync framesDir);;
  updateJob jobId [set_stage (Some "pill-extract"); set_progress 18;
                   set_message "Extracting video frames..."];;
  match spawn w "ffmpeg"
          ["-i"; videoPath; "-vf"; "fps=25"; "-q:v"; "2";
           Js.path_join [framesDir; "frame_%05d.jpg"]; "-y"] None with
  | on_close code =>
      match code with
      | Some 0 => ret framesDir
      | _ => throw ("Frame extraction failed (code " ++ Js.show_code code ++ ")")
      end
  | on_error => throw "ffmpeg not found"
  end.

Definition getMockTranscript : Transcript :=
  mkTranscript
    "Hello, welcome to this demonstration of the SyncLab dubbing engine."
    (Some [Segment (Some 0) 0 (5 # 2) "Hello, welcome to this demonstration";
           Segment (Some 1) (5 # 2) 5 "of the SyncLab dubbing engine."])
    (Some "en")
    None.

(** Step 3: transcribe audio using Whisper *)
Definition transcribeAudio (audioPath langCode jobId : string) : M Transcript :=
  updateJob jobId [set_stage (Some "pill-transcribe"); set_progress 28;
                   set_message "Running speech recognition..."];;
  let lang := if String.eqb langCode "auto" then EmptyString
              else "--language " ++ langCode in
  let outputDir := Js.path_join [dirname w; "temp"] in
  let args := List.filter (fun a => negb (String.eqb a EmptyString))
                ["-m"; "whisper"; audioPath;
                 "--model"; Js.or_else (WHISPER_MODEL w) "base";
                 "--output_dir"; outputDir;
                 "--output_format"; "json";
                 lang] in
  match spawn w "python3" args None with
  | on_close (Some 0) =>
      let jsonFile := Js.path_join [outputDir; Js.basename audioPath ".wav" ++ ".json"] in
      match whisper_json w jsonFile with
      | Some result => updateJob jobId [set_progress 40];; ret result
      | None => ret getMockTranscript
      end
  | on_close _ => ret getMockTranscript
  | on_error => ret getMockTranscript
  end.

Definition with_translatedText (t : Transcript) (tr : option string) : Transcript :=
  mkTranscript (text t) (segments t) (language t) tr.

(** Step 4: translate text.  Each provider block yields [Some] of the
    value it returns, or [None] when control falls out of it. *)
Definition translateText (transcript : Transcript) (fromLang toLang jobId : string)
  : M Transcript :=
  updateJob jobId [set_stage (Some "pill-translate"); set_progress 48;
                   set_message ("Translating " ++ fromLang ++ " → " ++ toLang ++ "...")];;
  let* libre :=
    match LIBRETRANSLATE_URL w with
    | Some (String c u) =>
        try_catch
          (match libretranslate w (String c u ++ "/translate") (text transcript)
                   (if String.eqb fromLang "auto" then "auto" else fromLang)
                   toLang (Js.or_else (LIBRETRANSLATE_KEY w) EmptyString) with
           | fetch_failed => throw "fetch failed"
           | body_malformed =>
               updateJob jobId [set_progress 58];;
               throw "Cannot read properties of null"
           | body_text t =>
               updateJob jobId [set_progress 58];;
               ret (Some (with_translatedText transcript t))
           end)
          (fun _ => ret None)
    | _ => ret None
    end in
  match libre with
  | Some r => ret r
  | None =>
      let* deepl_ :=
        match DEEPL_API_KEY w with
        | Some (String c k) =>
            try_catch
              (match deepl w ("DeepL-Auth-Key " ++ String c k) (text transcript)
                       (Js.toUpperCase toLang) with
               | fetch_failed => throw "fetch failed"
               | body_malformed =>
                   updateJob jobId [set_progress 58];;
                   throw "Cannot read properties of undefined"
               | body_text t =>
                   updateJob jobId [set_progress 58];;
                   ret (Some (with_translatedText transcript t))
               end)
              (fun _ => ret None)
        | _ => ret None
        end in
      match deepl_ with
      | Some r => ret r
      | None =>
          updateJob jobId [set_progress 58];;
          ret (with_translatedText transcript
                 (Some ("[Translated to " ++ toLang ++ "]: " ++ text transcript)))
      end
  end.

(** Step 5: synthesize voice *)
Definition synthesizeVoice (translatedTranscript : Transcript)
    (referenceAudioPath toLang voiceMode jobId : string) : M string :=
  updateJob jobId [set_stage (Some "pill-synth"); set_progress 65;
                   set_message "Synthesizing dubbed voice..."];;
  let outputPath := temp_path (jobId ++ "_dubbed.wav") in
  let* cloned :=
    match String.eqb voiceMode "clone", XTTS_SERVER_URL w with
    | true, Some (String c u) =>
        try_catch
          (match xtts w (String c u ++ "/tts_to_file")
                   (translatedText translatedTranscript) toLang
                   referenceAudioPath outputPath with
           | tts_failed => throw "fetch failed"
           | tts_status true _ => updateJob jobId [set_progress 75];; ret (Some outputPath)
           | tts_status false _ => ret None
           end)
          (fun _ => ret None)
    | _, _ => ret None
    end in
  match cloned with
  | Some r => ret r
  | None =>
      let* cloud :=
        match ELEVENLABS_API_KEY w with
        | Some (String c k) =>
            try_catch
              (match elevenlabs w (String c k) (translatedText translatedTranscript) with
               | tts_failed => throw "fetch failed"
               | tts_status true body =>
                   match body with
                   | Some buf =>
                       writeFileSync (Js.replace ".wav" ".mp3" outputPath) buf;;
                       updateJob jobId [set_progress 75];;
                       ret (Some (Js.replace ".wav" ".mp3" outputPath))
                   | None => throw "body stream error"
                   end
               | tts_status false _ => ret None
               end)
              (fun _ => ret None)
        | _ => ret None
        end in
      match cloud with
      | Some r => ret r
      | None => updateJob jobId [set_progress 75];; ret referenceAudioPath
      end
  end.

(** Fallback: merge dubbed audio onto original video (no lip sync).  The
    function up to the event that settles its promise; after [error] the
    [close] handler runs too and writes progress 90, which [deliver] at
    [merge_handlers] covers. *)
Definition mergeAudioOnly (videoPath audioPath outputPath jobId : string) : M string :=
  updateJob jobId [set_stage (Some "pill-lipsync"); set_progress 86;
                   set_message "Merging dubbed audio with video..."];;
  match spawn w "ffmpeg"
          ["-i"; videoPath; "-i"; audioPath; "-c:v"; "copy";
           "-map"; "0:v:0"; "-map"; "1:a:0"; "-shortest"; "-y"; outputPath] None with
  | on_close code =>
      updateJob jobId [set_progress 90];;
      match code with
      | Some 0 => ret outputPath
      | _ => throw "Audio merge failed"
      end
  | on_error => throw "ffmpeg not found"
  end.

(** Step 6: lip sync with Wav2Lip.  The function up to the event that
    settles its promise; after [error] the [close] handler runs too and
    starts a second merge, which [deliver] at [lipsync_handlers] covers. *)
Definition runLipSync (videoPath dubbedAudioPath quality jobId : string) : M string :=
  updateJob jobId [set_stage (Some "pill-lipsync"); set_progress 82;
                   set_message "Applying Wav2Lip lip synchronization..."];;
  let outputPath := temp_path (jobId ++ "_lipsync.mp4") in
  let modelPath := Js.or_else (WAV2LIP_MODEL w)
                     (Js.path_join [dirname w; "models"; "wav2lip_gan.pth"]) in
  let* present := existsSync modelPath in
  if negb present then
    updateJob jobId [set_progress 88];;
    mergeAudioOnly videoPath dubbedAudioPath outputPath jobId
  else
    match spawn w "python3"
            ["inference.py"; "--checkpoint_path"; modelPath; "--face"; videoPath;
             "--audio"; dubbedAudioPath; "--outfile"; outputPath;
             "--resize_factor"; if String.eqb quality "ultra" then "1" else "2"]
            (Some (Js.path_join [dirname w; "Wav2Lip"])) with
    | on_close (Some 0) => updateJob jobId [set_progress 90];; ret outputPath
    | on_close _ => mergeAudioOnly videoPath dubbedAudioPath outputPath jobId
    | on_error => mergeAudioOnly videoPath dubbedAudioPath outputPath jobId
    end.

(** Step 7: final render and encode *)
Definition finalRender_proc (lipsyncPath finalPath : string) : proc_event :=
  spawn w "ffmpeg"
    ["-i"; lipsyncPath; "-c:v"; "libx264"; "-preset"; "fast";
     "-crf"; "23"; "-c:a"; "aac"; "-b:a"; "192k";
     "-movflags"; "+faststart"; "-y"; finalPath] None.

Definition finalRender (lipsyncPath jobId : string) : M string :=
  updateJob jobId [set_stage (Some "pill-render"); set_progress 94;
                   set_message "Encoding final output..."];;
  let finalPath := Js.path_join [dirname w; "outputs"; jobId ++ "_dubbed_final.mp4"] in
  match finalRender_proc lipsyncPath finalPath with
  | on_close (Some 0) =>
      updateJob jobId [set_progress 100; set_status done; set_stage (Some "complete");
                       set_message "Dubbing complete!";
                       set_outputs {[ "video" := finalPath ]}];;
      ret finalPath
  | on_close _ => throw "Final render failed"
  | on_error =>
      updateJob jobId [set_progress 100; set_status done; set_stage (Some "complete");
                       set_message "Demo complete (ffmpeg not installed)";
                       set_outputs {[ "video" := lipsyncPath ]}];;
      ret lipsyncPath
  end.

Definition generateSrt (translated : Transcript) (jobId : string) : M string :=
  let srtPath := Js.path_join [dirname w; "outputs"; jobId ++ "_subtitles.srt"] in
  writeFileSync srtPath (srt_content translated);;
  ret srtPath.

Definition cleanupTemp (jobId : string) : M unit :=
  let remove_file (suffix : string) : M unit :=
    let p := temp_path (jobId ++ suffix) in
    try_catch
      (let* present := existsSync p in
       if present then unlinkSync p else ret tt)
      (fun _ => ret tt) in
  remove_file "_audio.wav";;
  remove_file "_dubbed.wav";;
  remove_file "_lipsync.mp4";;
  let framesDir := temp_path (jobId ++ "_frames") in
  try_catch
    (let* present := existsSync framesDir in
     if present then rmSync framesDir else ret tt)
    (fun _ => ret tt).

Record options := Options {
  opt_langFrom : string;
  opt_langTo : string;
  opt_voiceMode : string;
  opt_quality : string
}.

(** Full pipeline orchestrator *)
Definition runPipeline (jobId videoPath : string) (o : options) : M unit :=
  updateJob jobId [set_status running];;
  try_catch
    (let* audioPath := extractAudio videoPath jobId in
     let* framesDir := try_catch
                         (let* d := extractFrames videoPath jobId in ret (Some d))
                         (fun _ => ret None) in
     let* transcript := transcribeAudio audioPath (opt_langFrom o) jobId in
     let* translated := translateText transcript (opt_langFrom o) (opt_langTo o) jobId in
     let* dubbedAudio := synthesizeVoice translated audioPath (opt_langTo o)
                           (opt_voiceMode o) jobId in
     let* lipsyncPath := runLipSync videoPath dubbedAudio (opt_quality o) jobId in
     let* finalPath := finalRender lipsyncPath jobId in
     let* srtPath := generateSrt translated jobId in
     updateJob jobId [set_status done; set_progress 100;
                      set_message "Dubbing complete!";
                      set_outputs {[ "video" := finalPath; "srt" := srtPath;
                                     "audio" := dubbedAudio ]}];;
     setTimeout jobId (5 * 60 * 1000))
    (fun msg => updateJob jobId [set_status error; set_message msg]).

(** *** The same run, event by event

    From the lip-sync stage on, [runPipeline] is followed once more with
    every event of every process it starts: the handlers are those of
    [runLipSync], [mergeAudioOnly] and [finalRender], a promise is settled
    by the first handler that resolves or rejects it, what follows an
    [await] runs as soon as the awaited promise settles, and the order in
    which the processes are heard is given from outside. *)

(** What Node delivers to a process object: to a process that was
    launched, [close]; to one that could not be launched, [error] and then
    [close] with the negative error number, -2 for a missing executable
    (the handlers only compare it with 0). *)
Inductive signal := sig_close (code : option Z) | sig_error.

Definition signals (e : proc_event) : list signal :=
  match e with
  | on_close code => [sig_close code]
  | on_error => [sig_error; sig_close (Some (-2))]
  end.

(** The [close] and [error] handlers registered on a process, with the
    variables they close over. *)
Inductive listener :=
| lipsync_handlers (videoPath dubbedAudioPath outputPath jobId : string)
| merge_handlers (outputPath jobId : string)
| render_handlers (lipsyncPath finalPath jobId : string).

Record process := Process {
  handlers : listener;
  undelivered : list signal
}.

(** The [await] at which [runPipeline] is suspended, with the variables
    the rest of its body reads. *)
Inductive suspended :=
| at_runLipSync (translated : Transcript) (dubbedAudio : string)
| at_finalRender (translated : Transcript) (dubbedAudio : string)
| returned.

Record event_loop := EventLoop {
  heap : state;
  processes : list process;
  pipeline : suspended
}.

Definition on_heap {A} (m : M A) (l : event_loop) : event_loop :=
  EventLoop (snd (m (heap l))) (processes l) (pipeline l).

Definition launch (h : listener) (e : proc_event) (l : event_loop) : event_loop :=
  EventLoop (heap l) (processes l ++ [Process h (signals e)]) (pipeline l).

(** [mergeAudioOnly] up to the return of its promise. *)
Definition mergeAudioOnly_start (videoPath audioPath outputPath jobId : string)
    (l : event_loop) : event_loop :=
  launch (merge_handlers outputPath jobId)
    (spawn w "ffmpeg"
       ["-i"; videoPath; "-i"; audioPath; "-c:v"; "copy";
        "-map"; "0:v:0"; "-map"; "1:a:0"; "-shortest"; "-y"; outputPath] None)
    (on_heap (updateJob jobId [set_stage (Some "pill-lipsync"); set_progress 86;
                               set_message "Merging dubbed audio with video..."]) l).

(** [runLipSync] up to the return of its promise; without the model that
    promise is the one of [mergeAudioOnly]. *)
Definition runLipSync_start (videoPath dubbedAudioPath quality jobId : string)
    (l : event_loop) : event_loop :=
  let l := on_heap (updateJob jobId [set_stage (Some "pill-lipsync"); set_progress 82;
                                     set_message "Applying Wav2Lip lip synchronization..."]) l in
  let outputPath := temp_path (jobId ++ "_lipsync.mp4") in
  let modelPath := Js.or_else (WAV2LIP_MODEL w)
                     (Js.path_join [dirname w; "models"; "wav2lip_gan.pth"]) in
  if negb (bool_decide (is_Some (files (heap l) !! modelPath))) then
    mergeAudioOnly_start videoPath dubbedAudioPath outputPath jobId
      (on_heap (updateJob jobId [set_progress 88]) l)
  else
    launch (lipsync_handlers videoPath dubbedAudioPath outputPath jobId)
      (spawn w "python3"
         ["inference.py"; "--checkpoint_path"; modelPath; "--face"; videoPath;
          "--audio"; dubbedAudioPath; "--outfile"; outputPath;
          "--resize_factor"; if String.eqb quality "ultra" then "1" else "2"]
         (Some (Js.path_join [dirname w; "Wav2Lip"])))
      l.

(** [finalRender] up to the return of its promise. *)
Definition finalRender_start (lipsyncPath jobId : string) (l : event_loop) : event_loop :=
  let finalPath := Js.path_join [dirname w; "outputs"; jobId ++ "_dubbed_final.mp4"] in
  launch (render_handlers lipsyncPath finalPath jobId)
    (finalRender_proc lipsyncPath finalPath)
    (on_heap (updateJob jobId [set_stage (Some "pill-render"); set_progress 94;
                               set_message "Encoding final output..."]) l).

(** The [catch] of [runPipeline]. *)
Definition runPipeline_catch (jobId msg : string) (l : event_loop) : event_loop :=
  EventLoop (snd (updateJob jobId [set_status error; set_message msg] (heap l)))
            (processes l) returned.

(** The promise of [runLipSync] is resolved or rejected.  The first time
    [runPipeline] goes on after its [await]: into [finalRender], or into
    its [catch].  A promise that is settled stays as it is. *)
Definition runLipSync_settles (jobId : string) (r : result string) (l : event_loop)
  : event_loop :=
  match pipeline l with
  | at_runLipSync translated dubbedAudio =>
      match r with
      | Ok lipsyncPath =>
          let l' := finalRender_start lipsyncPath jobId l in
          EventLoop (heap l') (processes l') (at_finalRender translated dubbedAudio)
      | Throw msg => runPipeline_catch jobId msg l
      end
  | _ => l
  end.

(** What [runPipeline] does after [await finalRender(...)]: the end of
    its [try] block, with its [catch]. *)
Definition runPipeline_finish (translated : Transcript)
    (dubbedAudio finalPath jobId : string) : M unit :=
  try_catch
    (let* srtPath := generateSrt translated jobId in
     updateJob jobId [set_status done; set_progress 100;
                      set_message "Dubbing complete!";
                      set_outputs {[ "video" := finalPath; "srt" := srtPath;
                                     "audio" := dubbedAudio ]}];;
     setTimeout jobId (5 * 60 * 1000))
    (fun msg => updateJob jobId [set_status error; set_message msg]).

(** The same for the promise of [finalRender]: [runPipeline] goes on to
    the end of its [try] block, or into its [catch]. *)
Definition finalRender_settles (jobId : string) (r : result string) (l : event_loop)
  : event_loop :=
  match pipeline l with
  | at_finalRender translated dubbedAudio =>
      match r with
      | Ok finalPath =>
          EventLoop (snd (runPipeline_finish translated dubbedAudio finalPath jobId (heap l)))
                    (processes l) returned
      | Throw msg => runPipeline_catch jobId msg l
      end
  | _ => l
  end.

(** A handler runs. *)
Definition deliver (h : listener) (s : signal) (l : event_loop) : event_loop :=
  match h with
  | lipsync_handlers videoPath dubbedAudioPath outputPath jobId =>
      match s with
      | sig_close (Some 0) =>
          runLipSync_settles jobId (Ok outputPath)
            (on_heap (updateJob jobId [set_progress 90]) l)
      | sig_close _ => mergeAudioOnly_start videoPath dubbedAudioPath outputPath jobId l
      | sig_error => mergeAudioOnly_start videoPath dubbedAudioPath outputPath jobId l
      end
  | merge_handlers outputPath jobId =>
      match s with
      | sig_close code =>
          runLipSync_settles jobId
            match code with
            | Some 0 => Ok outputPath
            | _ => Throw "Audio merge failed"
            end
            (on_heap (updateJob jobId [set_progress 90]) l)
      | sig_error => runLipSync_settles jobId (Throw "ffmpeg not found") l
      end
  | render_handlers lipsyncPath finalPath jobId =>
      match s with
      | sig_close (Some 0) =>
          finalRender_settles jobId (Ok finalPath)
            (on_heap (updateJob jobId
                        [set_progress 100; set_status done; set_stage (Some "complete");
                         set_message "Dubbing complete!";
                         set_outputs {[ "video" := finalPath ]}]) l)
      | sig_close _ => finalRender_settles jobId (Throw "Final render failed") l
      | sig_error =>
          finalRender_settles jobId (Ok lipsyncPath)
            (on_heap (updateJob jobId
                        [set_progress 100; set_status done; set_stage (Some "complete");
                         set_message "Demo complete (ffmpeg not installed)";
                         set_outputs {[ "video" := lipsyncPath ]}]) l)
      end
  end.

(** The [i]-th process is heard: its next signal is delivered. *)
Definition hear (i : nat) (l : event_loop) : event_loop :=
  match processes l !! i with
  | Some (Process h (s :: later)) =>
      deliver h s
        (EventLoop (heap l)
           (take i (processes l)
              ++ match later with
                 | [] => []
                 | _ :: _ => [Process h later]
                 end
              ++ drop (S i) (processes l))
           (pipeline l))
  | Some (Process h []) =>
      EventLoop (heap l) (take i (processes l) ++ drop (S i) (processes l)) (pipeline l)
  | None => l
  end.

(** One turn of the event loop; [choice] says which process is heard. *)
Definition turn (choice : nat) (l : event_loop) : event_loop :=
  hear (choice mod length (processes l)) l.

Fixpoint turns (schedule : nat -> nat) (n k : nat) (l : event_loop) : event_loop :=
  match n with
  | O => l
  | S n' => turns schedule n' (S k) (turn (schedule k) l)
  end.

(** [runPipeline] with, from the lip-sync stage on, every process heard
    out in the order [schedule] gives; the state returned is the one left
    when no process has a signal to deliver any more.  At most eight
    signals are delivered: two to the inference, two to each of the two
    merges it can start, and two to the render.  Before the lip-sync stage
    the run is the only one to act, and the steps are those of
    [runPipeline]. *)
Definition runPipeline_events (schedule : nat -> nat) (jobId videoPath : string)
    (o : options) : M unit :=
  fun st =>
    match
      (updateJob jobId [set_status running];;
       try_catch
         (let* audioPath := extractAudio videoPath jobId in
          let* framesDir := try_catch
                              (let* d := extractFrames videoPath jobId in ret (Some d))
                              (fun _ => ret None) in
          let* transcript := transcribeAudio audioPath (opt_langFrom o) jobId in
          let* translated := translateText transcript (opt_langFrom o) (opt_langTo o) jobId in
          let* dubbedAudio := synthesizeVoice translated audioPath (opt_langTo o)
                                (opt_voiceMode o) jobId in
          ret (Some (translated, dubbedAudio)))
         (fun msg => updateJob jobId [set_status error; set_message msg];; ret None)) st
    with
    | (Ok (Some (translated, dubbedAudio)), st1) =>
        (Ok tt,
         heap (turns schedule 8 0
                 (runLipSync_start videoPath dubbedAudio (opt_quality o) jobId
                    (EventLoop st1 [] (at_runLipSync translated dubbedAudio)))))
    | (_, st1) => (Ok tt, st1)
    end.

(** *** Routes *)

Record response := Response {
  res_status : Z;
  res_body : list (string * string)
}.

Record upload := Upload {
  file_path : string;
  originalname : string
}.

Record dub_body := DubBody {
  lang_from : option string;
  lang_to : option string;
  voice_mode : option string;
  body_quality : option string;
  sync_confidence : option string
}.

(** [POST /api/dub]; [jobId] is the value [uuidv4()] returns.  The
    pipeline is run to its end before the next request is looked at. *)
Definition post_dub (file : option upload) (body : dub_body) (jobId : string)
  : M response :=
  match file with
  | None => ret (Response 400 [("error", "No video file provided")])
  | Some file =>
      let lang_from := default "en" (lang_from body) in
      let lang_to := default "es" (lang_to body) in
      let voice_mode := default "clone" (voice_mode body) in
      let quality := default "balanced" (body_quality body) in
      let sync_confidence := default "0.85" (sync_confidence body) in
      createJob jobId (Meta (file_path file) lang_from lang_to voice_mode quality
                            (parseFloat w sync_confidence) (originalname file));;
      runPipeline jobId (file_path file) (Options lang_from lang_to voice_mode quality);;
      ret (Response 200 [("job_id", jobId); ("status", "queued");
                         ("message", "Job queued successfully")])
  end.

(** [POST /api/dub] with the run followed event by event. *)
Definition post_dub_events (schedule : nat -> nat) (file : option upload) (body : dub_body)
    (jobId : string) : M response :=
  match file with
  | None => ret (Response 400 [("error", "No video file provided")])
  | Some file =>
      let lang_from := default "en" (lang_from body) in
      let lang_to := default "es" (lang_to body) in
      let voice_mode := default "clone" (voice_mode body) in
      let quality := default "balanced" (body_quality body) in
      let sync_confidence := default "0.85" (sync_confidence body) in
      createJob jobId (Meta (file_path file) lang_from lang_to voice_mode quality
                            (parseFloat w sync_confidence) (originalname file));;
      runPipeline_events schedule jobId (file_path file)
        (Options lang_from lang_to voice_mode quality);;
      ret (Response 200 [("job_id", jobId); ("status", "queued");
                         ("message", "Job queued successfully")])
  end.

Record summary := Summary {
  s_id : string;
  s_status : job_status;
  s_progress : Z;
  s_filename : string;
  s_createdAt : Z
}.

Definition summarize (j : job) : summary :=
  Summary (id j) (status j) (progress j) (filename (meta j)) (createdAt j).

(** [GET /api/jobs]: [total] and [jobs].  The Map lists its values in
    insertion order; the order is not modelled here. *)
Definition list_jobs (st : state) : nat * list summary :=
  let list := summarize <$> (map_to_list (jobs st)).*2 in
  (length list, list).

(** [DELETE /api/dub/:jobId] *)
Definition delete_dub (jobId : string) : M response :=
  let* job := jobs_get jobId in
  match job with
  | None => ret (Response 404 [("error", "Job not found")])
  | Some _ =>
      cleanupTemp jobId;;
      jobs_delete jobId;;
      ret (Response 200 [("message", "Job deleted")])
  end.

End Program.

(** The records stored for a job, oldest first. *)
Definition writes (jobId : string) (st : state) : list job :=
  rev (List.map snd (List.filter (fun e => String.eqb (fst e) jobId) (journal st))).

Definition initial_state : state := State ∅ ∅ 0 [] [].

(** The names a job has, and the entry an object literal would need to
    give a job the value it has under a name. *)
Inductive field :=
| f_id | f_status | f_stage | f_progress | f_message
| f_meta | f_createdAt | f_updatedAt | f_outputs.

Definition field_of (a : assignment) : field :=
  match a with
  | set_id _ => f_id
  | set_status _ => f_status
  | set_stage _ => f_stage
  | set_progress _ => f_progress
  | set_message _ => f_message
  | set_meta _ => f_meta
  | set_createdAt _ => f_createdAt
  | set_updatedAt _ => f_updatedAt
  | set_outputs _ => f_outputs
  end.

Definition field_eqb (f g : field) : bool :=
  match f, g with
  | f_id, f_id | f_status, f_status | f_stage, f_stage
  | f_progress, f_progress | f_message, f_message | f_meta, f_meta
  | f_createdAt, f_createdAt | f_updatedAt, f_updatedAt
  | f_outputs, f_outputs => true
  | _, _ => false
  end.

Definition get (f : field) (j : job) : assignment :=
  match f with
  | f_id => set_id (id j)
  | f_status => set_status (status j)
  | f_stage => set_stage (stage j)
  | f_progress => set_progress (progress j)
  | f_message => set_message (message j)
  | f_meta => set_meta (meta j)
  | f_createdAt => set_createdAt (createdAt j)
  | f_updatedAt => set_updatedAt (updatedAt j)
  | f_outputs => set_outputs (outputs j)
  end.

(** The entry of an object literal that counts for a name: the last one. *)
Fixpoint named (f : field) (updates : list assignment) : option assignment :=
  match updates with
  | [] => None
  | a :: rest =>
      match named f rest with
      | Some b => Some b
      | None => if field_eqb (field_of a) f then Some a else None
      end
  end.

(** The state [updateJob] leaves behind. *)
Definition after_update (w : world) (key : string) (updates : list assignment)
    (st : state) : state :=
  match jobs st !! key with
  | None => st
  | Some j =>
      let j' := Object_assign j updates [set_updatedAt (clock w (ticks st))] in
      State (<[key := j']> (jobs st)) (files st) (S (ticks st)) (timers st)
            ((key, j') :: journal st)
  end.

(** A host on which every tool runs and exits with code 0, no provider is
    configured, no file exists yet and no file operation fails. *)
Definition bare_host : world :=
  World "/srv/synclab" None None None None None None None
    (fun n => 1700000000000 + Z.of_nat n)
    (fun _ _ _ => on_close (Some 0))
    (fun _ => None)
    (fun _ _ _ _ _ => fetch_failed)
    (fun _ _ _ => fetch_failed)
    (fun _ _ _ _ _ => tts_failed)
    (fun _ _ => tts_failed)
    (fun _ => false)
    (fun _ => 17 # 20)%Q.

(** A host without ffmpeg and python3: no process can be launched. *)
Definition no_tools : world :=
  World "/srv/synclab" None None None None None None None
    (fun n => 1700000000000 + Z.of_nat n)
    (fun _ _ _ => on_error)
    (fun _ => None)
    (fun _ _ _ _ _ => fetch_failed)
    (fun _ _ _ => fetch_failed)
    (fun _ _ _ _ _ => tts_failed)
    (fun _ _ => tts_failed)
    (fun _ => false)
    (fun _ => 17 # 20)%Q.

Definition sample_meta : job_meta :=
  Meta "/srv/synclab/uploads/1-a.mp4" "en" "es" "clone" "balanced" (17 # 20) "a.mp4".

(** The store right after [createJob("j1", sample_meta)]. *)
Definition submitted (w : world) : state :=
  snd (createJob w "j1" sample_meta initial_state).

Definition sample_job : job :=
  Job "j1" queued None 0 EmptyString sample_meta 1700000000000 1700000000001 ∅.

(** Every record sits under its own id, as [createJob] stores it. *)
Definition keyed_by_id (st : state) : Prop :=
  forall key j, jobs st !! key = Some j -> id j = key.

(** Only the files differ between two states. *)
Definition same_store (st st' : state) : Prop :=
  jobs st' = jobs st /\ ticks st' = ticks st
  /\ timers st' = timers st /\ journal st' = journal st.

(** ** What one run writes *)

(** The status changes the code can make from one write to the next. *)
Definition status_step (s s' : job_status) : Prop :=
  match s, s' with
  | queued, running
  | running, running | running, done | running, error
  | done, done | done, error => True
  | _, _ => False
  end.

(** A write may follow another when progress does not go down, unless it
    goes from 88 to 86, when the status change is one of [status_step], and
    when a job that was [done] keeps its stage. *)
Definition allowed (j j' : job) : Prop :=
  (progress j <= progress j' \/ (progress j = 88 /\ progress j' = 86))
  /\ status_step (status j) (status j')
  /\ (status j = done -> stage j' = stage j).

(** What holds of every record written. *)
Definition consistent (j : job) : Prop :=
  (status j = done -> progress j = 100)
  /\ (progress j = 100 -> status j = done \/ status j = error).

Definition phase (k : Z) (j : job) : Prop :=
  status j = running /\ progress j <= k.

Definition terminal (j : job) : Prop :=
  status j = done \/ status j = error.

(** [wrote jobId jn j jn' j']: the journal grew from [jn] to [jn'] by
    writes under [jobId] alone, each [allowed] after the one before it
    (the first after [j]) and [consistent], the last one being [j']. *)
Inductive wrote (jobId : string) (jn : list (string * job)) (j : job)
  : list (string * job) -> job -> Prop :=
| wrote_nil : wrote jobId jn j jn j
| wrote_step jn' j' j'' :
    wrote jobId jn j jn' j' -> allowed j' j'' -> consistent j'' ->
    wrote jobId jn j ((jobId, j'') :: jn') j''.

(** A computation that, started with the job stored as a [P] record,
    ends with it stored as a [Q] record and has [wrote] the difference. *)
Definition obeys {A} (jobId : string) (P : job -> Prop) (m : M A)
    (Q : result A -> job -> Prop) : Prop :=
  forall st j r st',
    jobs st !! jobId = Some j -> P j -> m st = (r, st') ->
    exists j',
      jobs st' !! jobId = Some j'
      /\ wrote jobId (journal st) j (journal st') j'
      /\ Q r j'.

(** The same in list form: each record is [allowed] after the one before. *)
Fixpoint chain (j : job) (js : list job) : Prop :=
  match js with
  | [] => True
  | j' :: rest => allowed j j' /\ chain j' rest
  end.

Fixpoint nondecreasing (l : list Z) : bool :=
  match l with
  | a :: (b :: _) as rest => (a <=? b)%Z && nondecreasing rest
  | _ => true
  end.

(** A host like [bare_host] on which the subtitle file cannot be written
    and the lip-sync model is installed. *)
Definition srt_unwritable : world :=
  World "/srv/synclab" None None None None None None None
    (fun n => 1700000000000 + Z.of_nat n)
    (fun _ _ _ => on_close (Some 0))
    (fun _ => None)
    (fun _ _ _ _ _ => fetch_failed)
    (fun _ _ _ => fetch_failed)
    (fun _ _ _ _ _ => tts_failed)
    (fun _ _ => tts_failed)
    (fun p => String.eqb p "/srv/synclab/outputs/j1_subtitles.srt")
    (fun _ => 17 # 20)%Q.

Definition with_model : state :=
  State ∅ {[ "/srv/synclab/models/wav2lip_gan.pth" := File "weights" ]} 0 [] [].

Definition sample_upload : upload := Upload "/srv/synclab/uploads/1-a.mp4" "a.mp4".

Definition no_fields : dub_body := DubBody None None None None None.

(** ** Routes that only read the store *)

Record status_view := StatusView {
  v_job_id : string;
  v_status : job_status;
  v_stage : option string;
  v_progress : Z;
  v_message : string;
  v_outputs : option (string * string * string)
}.

Inductive status_reply :=
| status_error (code : Z) (msg : string)
| status_ok (v : status_view).

(** [GET /api/dub/:jobId/status]; the three URLs are [video_url],
    [srt_url] and [audio_url]. *)
Definition get_status (jobId : string) (st : state) : status_reply :=
  match jobs st !! jobId with
  | None => status_error 404 "Job not found"
  | Some job =>
      status_ok
        (StatusView (id job) (status job) (stage job) (progress job) (message job)
           match status job with
           | done => Some ("/api/dub/" ++ id job ++ "/download/video",
                           "/api/dub/" ++ id job ++ "/download/srt",
                           "/api/dub/" ++ id job ++ "/download/audio")
           | _ => None
           end)
  end.

Inductive download_reply :=
| download_error (code : Z) (msg : string)
| download (filePath name : string).

(** [fileMap[type]] as a path: a [type] other than the three kinds finds
    nothing that names a file. *)
Definition fileMap (job : job) (type : string) : option string :=
  if String.eqb type "video" then outputs job !! "video"
  else if String.eqb type "srt" then outputs job !! "srt"
  else if String.eqb type "audio" then outputs job !! "audio"
  else None.

Definition extMap (type : string) : string :=
  if String.eqb type "video" then ".mp4"
  else if String.eqb type "srt" then ".srt"
  else if String.eqb type "audio" then ".wav"
  else "undefined".

(** [GET /api/dub/:jobId/download/:type] *)
Definition get_download (jobId type : string) (st : state) : download_reply :=
  match jobs st !! jobId with
  | None => download_error 404 "Job not found"
  | Some job =>
      match status job with
      | done =>
          match fileMap job type with
          | Some (String c p) =>
              if bool_decide (is_Some (files st !! String c p))
              then download (String c p) ("dubbed_" ++ type ++ extMap type)
              else download_error 404 "Output file not found"
          | _ => download_error 404 "Output file not found"
          end
      | _ => download_error 400 "Job not complete"
      end
  end.

(** ** What a computation leaves alone *)

(** The [try] block of [runPipeline]. *)
Definition pipeline_try_block (w : world) (jobId videoPath : string) (o : options)
  : M unit :=
  let* audioPath := extractAudio w videoPath jobId in
  let* framesDir := try_catch
                      (let* d := extractFrames w videoPath jobId in ret (Some d))
                      (fun _ => ret None) in
  let* transcript := transcribeAudio w audioPath (opt_langFrom o) jobId in
  let* translated := translateText w transcript (opt_langFrom o) (opt_langTo o) jobId in
  let* dubbedAudio := synthesizeVoice w translated audioPath (opt_langTo o)
                        (opt_voiceMode o) jobId in
  let* lipsyncPath := runLipSync w videoPath dubbedAudio (opt_quality o) jobId in
  let* finalPath := finalRender w lipsyncPath jobId in
  let* srtPath := generateSrt w translated jobId in
  updateJob w jobId [set_status done; set_progress 100;
                     set_message "Dubbing complete!";
                     set_outputs {[ "video" := finalPath; "srt" := srtPath;
                                    "audio" := dubbedAudio ]}];;
  setTimeout jobId (5 * 60 * 1000).

Definition srt_path (w : world) (jobId : string) : string :=
  Js.path_join [dirname w; "outputs"; jobId ++ "_subtitles.srt"].

Definition final_path (w : world) (jobId : string) : string :=
  Js.path_join [dirname w; "outputs"; jobId ++ "_dubbed_final.mp4"].

Definition preserves {A} (I : state -> state -> Prop) (m : M A) : Prop :=
  forall st r st', m st = (r, st') -> I st st'.

Definition outcome {A} (m : M A) (R : result A -> Prop) : Prop :=
  forall st r st', m st = (r, st') -> R r.

(** No record appears or disappears, every record keeps its [id], [meta]
    and [createdAt], and the records of other jobs are untouched. *)
Definition job_frame (jobId : string) (st st' : state) : Prop :=
  forall key,
    match jobs st !! key with
    | None => jobs st' !! key = None
    | Some j =>
        exists j',
          jobs st' !! key = Some j'
          /\ id j' = id j /\ meta j' = meta j /\ createdAt j' = createdAt j
          /\ (key <> jobId -> j' = j)
    end.

(** No path is removed, and no directory appears except at [framesDir]. *)
Definition files_frame (framesDir : string) (st st' : state) : Prop :=
  forall p,
    (is_Some (files st !! p) -> is_Some (files st' !! p))
    /\ (p <> framesDir -> files st' !! p = Some Dir -> files st !! p = Some Dir).

Definition stage_frame (w : world) (jobId : string) (st st' : state) : Prop :=
  job_frame jobId st st'
  /\ timers st' = timers st
  /\ files_frame (temp_path w (jobId ++ "_frames")) st st'.

(** What a whole run leaves alone: [stage_frame] without the timers. *)
Definition run_frame (w : world) (jobId : string) (st st' : state) : Prop :=
  job_frame jobId st st'
  /\ files_frame (temp_path w (jobId ++ "_frames")) st st'.

(** The four paths [cleanupTemp] looks at: three files and the directory
    of the frames. *)
Definition temp_files (w : world) (jobId : string) : list string :=
  [temp_path w (jobId ++ "_audio.wav"); temp_path w (jobId ++ "_dubbed.wav");
   temp_path w (jobId ++ "_lipsync.mp4")].

Definition frames_dir (w : world) (jobId : string) : string :=
  temp_path w (jobId ++ "_frames").

Definition temp_artifacts (w : world) (jobId : string) : list string :=
  [temp_path w (jobId ++ "_audio.wav"); temp_path w (jobId ++ "_dubbed.wav");
   temp_path w (jobId ++ "_lipsync.mp4"); temp_path w (jobId ++ "_frames")].

(** The lip-sync inference and the audio merge, when they are started, are
    launched: they report [close] and not [error], so that no handler runs
    on a second event (see [proc_event]). *)
Definition lipsync_launches (w : world) : Prop :=
  forall args cwd, spawn w "python3" ("inference.py" :: args) cwd <> on_error.

Definition merge_launches (w : world) : Prop :=
  forall videoPath audioPath outputPath,
    spawn w "ffmpeg"
      ["-i"; videoPath; "-i"; audioPath; "-c:v"; "copy";
       "-map"; "0:v:0"; "-map"; "1:a:0"; "-shortest"; "-y"; outputPath] None
    <> on_error.

(** A store with the job [j1] and, on disk, what a run and its tools leave
    behind: the extracted audio, the merged video, the frames directory
    with one frame in it, and the two deliverables under [outputs]. *)
Definition with_artifacts : state :=
  State {[ "j1" := sample_job ]}
        (list_to_map
           [("/srv/synclab/temp/j1_audio.wav", File "RIFF");
            ("/srv/synclab/temp/j1_lipsync.mp4", File "ftyp");
            ("/srv/synclab/temp/j1_frames", Dir);
            ("/srv/synclab/temp/j1_frames/frame_00001.jpg", File "JFIF");
            ("/srv/synclab/outputs/j1_dubbed_final.mp4", File "ftyp");
            ("/srv/synclab/outputs/j1_subtitles.srt", File "1")])
        2 [] [].

(** What the [try] block has done when it returns, and when it throws. *)
Definition block_post (w : world) (jobId : string) (st : state) (r : result unit) (st' : state) : Prop :=
  match r with
  | Ok _ =>
      timers st' = (5 * 60 * 1000, jobId) :: timers st
      /\ (exists c, files st' !! srt_path w jobId = Some (File c))
      /\ forall j', jobs st' !! jobId = Some j' ->
           status j' = done /\ progress j' = 100
           /\ exists v a, outputs j' = {[ "video" := v; "srt" := srt_path w jobId;
                                          "audio" := a ]}
  | Throw _ => timers st' = timers st
  end.


(** The block returns unless a directory sits where the subtitles go. *)
Definition unless_blocked (w : world) (jobId : string)
    (st : state) (r : result unit) (st' : state) : Prop :=
  files st !! srt_path w jobId <> Some Dir -> exists a, r = Ok a.

(** The store after a whole run on [bare_host]. *)
Definition finished : state :=
  snd (post_dub bare_host (Some sample_upload) no_fields "j1" initial_state).

Definition finished_job : job := default sample_job (jobs finished !! "j1").

(** A host on which every tool runs and exits with code 1. *)
Definition tools_exit_1 : world :=
  World "/srv/synclab" None None None None None None None
    (fun n => 1700000000000 + Z.of_nat n)
    (fun _ _ _ => on_close (Some 1))
    (fun _ => None)
    (fun _ _ _ _ _ => fetch_failed)
    (fun _ _ _ => fetch_failed)
    (fun _ _ _ _ _ => tts_failed)
    (fun _ _ => tts_failed)
    (fun _ => false)
    (fun _ => 17 # 20)%Q.

(** ** Measures and invariants of the event loop *)

(** The signals a process can still cause to be delivered: its own, and,
    for the inference, two more for the merge each of them may start. *)
Definition weight (p : process) : nat :=
  match handlers p with
  | lipsync_handlers _ _ _ _ => 3 * length (undelivered p)
  | _ => length (undelivered p)
  end.

(** The same for the whole loop; the render is still to be started while
    [runPipeline] waits for [runLipSync]. *)
Definition load (l : event_loop) : nat :=
  (sum_list_with weight (processes l)
   + match pipeline l with
     | at_runLipSync _ _ => 2
     | _ => 0
     end)%nat.

Definition is_render (p : process) : Prop :=
  match handlers p with
  | render_handlers _ _ _ => True
  | _ => False
  end.

(** Every process listed has a signal to deliver, and a promise that
    [runPipeline] waits for has a process that will settle it. *)
Definition hearable (l : event_loop) : Prop :=
  Forall (fun p => undelivered p <> []) (processes l)
  /\ match pipeline l with
     | at_runLipSync _ _ => Exists (fun p => ~ is_render p) (processes l)
     | at_finalRender _ _ => Exists is_render (processes l)
     | returned => True
     end.

#[global] Instance is_render_dec p : Decision (is_render p) :=
  match handlers p as h
        return Decision match h with render_handlers _ _ _ => True | _ => False end
  with
  | render_handlers _ _ _ => left I
  | _ => right (fun H => H)
  end.

(** The handlers of a process started for the job [jobId]. *)
Definition own (jobId : string) (h : listener) : Prop :=
  match h with
  | lipsync_handlers _ _ _ j => j = jobId
  | merge_handlers _ j => j = jobId
  | render_handlers _ _ j => j = jobId
  end.

(** How the job stands once [runPipeline] has returned, [st0] being the
    state it was called in: [done] with its three outputs, the subtitle
    file on disk and the clean-up scheduled, or [error] and no clean-up. *)
Definition ended (w : world) (jobId : string) (st0 st : state) : Prop :=
  forall j, jobs st !! jobId = Some j ->
    (status j = done
     /\ timers st = (5 * 60 * 1000, jobId) :: timers st0
     /\ (exists c, files st !! srt_path w jobId = Some (File c))
     /\ exists v a, outputs j = {[ "video" := v; "srt" := srt_path w jobId; "audio" := a ]})
    \/ (status j = error /\ timers st = timers st0).

(** The render process: none before [finalRender] is entered, one that
    has not been heard while [runPipeline] waits for it, and afterwards at
    most its second signal. *)
Definition render_inv (ps : list process) (pl : suspended) : Prop :=
  match pl with
  | at_runLipSync _ _ => Forall (fun p => ~ is_render p) ps
  | at_finalRender _ _ =>
      length (filter is_render ps) = 1%nat
      /\ Forall (fun p => is_render p -> exists e, undelivered p = signals e) ps
  | returned => Forall (fun p => is_render p -> undelivered p = [sig_close (Some (-2))]) ps
  end.

(** What every turn of the event loop keeps, from the state [st0] in
    which [runPipeline] was called. *)
Definition run_inv (w : world) (jobId : string) (st0 : state) (l : event_loop) : Prop :=
  Forall (fun p => own jobId (handlers p)) (processes l)
  /\ render_inv (processes l) (pipeline l)
  /\ run_frame w jobId st0 (heap l)
  /\ match pipeline l with
     | returned => ended w jobId st0 (heap l)
     | _ => timers (heap l) = timers st0
     end.

(** A render that has been heard once has its [close] after [error] left. *)
Definition trailing (p : process) : Prop :=
  is_render p -> undelivered p = [sig_close (Some (-2))].

(** What [render_inv] says of the signal [s] of a process with handlers
    [h] and of the other processes [ps], [later] being the signals of the
    process that follow [s]. *)
Definition heard_ok (h : listener) (s : signal) (later : list signal)
    (ps : list process) (pl : suspended) : Prop :=
  match h with
  | render_handlers _ _ _ =>
      Forall trailing ps
      /\ match pl with
         | at_runLipSync _ _ => False
         | at_finalRender _ _ => exists e, s :: later = signals e
         | returned => s = sig_close (Some (-2))
         end
  | _ => render_inv ps pl
  end.

(** A host like [bare_host] on which [python3] cannot be launched. *)
Definition no_python : world :=
  World "/srv/synclab" None None None None None None None
    (fun n => 1700000000000 + Z.of_nat n)
    (fun command _ _ => if String.eqb command "python3" then on_error else on_close (Some 0))
    (fun _ => None)
    (fun _ _ _ _ _ => fetch_failed)
    (fun _ _ _ => fetch_failed)
    (fun _ _ _ _ _ => tts_failed)
    (fun _ _ => tts_failed)
    (fun _ => false)
    (fun _ => 17 # 20)%Q.

(** Three orders of events.  The oldest process is heard at every turn;
    or at every turn but the fourth, where the second oldest is heard; or
    at every turn but the second. *)
Definition in_turn (k : nat) : nat := 0%nat.

Definition render_first (k : nat) : nat :=
  if Nat.eqb k 3 then 1%nat else 0%nat.

Definition merge_first (k : nat) : nat :=
  if Nat.eqb k 1 then 1%nat else 0%nat.

(** The status and progress of the records written for [j1] by an upload
    on [no_python] with the lip-sync model installed, oldest first. *)
Definition launch_failure_writes (schedule : nat -> nat) : list (job_status * Z) :=
  (fun j => (status j, progress j))
    <$> writes "j1" (snd (post_dub_events no_python schedule (Some sample_upload) no_fields
                            "j1" with_model)).

(** * Properties *)

Section Store.

Variable w : world.

Lemma updateJob_run key updates st :
  updateJob w key updates st = (Ok tt, after_update w key updates st).
Proof.
  unfold updateJob, after_update, bind, jobs_get.
  destruct (jobs st !! key); reflexivity.
Qed.

Lemma get_assign_same j a : get (field_of a) (assign j a) = a.
Proof. destruct a; reflexivity. Qed.

Lemma get_assign_other j a f :
  field_eqb (field_of a) f = false -> get f (assign j a) = get f j.
Proof. destruct a, f; simpl; intros E; try reflexivity; discriminate E. Qed.

Lemma field_eqb_eq f g : field_eqb f g = true -> f = g.
Proof. destruct f, g; simpl; intros E; try reflexivity; discriminate E. Qed.

Lemma get_fold_assign updates : forall j f,
  get f (fold_left assign updates j) = default (get f j) (named f updates).
Proof.
  induction updates as [|a rest IH]; intros j f; simpl; [reflexivity|].
  rewrite IH. destruct (named f rest) as [b|]; simpl; [reflexivity|].
  destruct (field_eqb (field_of a) f) eqn:E; simpl.
  - apply field_eqb_eq in E. subst f. apply get_assign_same.
  - apply get_assign_other, E.
Qed.

Lemma named_app f us vs :
  named f (us ++ vs) = match named f vs with
                       | Some b => Some b
                       | None => named f us
                       end.
Proof.
  induction us as [|a rest IH]; simpl.
  - destruct (named f vs); reflexivity.
  - rewrite IH. destruct (named f vs); reflexivity.
Qed.

Lemma get_Object_assign j updates now f :
  get f (Object_assign j updates [set_updatedAt now]) =
  if field_eqb f f_updatedAt then set_updatedAt now
  else default (get f j) (named f updates).
Proof.
  unfold Object_assign. rewrite get_fold_assign, named_app.
  destruct f; reflexivity.
Qed.

End Store.

(** ** JavaScript helpers on sample values *)

Example replace_first_only :
  Js.replace ".wav" ".mp3" "/srv/a.wav/temp/j1_dubbed.wav" = "/srv/a.mp3/temp/j1_dubbed.wav".
Proof. vm_compute. reflexivity. Qed.

Example basename_strips_ext :
  Js.basename "/srv/synclab/temp/j1_audio.wav" ".wav" = "j1_audio".
Proof. vm_compute. reflexivity. Qed.

Example toUpperCase_es : Js.toUpperCase "pt-br" = "PT-BR".
Proof. vm_compute. reflexivity. Qed.

Example pad_7 : pad 7 = "07".
Proof. vm_compute. reflexivity. Qed.

Example pad_123 : pad 123 = "123".
Proof. vm_compute. reflexivity. Qed.

Example rem_negative : Qeq (Js.rem (-7 # 2) 3) (-1 # 2).
Proof. vm_compute. reflexivity. Qed.

Example round_half_up : Js.round (5 # 2) = 3 /\ Js.round (-5 # 2) = -2.
Proof. vm_compute. split; reflexivity. Qed.

(** ** Job record store *)

Section UpdateJob.

Variable w : world.

Lemma named_None f updates :
  named f updates = None <-> Forall (fun a => field_of a <> f) updates.
Proof.
  induction updates as [|a rest IH]; simpl.
  - split; [constructor | reflexivity].
  - destruct (named f rest) as [b|] eqn:E.
    + split; [discriminate|]. intros H. inversion H as [|? ? _ Hrest]; subst.
      apply IH in Hrest. discriminate Hrest.
    + destruct (field_eqb (field_of a) f) eqn:Ef.
      * split; [discriminate|]. intros H. inversion H as [|? ? Ha _]; subst.
        apply field_eqb_eq in Ef. contradiction.
      * split; [|reflexivity]. intros _. constructor.
        -- intros <-. destruct (field_of a); discriminate Ef.
        -- apply IH. reflexivity.
Qed.

(** C7. [updateJob] on an unknown id returns without touching the state;
    on a known id it stores under that id a record whose [updatedAt] is
    the clock reading, whose every other name that occurs in the updates
    holds the (last) value given for it, and whose remaining names hold
    what they held before. *)
Theorem updateJob_merges key updates st :
  match jobs st !! key with
  | None => updateJob w key updates st = (Ok tt, st)
  | Some j =>
      exists j',
        updateJob w key updates st =
          (Ok tt, State (<[key := j']> (jobs st)) (files st) (S (ticks st))
                        (timers st) ((key, j') :: journal st))
        /\ updatedAt j' = clock w (ticks st)
        /\ forall f, get f j' =
                       if field_eqb f f_updatedAt
                       then set_updatedAt (clock w (ticks st))
                       else default (get f j) (named f updates)
  end.
Proof.
  rewrite updateJob_run. unfold after_update.
  destruct (jobs st !! key) as [j|]; [|reflexivity].
  eexists. split; [reflexivity|]. split.
  - pose proof (get_Object_assign j updates (clock w (ticks st)) f_updatedAt) as H.
    simpl in H. congruence.
  - intros f. apply get_Object_assign.
Qed.

End UpdateJob.

Example updateJob_unknown_id :
  updateJob bare_host "j2" [set_progress 15] (submitted bare_host)
  = (Ok tt, submitted bare_host).
Proof. vm_compute. reflexivity. Qed.

Example updateJob_known_id :
  (fun j => (status j, stage j, progress j, message j, updatedAt j, createdAt j))
    <$> jobs (snd (updateJob bare_host "j1"
                     [set_stage (Some "pill-extract"); set_progress 8;
                      set_message "Extracting audio from video..."]
                     (submitted bare_host))) !! "j1"
  = Some (queued, Some "pill-extract", 8, "Extracting audio from video...",
          1700000000002, 1700000000000).
Proof. vm_compute. reflexivity. Qed.

(** ** Subtitles *)

Lemma fmtSrtTime_0 : fmtSrtTime 0 = "00:00:00,000".
Proof. vm_compute. reflexivity. Qed.

Lemma fmtSrtTime_2_5 : fmtSrtTime (5 # 2) = "00:00:02,500".
Proof. vm_compute. reflexivity. Qed.

Lemma fmtSrtTime_5 : fmtSrtTime 5 = "00:00:05,000".
Proof. vm_compute. reflexivity. Qed.

Lemma fmtSrtTime_hours : fmtSrtTime (14645 # 4) = "01:01:01,250".
Proof. vm_compute. reflexivity. Qed.

Lemma srt_content_two_segments txt lang tr i1 i2 :
  srt_content
    (mkTranscript txt (Some [Segment i1 0 (5 # 2) "A"; Segment i2 (5 # 2) 5 "B"]) lang tr)
  = "1" ++ Js.nl ++ "00:00:00,000 --> 00:00:02,500" ++ Js.nl ++ "A" ++ Js.nl
    ++ Js.nl
    ++ "2" ++ Js.nl ++ "00:00:02,500 --> 00:00:05,000" ++ Js.nl ++ "B" ++ Js.nl.
Proof. vm_compute. reflexivity. Qed.

Lemma srt_content_default_segment (translated : Transcript) :
  segments translated = None ->
  srt_content translated
  = "1" ++ Js.nl ++ "00:00:00,000 --> 00:00:05,000" ++ Js.nl
    ++ match translatedText translated with
       | Some t => t
       | None => EmptyString
       end ++ Js.nl.
Proof.
  intros H. unfold srt_content, srt_segments. rewrite H.
  unfold Js.mapi, Js.mapi_from, Js.join, srt_cue. simpl seg_start. simpl seg_end.
  rewrite fmtSrtTime_0, fmtSrtTime_5. simpl seg_text.
  destruct (translatedText translated) as [[|c t]|]; reflexivity.
Qed.

(** What [generateSrt] does when the subtitle file can be written: it
    stores the rendered cues under [outputs/<jobId>_subtitles.srt],
    replacing what was there, touches no other path and no record, and
    returns that path. *)
Lemma generateSrt_writes w translated jobId st :
  files st !! srt_path w jobId <> Some Dir ->
  io_fails w (srt_path w jobId) = false ->
  generateSrt w translated jobId st
  = (Ok (srt_path w jobId),
     State (jobs st) (<[srt_path w jobId := File (srt_content translated)]> (files st))
           (ticks st) (timers st) (journal st)).
Proof.
  intros Hdir Hio.
  unfold generateSrt, writeFileSync, bind, get_files, set_files, ret.
  fold (srt_path w jobId). rewrite Hio.
  destruct (files st !! srt_path w jobId) as [[c|]|]; try reflexivity.
  contradiction.
Qed.

(** C6. For the segments [{start:0.0,end:2.5,text:"A"},{start:2.5,end:5.0,text:"B"}]
    [generateSrt] writes to [outputs/<jobId>_subtitles.srt] the file made
    of cue 1 with [00:00:00,000 --> 00:00:02,500] and the line [A], a
    blank line, and cue 2 with [00:00:02,500 --> 00:00:05,000] and the
    line [B]; it returns the path of that file and changes no other path
    and no job record. *)
Theorem generateSrt_two_cues w jobId txt lang tr i1 i2 st :
  files st !! srt_path w jobId <> Some Dir ->
  io_fails w (srt_path w jobId) = false ->
  exists st',
    generateSrt w
      (mkTranscript txt (Some [Segment i1 0 (5 # 2) "A"; Segment i2 (5 # 2) 5 "B"]) lang tr)
      jobId st
    = (Ok (Js.path_join [dirname w; "outputs"; jobId ++ "_subtitles.srt"]), st')
    /\ files st'
       = <[Js.path_join [dirname w; "outputs"; jobId ++ "_subtitles.srt"] :=
             File ("1" ++ Js.nl ++ "00:00:00,000 --> 00:00:02,500" ++ Js.nl ++ "A" ++ Js.nl
                   ++ Js.nl
                   ++ "2" ++ Js.nl ++ "00:00:02,500 --> 00:00:05,000" ++ Js.nl ++ "B"
                   ++ Js.nl)]> (files st)
    /\ jobs st' = jobs st.
Proof.
  intros Hdir Hio. eexists. split; [apply generateSrt_writes; assumption|].
  simpl. rewrite srt_content_two_segments. split; reflexivity.
Qed.

Lemma generateSrt_two_cues_witness :
  files initial_state !! srt_path bare_host "j1" <> Some Dir
  /\ io_fails bare_host (srt_path bare_host "j1") = false
  /\ exists st',
       generateSrt bare_host
         (mkTranscript "A B" (Some [Segment None 0 (5 # 2) "A"; Segment None (5 # 2) 5 "B"])
            None (Some "A B"))
         "j1" initial_state
       = (Ok "/srv/synclab/outputs/j1_subtitles.srt", st')
       /\ files st' !! "/srv/synclab/outputs/j1_subtitles.srt"
          = Some (File ("1" ++ Js.nl ++ "00:00:00,000 --> 00:00:02,500" ++ Js.nl ++ "A"
                        ++ Js.nl ++ Js.nl
                        ++ "2" ++ Js.nl ++ "00:00:02,500 --> 00:00:05,000" ++ Js.nl ++ "B"
                        ++ Js.nl)).
Proof.
  split; [vm_compute; discriminate|]. split; [reflexivity|].
  destruct (generateSrt_two_cues bare_host "j1" "A B" None (Some "A B") None None
              initial_state) as (st' & E & F & _);
    [vm_compute; discriminate | reflexivity |].
  exists st'. split; [exact E|]. rewrite F. apply lookup_insert_eq.
Defined.

(** C10. Without a [segments] field [generateSrt] writes to
    [outputs/<jobId>_subtitles.srt] the single cue 1 from 00:00:00,000 to
    00:00:05,000 holding [translatedText], or an empty line when that is
    absent too; it returns the path of that file and changes no other path
    and no job record. *)
Theorem generateSrt_no_segments w jobId (translated : Transcript) st :
  segments translated = None ->
  files st !! srt_path w jobId <> Some Dir ->
  io_fails w (srt_path w jobId) = false ->
  exists st',
    generateSrt w translated jobId st
    = (Ok (Js.path_join [dirname w; "outputs"; jobId ++ "_subtitles.srt"]), st')
    /\ files st'
       = <[Js.path_join [dirname w; "outputs"; jobId ++ "_subtitles.srt"] :=
             File ("1" ++ Js.nl ++ "00:00:00,000 --> 00:00:05,000" ++ Js.nl
                   ++ match translatedText translated with
                      | Some t => t
                      | None => EmptyString
                      end ++ Js.nl)]> (files st)
    /\ jobs st' = jobs st.
Proof.
  intros Hseg Hdir Hio. eexists. split; [apply generateSrt_writes; assumption|].
  simpl. rewrite (srt_content_default_segment translated Hseg). split; reflexivity.
Qed.

Lemma generateSrt_no_segments_witness :
  segments (mkTranscript "hi" None None (Some "hola")) = None
  /\ files initial_state !! srt_path bare_host "j1" <> Some Dir
  /\ io_fails bare_host (srt_path bare_host "j1") = false
  /\ exists st',
       generateSrt bare_host (mkTranscript "hi" None None (Some "hola")) "j1" initial_state
       = (Ok "/srv/synclab/outputs/j1_subtitles.srt", st')
       /\ files st' !! "/srv/synclab/outputs/j1_subtitles.srt"
          = Some (File ("1" ++ Js.nl ++ "00:00:00,000 --> 00:00:05,000" ++ Js.nl
                        ++ "hola" ++ Js.nl)).
Proof.
  split; [reflexivity|]. split; [vm_compute; discriminate|]. split; [reflexivity|].
  destruct (generateSrt_no_segments bare_host "j1" (mkTranscript "hi" None None (Some "hola"))
              initial_state) as (st' & E & F & _);
    [reflexivity | vm_compute; discriminate | reflexivity |].
  exists st'. split; [exact E|]. rewrite F. apply lookup_insert_eq.
Defined.

(** ** Pipeline steps *)

Section Steps.

Variable w : world.

Lemma translateText_fallback tr fromLang toLang jobId st :
  Js.truthy (LIBRETRANSLATE_URL w) = false ->
  Js.truthy (DEEPL_API_KEY w) = false ->
  translateText w tr fromLang toLang jobId st =
    (Ok (with_translatedText tr
           (Some ("[Translated to " ++ toLang ++ "]: " ++ text tr))),
     after_update w jobId [set_progress 58]
       (after_update w jobId
          [set_stage (Some "pill-translate"); set_progress 48;
           set_message ("Translating " ++ fromLang ++ " → " ++ toLang ++ "...")] st)).
Proof.
  intros Hl Hd. unfold translateText, bind.
  rewrite updateJob_run.
  destruct (LIBRETRANSLATE_URL w) as [[|c u]|]; try discriminate Hl;
    destruct (DEEPL_API_KEY w) as [[|c' k]|]; try discriminate Hd;
    unfold ret; rewrite updateJob_run; reflexivity.
Qed.

(** C5. With neither a LibreTranslate URL nor a DeepL key in the
    environment, [translateText] returns the transcript it was given with
    [translatedText] set to ["[Translated to <toLang>]: <text>"]. *)
Theorem translateText_placeholder tr fromLang toLang jobId st :
  LIBRETRANSLATE_URL w = None ->
  DEEPL_API_KEY w = None ->
  exists r st',
    translateText w tr fromLang toLang jobId st = (Ok r, st')
    /\ translatedText r = Some ("[Translated to " ++ toLang ++ "]: " ++ text tr)
    /\ text r = text tr /\ segments r = segments tr /\ language r = language tr.
Proof.
  intros Hl Hd. do 2 eexists. split.
  - apply translateText_fallback; [rewrite Hl | rewrite Hd]; reflexivity.
  - repeat split.
Qed.

Lemma after_update_Some key updates st j :
  jobs st !! key = Some j ->
  after_update w key updates st =
    State (<[key := Object_assign j updates [set_updatedAt (clock w (ticks st))]]> (jobs st))
          (files st) (S (ticks st)) (timers st)
          ((key, Object_assign j updates [set_updatedAt (clock w (ticks st))])
             :: journal st).
Proof. intros H. unfold after_update. rewrite H. reflexivity. Qed.

Lemma after_update_None key updates st :
  jobs st !! key = None -> after_update w key updates st = st.
Proof. intros H. unfold after_update. rewrite H. reflexivity. Qed.

(** C8. When the encoder cannot be launched, [finalRender] resolves with
    the path it was given, writes no file, and leaves the job [done] at
    progress 100 with that same path as its only output, [video]. *)
Theorem finalRender_encoder_unavailable lipsyncPath jobId st j :
  jobs st !! jobId = Some j ->
  finalRender_proc w lipsyncPath
    (Js.path_join [dirname w; "outputs"; jobId ++ "_dubbed_final.mp4"]) = on_error ->
  exists st' j',
    finalRender w lipsyncPath jobId st = (Ok lipsyncPath, st')
    /\ jobs st' !! jobId = Some j'
    /\ status j' = done /\ progress j' = 100
    /\ stage j' = Some "complete"
    /\ outputs j' = {[ "video" := lipsyncPath ]}
    /\ files st' = files st.
Proof.
  intros Hj Hproc. unfold finalRender, bind. rewrite updateJob_run, Hproc.
  rewrite (after_update_Some _ _ _ _ Hj).
  rewrite updateJob_run.
  erewrite after_update_Some by (simpl; apply lookup_insert_eq).
  do 2 eexists. split; [reflexivity|].
  split; [simpl; apply lookup_insert_eq|].
  repeat split.
Qed.

(** C4. When the audio-extraction process closes with a code other than
    0, or cannot be launched, [runPipeline] makes three writes and stops:
    [running], the entry of the extract stage, and [error] with the
    message of the rejection.  The outputs are those the job had before,
    so none for a job that had none, and no later stage has run. *)
Theorem runPipeline_extract_failure jobId videoPath o st j ev :
  jobs st !! jobId = Some j ->
  outputs j = ∅ ->
  extractAudio_proc w videoPath (temp_path w (jobId ++ "_audio.wav")) = ev ->
  ev <> on_close (Some 0) ->
  exists st' j1 j2 j',
    runPipeline w jobId videoPath o st = (Ok tt, st')
    /\ jobs st' !! jobId = Some j'
    /\ status j' = error
    /\ message j' =
         match ev with
         | on_close code => "ffmpeg audio extraction failed (code " ++ Js.show_code code ++ ")"
         | on_error => "ffmpeg not found — please install ffmpeg"
         end
    /\ outputs j' = ∅
    /\ stage j' = Some "pill-extract" /\ progress j' = 8
    /\ journal st' = (jobId, j') :: (jobId, j2) :: (jobId, j1) :: journal st
    /\ status j1 = running /\ status j2 = running
    /\ files st' = files st /\ timers st' = timers st.
Proof.
  intros Hj Hout Hproc Hev.
  unfold runPipeline, bind. rewrite updateJob_run.
  rewrite (after_update_Some _ _ _ _ Hj).
  unfold try_catch, bind, extractAudio, bind. rewrite updateJob_run.
  erewrite after_update_Some by (simpl; apply lookup_insert_eq).
  rewrite Hproc.
  assert (Hthrow : forall A (k : M A) s,
             match ev with
             | on_close code =>
                 match code with
                 | Some 0 => k
                 | _ => throw ("ffmpeg audio extraction failed (code "
                                 ++ Js.show_code code ++ ")")
                 end
             | on_error => throw "ffmpeg not found — please install ffmpeg"
             end s =
             (Throw match ev with
                    | on_close code => "ffmpeg audio extraction failed (code "
                                         ++ Js.show_code code ++ ")"
                    | on_error => "ffmpeg not found — please install ffmpeg"
                    end, s)).
  { intros A k s. destruct ev as [[[| |]|]|]; try reflexivity. contradiction. }
  rewrite Hthrow. rewrite updateJob_run.
  erewrite after_update_Some by (simpl; apply lookup_insert_eq).
  do 4 eexists. split; [reflexivity|].
  split; [simpl; apply lookup_insert_eq|].
  repeat split. simpl. exact Hout.
Qed.

End Steps.

Lemma translateText_placeholder_witness :
  LIBRETRANSLATE_URL bare_host = None
  /\ DEEPL_API_KEY bare_host = None
  /\ exists r st',
       translateText bare_host (mkTranscript "Good morning" None (Some "en") None)
         "en" "es" "j1" initial_state = (Ok r, st')
       /\ translatedText r = Some "[Translated to es]: Good morning"
       /\ text r = "Good morning" /\ segments r = None /\ language r = Some "en".
Proof.
  split; [reflexivity|]. split; [reflexivity|].
  apply (translateText_placeholder bare_host
           (mkTranscript "Good morning" None (Some "en") None) "en" "es" "j1"
           initial_state); reflexivity.
Defined.

Lemma finalRender_encoder_unavailable_witness :
  jobs (submitted no_tools) !! "j1" = Some sample_job
  /\ finalRender_proc no_tools "/srv/synclab/temp/j1_lipsync.mp4"
       (Js.path_join [dirname no_tools; "outputs"; "j1" ++ "_dubbed_final.mp4"]) = on_error
  /\ exists st' j',
       finalRender no_tools "/srv/synclab/temp/j1_lipsync.mp4" "j1" (submitted no_tools)
         = (Ok "/srv/synclab/temp/j1_lipsync.mp4", st')
       /\ jobs st' !! "j1" = Some j'
       /\ status j' = done /\ progress j' = 100
       /\ stage j' = Some "complete"
       /\ outputs j' = {[ "video" := "/srv/synclab/temp/j1_lipsync.mp4" ]}
       /\ files st' = files (submitted no_tools).
Proof.
  split; [vm_compute; reflexivity|]. split; [reflexivity|].
  apply (finalRender_encoder_unavailable no_tools "/srv/synclab/temp/j1_lipsync.mp4"
           "j1" (submitted no_tools) sample_job);
    [vm_compute; reflexivity | reflexivity].
Defined.

Lemma runPipeline_extract_failure_witness :
  jobs (submitted no_tools) !! "j1" = Some sample_job
  /\ outputs sample_job = ∅
  /\ extractAudio_proc no_tools "/srv/synclab/uploads/1-a.mp4"
       (temp_path no_tools ("j1" ++ "_audio.wav")) = on_error
  /\ on_error <> on_close (Some 0)
  /\ exists st' j1 j2 j',
       runPipeline no_tools "j1" "/srv/synclab/uploads/1-a.mp4"
         (Options "en" "es" "clone" "balanced") (submitted no_tools) = (Ok tt, st')
       /\ jobs st' !! "j1" = Some j'
       /\ status j' = error
       /\ message j' = "ffmpeg not found — please install ffmpeg"
       /\ outputs j' = ∅
       /\ stage j' = Some "pill-extract" /\ progress j' = 8
       /\ journal st' = ("j1", j') :: ("j1", j2) :: ("j1", j1) :: journal (submitted no_tools)
       /\ status j1 = running /\ status j2 = running
       /\ files st' = files (submitted no_tools)
       /\ timers st' = timers (submitted no_tools).
Proof.
  split; [vm_compute; reflexivity|]. split; [reflexivity|].
  split; [reflexivity|]. split; [discriminate|].
  apply (runPipeline_extract_failure no_tools "j1" "/srv/synclab/uploads/1-a.mp4"
           (Options "en" "es" "clone" "balanced") (submitted no_tools) sample_job on_error);
    [vm_compute; reflexivity | reflexivity | reflexivity | discriminate].
Defined.

(** ** Deletion *)

Section Deletion.

Variable w : world.

Lemma same_store_refl st : same_store st st.
Proof. repeat split. Qed.

Lemma same_store_trans st1 st2 st3 :
  same_store st1 st2 -> same_store st2 st3 -> same_store st1 st3.
Proof.
  unfold same_store. intros (?&?&?&?) (?&?&?&?). repeat split; congruence.
Qed.

Lemma append_inv_head (d a b : string) : d ++ a = d ++ b -> a = b.
Proof.
  induction d as [|c d IH]; simpl; intros H; [exact H|].
  injection H as H. apply IH, H.
Qed.

Lemma temp_path_inj x y : temp_path w x = temp_path w y -> x = y.
Proof.
  unfold temp_path, Js.path_join, Js.join. intros H.
  apply append_inv_head in H. simpl in H. injection H as H. exact H.
Qed.

(** The frames directory is none of the three files. *)
Lemma frames_dir_not_file jobId : frames_dir w jobId ∉ temp_files w jobId.
Proof.
  unfold frames_dir, temp_files. rewrite !not_elem_of_cons.
  repeat split; try apply not_elem_of_nil;
    intros H; apply temp_path_inj, append_inv_head in H; discriminate H.
Qed.

(** One [try { if (fs.existsSync(p)) fs.unlinkSync(p); } catch {}]: it
    returns normally, changes nothing but files, and of those at most [p],
    which is gone afterwards unless the removal is refused or [p] is a
    directory. *)
Lemma unlink_block_effect p st :
  exists st',
    try_catch
      (let* present := existsSync p in
       if present then unlinkSync w p else ret tt)
      (fun _ => ret tt) st = (Ok tt, st')
    /\ same_store st st'
    /\ (forall q, files st' !! q = None \/ files st' !! q = files st !! q)
    /\ (forall q, q <> p -> files st' !! q = files st !! q)
    /\ (io_fails w p = false -> files st !! p <> Some Dir -> files st' !! p = None)
    /\ (files st !! p = None -> st' = st).
Proof.
  unfold try_catch, bind, existsSync, unlinkSync, bind, get_files, set_files, throw, ret.
  destruct (files st !! p) as [[c|]|] eqn:E; simpl; rewrite ?E;
    try destruct (io_fails w p) eqn:Eio; simpl;
    eexists; (split; [reflexivity|]); (split; [repeat split|]); simpl.
  all: split; [|split; [|split]].
  all: try (intros q; right; reflexivity).
  all: try (intros q _; reflexivity).
  all: try (intros H; first [discriminate H | reflexivity]).
  all: try (intros Hio Hdir; first [discriminate Hio | contradiction | exact E]).
  - intros q. destruct (decide (q = p)) as [->|Hne].
    + left. apply lookup_delete_eq.
    + right. apply lookup_delete_ne. congruence.
  - intros q Hne. apply lookup_delete_ne. congruence.
  - intros _ _. apply lookup_delete_eq.
Qed.

(** One [try { if (fs.existsSync(p)) fs.rmSync(p, { recursive: true }); } catch {}]:
    it returns normally, changes nothing but files, and of those only [p]
    and what lies below it, all of which is gone afterwards unless some
    removal is refused. *)
Lemma rm_block_effect p st :
  exists st',
    try_catch
      (let* present := existsSync p in
       if present then rmSync w p else ret tt)
      (fun _ => ret tt) st = (Ok tt, st')
    /\ same_store st st'
    /\ (forall q, files st' !! q = None \/ files st' !! q = files st !! q)
    /\ (forall q, within p q = false -> files st' !! q = files st !! q)
    /\ ((forall q, within p q = true -> io_fails w q = false) ->
        is_Some (files st !! p) ->
        forall q, within p q = true -> files st' !! q = None)
    /\ (files st !! p = None -> st' = st).
Proof.
  unfold try_catch, bind, existsSync, rmSync, bind, get_files, set_files, throw, ret.
  destruct (files st !! p) as [x|] eqn:E; simpl; rewrite ?E.
  - destruct (decide (map_Forall (fun q _ => within p q = true -> io_fails w q = false)
                        (files st))) as [Hall|Hsome]; simpl.
    + eexists. split; [reflexivity|]. split; [repeat split|]. simpl.
      split; [|split; [|split]].
      * intros q.
        destruct (filter (fun e => within p e.1 = false) (files st) !! q) as [y|] eqn:F;
          [right | left; reflexivity].
        apply map_lookup_filter_Some in F as [F _]. rewrite F. reflexivity.
      * intros q Hq. destruct (files st !! q) as [y|] eqn:F.
        -- apply map_lookup_filter_Some. split; [exact F | exact Hq].
        -- apply map_lookup_filter_None. left. exact F.
      * intros _ _ q Hq. apply map_lookup_filter_None. right.
        intros y _. simpl. rewrite Hq. discriminate.
      * intros H. discriminate H.
    + eexists. split; [reflexivity|]. split; [repeat split|].
      split; [|split; [|split]].
      * intros q. right. reflexivity.
      * intros q _. reflexivity.
      * intros Hfree _. exfalso. apply Hsome. intros q y _. apply Hfree.
      * intros H. discriminate H.
  - eexists. split; [reflexivity|]. split; [repeat split|].
    split; [|split; [|split]].
    + intros q. right. reflexivity.
    + intros q _. reflexivity.
    + intros _ [y Hy]. discriminate Hy.
    + intros _. reflexivity.
Qed.

(** [cleanupTemp] never throws, whatever files exist and whichever
    removals are refused, and it touches nothing but files: no path
    appears or changes; only the three temp files and what lies in or
    below the frames directory can go; each of the three files is gone
    afterwards unless its removal is refused or it is a directory; the
    frames directory is gone with all it holds unless a removal in it is
    refused; and with none of the four paths on disk nothing changes. *)
Lemma cleanupTemp_effect jobId st :
  exists st',
    cleanupTemp w jobId st = (Ok tt, st')
    /\ same_store st st'
    /\ (forall q, files st' !! q = None \/ files st' !! q = files st !! q)
    /\ (forall q, q ∉ temp_files w jobId -> within (frames_dir w jobId) q = false ->
          files st' !! q = files st !! q)
    /\ (forall p, p ∈ temp_files w jobId ->
          io_fails w p = false -> files st !! p <> Some Dir -> files st' !! p = None)
    /\ ((forall q, within (frames_dir w jobId) q = true -> io_fails w q = false) ->
        is_Some (files st !! frames_dir w jobId) ->
        forall q, within (frames_dir w jobId) q = true -> files st' !! q = None)
    /\ ((forall p, p ∈ temp_artifacts w jobId -> files st !! p = None) -> st' = st).
Proof.
  unfold cleanupTemp. fold (frames_dir w jobId).
  destruct (unlink_block_effect (temp_path w (jobId ++ "_audio.wav")) st)
    as (s1 & E1 & S1 & A1 & K1 & R1 & Z1).
  destruct (unlink_block_effect (temp_path w (jobId ++ "_dubbed.wav")) s1)
    as (s2 & E2 & S2 & A2 & K2 & R2 & Z2).
  destruct (unlink_block_effect (temp_path w (jobId ++ "_lipsync.mp4")) s2)
    as (s3 & E3 & S3 & A3 & K3 & R3 & Z3).
  destruct (rm_block_effect (frames_dir w jobId) s3)
    as (s4 & E4 & S4 & A4 & K4 & R4 & Z4).
  exists s4. split.
  { unfold bind at 1. rewrite E1. unfold bind at 1. rewrite E2.
    unfold bind at 1. rewrite E3. exact E4. }
  split; [eauto using same_store_trans|].
  assert (B2 : forall q, files s2 !! q = None \/ files s2 !! q = files st !! q).
  { intros q. destruct (A2 q) as [H|H]; [auto|]. rewrite H. apply A1. }
  assert (B3 : forall q, files s3 !! q = None \/ files s3 !! q = files st !! q).
  { intros q. destruct (A3 q) as [H|H]; [auto|]. rewrite H. apply B2. }
  assert (B4 : forall q, files s4 !! q = None \/ files s4 !! q = files st !! q).
  { intros q. destruct (A4 q) as [H|H]; [auto|]. rewrite H. apply B3. }
  assert (N2 : forall q, files s1 !! q = None -> files s2 !! q = None).
  { intros q H. destruct (A2 q) as [H'|H']; congruence. }
  assert (N3 : forall q, files s2 !! q = None -> files s3 !! q = None).
  { intros q H. destruct (A3 q) as [H'|H']; congruence. }
  assert (N4 : forall q, files s3 !! q = None -> files s4 !! q = None).
  { intros q H. destruct (A4 q) as [H'|H']; congruence. }
  split; [exact B4|]. split; [|split; [|split]].
  - intros q Hq Hout. unfold temp_files in Hq. rewrite !not_elem_of_cons in Hq.
    destruct Hq as (P1 & P2 & P3 & _).
    rewrite (K4 q Hout), (K3 q P3), (K2 q P2), (K1 q P1). reflexivity.
  - intros p Hp Hio Hkind. unfold temp_files in Hp. rewrite !elem_of_cons in Hp.
    destruct Hp as [-> | [-> | [-> | Hp]]]; [| | |inversion Hp].
    + apply N4, N3, N2, R1; assumption.
    + apply N4, N3, R2; [exact Hio|].
      destruct (A1 (temp_path w (jobId ++ "_dubbed.wav"))) as [H|H]; rewrite H;
        [discriminate | exact Hkind].
    + apply N4, R3; [exact Hio|].
      destruct (B2 (temp_path w (jobId ++ "_lipsync.mp4"))) as [H|H]; rewrite H;
        [discriminate | exact Hkind].
  - intros Hfree Hdir. apply R4; [exact Hfree|].
    pose proof (frames_dir_not_file jobId) as Hnf.
    unfold temp_files in Hnf. rewrite !not_elem_of_cons in Hnf.
    destruct Hnf as (P1 & P2 & P3 & _).
    rewrite (K3 _ P3), (K2 _ P2), (K1 _ P1). exact Hdir.
  - intros Habsent.
    assert (H1 : s1 = st).
    { apply Z1, Habsent. unfold temp_artifacts. rewrite !elem_of_cons. auto. }
    subst s1.
    assert (H2 : s2 = st).
    { apply Z2, Habsent. unfold temp_artifacts. rewrite !elem_of_cons. auto. }
    subst s2.
    assert (H3 : s3 = st).
    { apply Z3, Habsent. unfold temp_artifacts. rewrite !elem_of_cons. auto. }
    subst s3.
    apply Z4, Habsent. unfold temp_artifacts, frames_dir. rewrite !elem_of_cons. auto.
Qed.

Lemma cleanupTemp_ok jobId st :
  exists st', cleanupTemp w jobId st = (Ok tt, st') /\ same_store st st'.
Proof.
  destruct (cleanupTemp_effect jobId st) as (st' & E & S & _). eauto.
Qed.

(** The program keeps every record under its own id: [createJob] stores it
    so, and no object literal given to [updateJob] names [id]. *)
Lemma createJob_keyed key m st :
  keyed_by_id st -> keyed_by_id (snd (createJob w key m st)).
Proof.
  intros Hwf k j H. unfold createJob, bind, Date_now, jobs_set, ret in H. simpl in H.
  apply lookup_insert_Some in H as [[<- <-]|[_ H]]; [reflexivity|].
  apply (Hwf _ _ H).
Qed.

Lemma updateJob_keyed key updates st :
  named f_id updates = None ->
  keyed_by_id st -> keyed_by_id (snd (updateJob w key updates st)).
Proof.
  intros Hid Hwf k j' H. rewrite updateJob_run in H. simpl in H.
  unfold after_update in H. destruct (jobs st !! key) as [j|] eqn:Hj;
    [|apply (Hwf _ _ H)].
  simpl in H. apply lookup_insert_Some in H as [[<- <-]|[_ H]];
    [|apply (Hwf _ _ H)].
  pose proof (get_Object_assign j updates (clock w (ticks st)) f_id) as G.
  rewrite Hid in G. simpl in G. injection G as ->. apply (Hwf _ _ Hj).
Qed.

Lemma list_jobs_ids st key :
  keyed_by_id st ->
  Forall (fun s => s_id s <> key) (list_jobs
    (State (delete key (jobs st)) (files st) (ticks st) (timers st) (journal st))).2.
Proof.
  intros Hwf. unfold list_jobs. simpl.
  apply Forall_forall. intros s Hs.
  apply list_elem_of_fmap in Hs as (j & -> & Hj).
  apply list_elem_of_fmap in Hj as ([k j'] & -> & Hk).
  apply elem_of_map_to_list in Hk. simpl.
  apply lookup_delete_Some in Hk as [Hne Hk].
  rewrite (Hwf _ _ Hk). congruence.
Qed.

(** C9. [DELETE /api/dub/:jobId] on an unknown id answers 404 and leaves
    the state, hence the number of jobs and every file, as it was.  On a
    known id it answers 200; the record is gone from the Map, the listing
    loses exactly that job's summary and holds no summary with that id any
    more; and the files are those [cleanupTemp] leaves: each of the three
    temp files of the job is gone unless its removal is refused or it is a
    directory, the frames directory is gone with all it holds unless a
    removal in it is refused, and every other path is as it was.  The
    clean-up itself returns normally from every state, whichever files
    exist and whichever removals are refused, and changes nothing when
    none of the four artifacts is on disk. *)
Theorem delete_dub_spec jobId st :
  keyed_by_id st ->
  match jobs st !! jobId with
  | None =>
      exists st',
        delete_dub w jobId st = (Ok (Response 404 [("error", "Job not found")]), st')
        /\ st' = st /\ size (jobs st') = size (jobs st)
  | Some j =>
      exists st' s1,
        delete_dub w jobId st = (Ok (Response 200 [("message", "Job deleted")]), st')
        /\ jobs st' = delete jobId (jobs st)
        /\ summarize j :: (list_jobs st').2 ≡ₚ (list_jobs st).2
        /\ Forall (fun s => s_id s <> jobId) (list_jobs st').2
        /\ S (list_jobs st').1 = (list_jobs st).1
        /\ cleanupTemp w jobId st = (Ok tt, s1)
        /\ files st' = files s1
        /\ (forall p, p ∈ temp_files w jobId ->
              io_fails w p = false -> files st !! p <> Some Dir -> files st' !! p = None)
        /\ ((forall q, within (frames_dir w jobId) q = true -> io_fails w q = false) ->
            is_Some (files st !! frames_dir w jobId) ->
            forall q, within (frames_dir w jobId) q = true -> files st' !! q = None)
        /\ (forall q, q ∉ temp_files w jobId -> within (frames_dir w jobId) q = false ->
              files st' !! q = files st !! q)
  end
  /\ forall st0,
       exists st1,
         cleanupTemp w jobId st0 = (Ok tt, st1)
         /\ files st1 ⊆ files st0
         /\ ((forall p, p ∈ temp_artifacts w jobId -> files st0 !! p = None) -> st1 = st0).
Proof.
  intros Hwf. split.
  - unfold delete_dub, bind, jobs_get.
    destruct (jobs st !! jobId) as [j|] eqn:Hj.
    + destruct (cleanupTemp_effect jobId st)
        as (s1 & E1 & (Hj1 & Ht1 & Htm1 & Hjn1) & _ & Hother & Hfiles & Hdir & _).
      rewrite E1. unfold jobs_delete, ret. eexists _, s1. split; [reflexivity|].
      assert (Hperm : summarize j :: (summarize <$> (map_to_list (delete jobId (jobs st))).*2)
                      ≡ₚ summarize <$> (map_to_list (jobs st)).*2).
      { rewrite <- (map_to_list_delete (jobs st) jobId j Hj). reflexivity. }
      simpl. rewrite Hj1. split; [reflexivity|]. split; [exact Hperm|]. split.
      * pose proof (list_jobs_ids st jobId Hwf) as H. exact H.
      * split; [unfold list_jobs; simpl; rewrite <- Hperm; reflexivity|].
        split; [reflexivity|]. split; [reflexivity|].
        split; [exact Hfiles|]. split; [exact Hdir | exact Hother].
    + eexists. split; [reflexivity|]. split; reflexivity.
  - intros st0.
    destruct (cleanupTemp_effect jobId st0) as (s1 & E1 & _ & Hsub & _ & _ & _ & Hid).
    exists s1. split; [exact E1|]. split; [|exact Hid].
    apply map_subseteq_spec. intros p x Hp.
    destruct (Hsub p) as [H|H]; rewrite H in Hp; [discriminate Hp | exact Hp].
Qed.

End Deletion.

(** Deleting [j1] from a store with its artifacts on disk: the audio, the
    merged video and the frames directory with its frame are gone, the two
    deliverables under [outputs] stay, and no job is listed any more. *)
Lemma delete_dub_spec_witness :
  keyed_by_id with_artifacts
  /\ exists st',
       delete_dub bare_host "j1" with_artifacts
         = (Ok (Response 200 [("message", "Job deleted")]), st')
       /\ jobs st' = delete "j1" (jobs with_artifacts)
       /\ (list_jobs st').2 = []
       /\ files st' !! "/srv/synclab/temp/j1_audio.wav" = None
       /\ files st' !! "/srv/synclab/temp/j1_lipsync.mp4" = None
       /\ files st' !! "/srv/synclab/temp/j1_frames" = None
       /\ files st' !! "/srv/synclab/temp/j1_frames/frame_00001.jpg" = None
       /\ files st' !! "/srv/synclab/outputs/j1_dubbed_final.mp4" = Some (File "ftyp")
       /\ files st' !! "/srv/synclab/outputs/j1_subtitles.srt" = Some (File "1").
Proof.
  assert (Hwf : keyed_by_id with_artifacts).
  { intros key j H.
    change (jobs with_artifacts) with (<["j1" := sample_job]> (∅ : gmap string job)) in H.
    apply lookup_insert_Some in H as [[<- <-]|[_ H]]; [reflexivity|].
    rewrite lookup_empty in H. discriminate H. }
  split; [exact Hwf|].
  pose proof (delete_dub_spec bare_host "j1" with_artifacts Hwf) as [H _].
  change (jobs with_artifacts !! "j1") with
    (<["j1" := sample_job]> (∅ : gmap string job) !! "j1") in H.
  rewrite lookup_insert_eq in H.
  destruct H as (st' & s1 & E & Hjobs & Hperm & _ & _ & _ & _ & Hfiles & Hdir & Hother).
  exists st'. split; [exact E|]. split; [exact Hjobs|].
  split.
  { apply Permutation_length in Hperm.
    destruct (list_jobs st').2 as [|s l]; [reflexivity|].
    vm_compute in Hperm. discriminate Hperm. }
  split.
  { apply Hfiles; [|reflexivity|vm_compute; discriminate].
    unfold temp_files. rewrite !elem_of_cons. left. reflexivity. }
  split.
  { apply Hfiles; [|reflexivity|vm_compute; discriminate].
    unfold temp_files. rewrite !elem_of_cons. right. right. left. reflexivity. }
  split.
  { apply Hdir; [intros q _; reflexivity | vm_compute; eauto | reflexivity]. }
  split.
  { apply Hdir; [intros q _; reflexivity | vm_compute; eauto | reflexivity]. }
  split.
  { rewrite Hother; [vm_compute; reflexivity | | reflexivity].
    unfold temp_files. rewrite !not_elem_of_cons.
    split; [|split; [|split]]; try apply not_elem_of_nil;
      intros H; vm_compute in H; discriminate H. }
  rewrite Hother; [vm_compute; reflexivity | | reflexivity].
  unfold temp_files. rewrite !not_elem_of_cons.
  split; [|split; [|split]]; try apply not_elem_of_nil;
    intros H; vm_compute in H; discriminate H.
Defined.

(** ** Every run, write by write *)

Lemma updateJob_Some w key updates st j :
  jobs st !! key = Some j ->
  updateJob w key updates st =
    (Ok tt,
     State (<[key := Object_assign j updates [set_updatedAt (clock w (ticks st))]]> (jobs st))
           (files st) (S (ticks st)) (timers st)
           ((key, Object_assign j updates [set_updatedAt (clock w (ticks st))])
              :: journal st)).
Proof. intros H. rewrite updateJob_run, (after_update_Some _ _ _ _ _ H). reflexivity. Qed.

Lemma wrote_trans jobId jn1 j1 jn2 j2 jn3 j3 :
  wrote jobId jn1 j1 jn2 j2 -> wrote jobId jn2 j2 jn3 j3 -> wrote jobId jn1 j1 jn3 j3.
Proof.
  intros H12 H23. induction H23 as [|jn' j' j'' _ IH Ha Hc]; [exact H12|].
  apply wrote_step with j'; assumption.
Qed.

Lemma last_nonempty (js : list job) : forall x d d',
  List.last (x :: js) d = List.last (x :: js) d'.
Proof.
  induction js as [|y js IH]; intros x d d'; [reflexivity|].
  change (List.last (y :: js) d = List.last (y :: js) d'). apply IH.
Qed.

Lemma wrote_chain jobId jn j jn' j' :
  wrote jobId jn j jn' j' ->
  exists js,
    jn' = (((fun x => (jobId, x)) <$> rev js) ++ jn)%list
    /\ chain j js /\ Forall consistent js /\ j' = List.last js j.
Proof.
  induction 1 as [|jn' j' j'' _ IH Ha Hc].
  - exists []. repeat split. constructor.
  - destruct IH as (js & -> & Hch & Hall & ->).
    exists (js ++ [j''])%list. repeat split.
    + rewrite rev_app_distr. reflexivity.
    + clear Hall Hc. revert j Hch Ha.
      induction js as [|a js IH]; intros j Hch Ha; simpl in *.
      * split; [exact Ha | exact I].
      * destruct Hch as [H1 H2]. split; [exact H1|].
        apply IH; [exact H2|].
        destruct js as [|b js]; [exact Ha|].
        rewrite (last_nonempty js b a j). exact Ha.
    + apply Forall_app. split; [exact Hall|].
      constructor; [exact Hc | constructor].
    + rewrite last_last. reflexivity.
Qed.

(** Symbolic execution of a step on a state in which the job is known.
    Messages, stage names and process events play no part in what is
    proved of a trace, so they are first replaced by variables. *)
Ltac innermost x :=
  lazymatch x with
  | context [match ?y with _ => _ end] => innermost y
  | _ => x
  end.

Ltac forget_in H t :=
  tryif is_var t then fail
  else (let x := fresh "x" in set (x := t) in H; clearbody x).

Ltac shrink H :=
  cbv zeta in H;
  repeat match type of H with
         | context [set_message ?m] => forget_in H m
         | context [set_stage ?m] => forget_in H m
         | context [spawn ?w0 ?c ?a ?d] => forget_in H (spawn w0 c a d)
         | context [@throw ?A ?m] => forget_in H m
         | context [@Throw ?A ?m] => forget_in H m
         | context [@Ok string ?m] => forget_in H m
         | context [@ret string ?m] => forget_in H m
         end.

Ltac known_job := simpl; first [eassumption | apply lookup_insert_eq].

Ltac step_update H :=
  match type of H with
  | context [updateJob ?w0 ?k ?us ?s] =>
      lazymatch s with
      | State (<[k := ?j]> ?m) _ _ _ _ =>
          rewrite (updateJob_Some w0 k us s j (lookup_insert_eq m k j)) in H
      | State ?m _ _ _ _ =>
          match goal with
          | Hj : m !! k = Some ?j |- _ =>
              rewrite (updateJob_Some w0 k us s j Hj) in H
          end
      | _ =>
          match goal with
          | Hj : jobs s !! k = Some ?j |- _ =>
              rewrite (updateJob_Some w0 k us s j Hj) in H
          end
      end
  end.

Ltac exec H :=
  repeat first
    [ progress cbv beta iota zeta in H
    | progress cbn [jobs files ticks timers journal] in H
    | step_update H
    | match type of H with
      | context [match ?x with _ => _ end] =>
          let y := innermost x in destruct y eqn:?
      end ].

Ltac side_conditions :=
  unfold allowed, consistent, phase, terminal, status_step in *; simpl;
  repeat match goal with
         | H : _ /\ _ |- _ => destruct H
         | H : status _ = _ |- _ => rewrite H in *
         end;
  repeat split; intros; try discriminate; try tauto; try lia.

Ltac wrote_all :=
  simpl; repeat (eapply wrote_step); [apply wrote_nil | side_conditions ..].

Ltac finish H :=
  apply pair_equal_spec in H; destruct H as [<- <-];
  eexists; split; [known_job | split; [wrote_all | side_conditions]].

Section Trace.

Variable w : world.
Variable jobId : string.

Lemma obeys_bind {A B} (P : job -> Prop) Q1 Q (m : M A) (k : A -> M B) :
  obeys jobId P m Q1 ->
  (forall a, obeys jobId (Q1 (Ok a)) (k a) Q) ->
  (forall msg j, Q1 (Throw msg) j -> Q (Throw msg) j) ->
  obeys jobId P (bind m k) Q.
Proof.
  intros Hm Hk Hthrow st j r st' Hj HP H. unfold bind in H.
  destruct (m st) as [[a|msg] s1] eqn:E.
  - destruct (Hm _ _ _ _ Hj HP E) as (j1 & Hj1 & Hw1 & HQ1).
    destruct (Hk a _ _ _ _ Hj1 HQ1 H) as (j2 & Hj2 & Hw2 & HQ2).
    exists j2. eauto using wrote_trans.
  - destruct (Hm _ _ _ _ Hj HP E) as (j1 & Hj1 & Hw1 & HQ1).
    inversion H; subst. exists j1. auto.
Qed.

Lemma obeys_try {A} (P : job -> Prop) Q1 Q (m : M A) (h : string -> M A) :
  obeys jobId P m Q1 ->
  (forall a j, Q1 (Ok a) j -> Q (Ok a) j) ->
  (forall msg, obeys jobId (Q1 (Throw msg)) (h msg) Q) ->
  obeys jobId P (try_catch m h) Q.
Proof.
  intros Hm Hok Hh st j r st' Hj HP H. unfold try_catch in H.
  destruct (m st) as [[a|msg] s1] eqn:E.
  - destruct (Hm _ _ _ _ Hj HP E) as (j1 & Hj1 & Hw1 & HQ1).
    inversion H; subst. exists j1. auto.
  - destruct (Hm _ _ _ _ Hj HP E) as (j1 & Hj1 & Hw1 & HQ1).
    destruct (Hh msg _ _ _ _ Hj1 HQ1 H) as (j2 & Hj2 & Hw2 & HQ2).
    exists j2. eauto using wrote_trans.
Qed.

Lemma obeys_weaken {A} (P P' : job -> Prop) (m : M A) Q :
  (forall j, P' j -> P j) -> obeys jobId P m Q -> obeys jobId P' m Q.
Proof. intros HP Hm st j r st' Hj HP' H. eapply Hm; eauto. Qed.

Lemma extractAudio_obeys videoPath :
  obeys jobId (phase 8) (extractAudio w videoPath jobId) (fun _ => phase 15).
Proof.
  intros st j r st' Hj HP H.
  unfold extractAudio, bind, ret, throw in H.
  shrink H; exec H; finish H.
Qed.

Lemma extractFrames_obeys videoPath :
  obeys jobId (phase 15)
    (try_catch (let* d := extractFrames w videoPath jobId in ret (Some d))
               (fun _ => ret None))
    (fun _ => phase 18).
Proof.
  intros st j r st' Hj HP H.
  unfold try_catch, extractFrames, bind, existsSync, mkdirSync, bind,
    get_files, set_files, ret, throw in H.
  shrink H; exec H; finish H.
Qed.

Lemma transcribeAudio_obeys audioPath langCode :
  obeys jobId (phase 18) (transcribeAudio w audioPath langCode jobId)
    (fun _ => phase 40).
Proof.
  intros st j r st' Hj HP H.
  unfold transcribeAudio, bind, ret, throw in H.
  shrink H; exec H; finish H.
Qed.

Lemma translateText_obeys tr fromLang toLang :
  obeys jobId (phase 40) (translateText w tr fromLang toLang jobId)
    (fun _ => phase 58).
Proof.
  intros st j r st' Hj HP H.
  unfold translateText, try_catch, bind, ret, throw in H.
  shrink H; exec H; finish H.
Qed.

Lemma synthesizeVoice_obeys tr referenceAudioPath toLang voiceMode :
  obeys jobId (phase 58)
    (synthesizeVoice w tr referenceAudioPath toLang voiceMode jobId)
    (fun _ => phase 75).
Proof.
  intros st j r st' Hj HP H.
  unfold synthesizeVoice, try_catch, bind, writeFileSync, bind,
    get_files, set_files, ret, throw in H.
  shrink H; exec H; finish H.
Qed.

Lemma runLipSync_obeys videoPath dubbedAudioPath quality :
  obeys jobId (phase 75) (runLipSync w videoPath dubbedAudioPath quality jobId)
    (fun _ => phase 90).
Proof.
  intros st j r st' Hj HP H.
  unfold runLipSync, mergeAudioOnly, bind, existsSync, ret, throw in H.
  shrink H; exec H; finish H.
Qed.

Lemma finalRender_obeys lipsyncPath :
  obeys jobId (phase 90) (finalRender w lipsyncPath jobId)
    (fun r j => match r with
                | Ok _ => status j = done /\ progress j = 100
                | Throw _ => phase 94 j
                end).
Proof.
  intros st j r st' Hj HP H.
  unfold finalRender, bind, ret, throw in H.
  shrink H; exec H; finish H.
Qed.

Lemma generateSrt_obeys (P : job -> Prop) tr :
  obeys jobId P (generateSrt w tr jobId) (fun _ => P).
Proof.
  intros st j r st' Hj HP H.
  unfold generateSrt, writeFileSync, bind, get_files, set_files, ret, throw in H.
  exec H; apply pair_equal_spec in H; destruct H as [<- <-];
    (exists j; split; [exact Hj | split; [apply wrote_nil | exact HP]]).
Qed.

Lemma setTimeout_obeys (P : job -> Prop) delay :
  obeys jobId P (setTimeout jobId delay) (fun r j => r = Ok tt /\ P j).
Proof.
  intros st j r st' Hj HP H. unfold setTimeout in H.
  apply pair_equal_spec in H; destruct H as [<- <-].
  exists j. split; [exact Hj | split; [apply wrote_nil | split; [reflexivity | exact HP]]].
Qed.

Lemma start_obeys :
  obeys jobId (fun j => status j = queued /\ progress j <= 8)
    (updateJob w jobId [set_status running])
    (fun r j => r = Ok tt /\ phase 8 j).
Proof. intros st j r st' Hj HP H. exec H; finish H. Qed.

Lemma succeed_obeys msg out :
  obeys jobId (fun j => status j = done /\ progress j = 100)
    (updateJob w jobId [set_status done; set_progress 100; set_message msg; set_outputs out])
    (fun r j => r = Ok tt /\ status j = done /\ progress j = 100).
Proof. intros st j r st' Hj HP H. exec H; finish H. Qed.

Lemma fail_obeys msg :
  obeys jobId (fun j => phase 94 j \/ (status j = done /\ progress j = 100))
    (updateJob w jobId [set_status error; set_message msg])
    (fun r j => r = Ok tt /\ terminal j).
Proof.
  intros st j r st' Hj [HP|HP] H; exec H; finish H.
Qed.

Ltac rejected :=
  let Hs := fresh in let Hp := fresh in
  intros ? ? [Hs Hp]; left; split; [exact Hs | lia].

(** From a queued job to its last write: [runPipeline] returns normally,
    every write it makes is [allowed] after the one before and
    [consistent], and the job ends [done] or [error]. *)
Lemma runPipeline_obeys videoPath o :
  obeys jobId (fun j => status j = queued /\ progress j <= 8)
    (runPipeline w jobId videoPath o)
    (fun r j => r = Ok tt /\ terminal j).
Proof.
  unfold runPipeline.
  eapply obeys_bind; [apply start_obeys | intros [] | intros msg j [E _]; discriminate E].
  eapply obeys_try with
    (Q1 := fun r j => match r with
                      | Ok _ => r = Ok tt /\ status j = done /\ progress j = 100
                      | Throw _ => phase 94 j \/ (status j = done /\ progress j = 100)
                      end).
  - eapply obeys_weaken with (P := phase 8); [intros j [_ HP]; exact HP|].
    eapply obeys_bind; [apply extractAudio_obeys | intros audioPath | rejected].
    eapply obeys_bind; [apply extractFrames_obeys | intros framesDir | rejected].
    eapply obeys_bind; [apply transcribeAudio_obeys | intros transcript | rejected].
    eapply obeys_bind; [apply translateText_obeys | intros translated | rejected].
    eapply obeys_bind; [apply synthesizeVoice_obeys | intros dubbedAudio | rejected].
    eapply obeys_bind; [apply runLipSync_obeys | intros lipsyncPath | rejected].
    eapply obeys_bind; [apply finalRender_obeys | intros finalPath | rejected].
    eapply obeys_bind;
      [apply (generateSrt_obeys (fun j => status j = done /\ progress j = 100))
      | intros srtPath | intros msg j HP; right; exact HP].
    eapply obeys_bind; [apply succeed_obeys | intros [] | intros msg j [E _]; discriminate E].
    intros st j r st' Hj [_ HP] H.
    destruct (setTimeout_obeys (fun j => status j = done /\ progress j = 100)
                _ st j r st' Hj HP H) as (j' & Hj' & Hw & -> & HQ).
    exists j'. split; [exact Hj'|]. split; [exact Hw|].
    split; [reflexivity | exact HQ].
  - intros [] j (_ & Hs & Hp). split; [reflexivity | left; exact Hs].
  - intros msg. apply fail_obeys.
Qed.

End Trace.

(** ** From submission to the last write *)

(** When the lip-sync inference and the audio merge are launched, then
    whatever else the tools, providers and files do, a run started on a
    queued job returns normally and leaves the job [done] or [error]; its
    writes, oldest first, are each [allowed] after the one before and
    [consistent].  (When one of the two cannot be launched, the handlers of
    the [close] event that follows [error] write 86 and 90 once more, at a
    moment of their own; see [proc_event].) *)
Theorem runPipeline_trace w jobId videoPath o st j :
  lipsync_launches w ->
  merge_launches w ->
  jobs st !! jobId = Some j ->
  status j = queued ->
  progress j <= 8 ->
  exists st' js,
    runPipeline w jobId videoPath o st = (Ok tt, st')
    /\ journal st' = (((fun x => (jobId, x)) <$> rev js) ++ journal st)%list
    /\ chain j js
    /\ Forall consistent js
    /\ jobs st' !! jobId = Some (List.last js j)
    /\ terminal (List.last js j).
Proof.
  intros _ _ Hj Hs Hp.
  destruct (runPipeline w jobId videoPath o st) as [r st'] eqn:E.
  destruct (runPipeline_obeys w jobId videoPath o st j r st' Hj (conj Hs Hp) E)
    as (j' & Hj' & Hw & -> & Ht).
  destruct (wrote_chain _ _ _ _ _ Hw) as (js & Hjn & Hch & Hall & ->).
  exists st', js. split; [reflexivity|]. split; [exact Hjn|]. split; [exact Hch|].
  split; [exact Hall|]. split; [exact Hj' | exact Ht].
Qed.

(** The same from the upload on: [POST /api/dub] with a file answers 200,
    stores a queued record at progress 0 without outputs, and the writes
    that follow obey [runPipeline_trace]. *)
Lemma post_dub_obeys w file body jobId st :
  lipsync_launches w ->
  merge_launches w ->
  exists st' j0 js,
    post_dub w (Some file) body jobId st
      = (Ok (Response 200 [("job_id", jobId); ("status", "queued");
                           ("message", "Job queued successfully")]), st')
    /\ journal st' = (((fun x => (jobId, x)) <$> rev (j0 :: js)) ++ journal st)%list
    /\ status j0 = queued /\ progress j0 = 0 /\ outputs j0 = ∅
    /\ chain j0 js
    /\ Forall consistent js
    /\ jobs st' !! jobId = Some (List.last js j0)
    /\ terminal (List.last js j0).
Proof.
  intros Hlip Hmerge. unfold post_dub. unfold bind at 1.
  destruct (createJob w jobId
              (Meta (file_path file) (default "en" (lang_from body))
                    (default "es" (lang_to body)) (default "clone" (voice_mode body))
                    (default "balanced" (body_quality body))
                    (parseFloat w (default "0.85" (sync_confidence body)))
                    (originalname file)) st) as [r s1] eqn:E.
  unfold createJob, bind, Date_now, jobs_set, ret in E. simpl in E.
  apply pair_equal_spec in E. destruct E as [<- <-].
  match goal with
  | |- context [State (<[jobId := ?j]> _) _ _ _ _] => set (j0 := j)
  end.
  match goal with
  | |- context [runPipeline w jobId ?v ?o] =>
      destruct (runPipeline_trace w jobId v o
                  (State (<[jobId := j0]> (jobs st)) (files st) (S (S (ticks st)))
                         (timers st) ((jobId, j0) :: journal st)) j0)
        as (st' & js & E & Hjn & Hch & Hall & Hj' & Ht)
  end; [exact Hlip | exact Hmerge | apply lookup_insert_eq | reflexivity | simpl; lia |].
  exists st', j0, js. unfold bind. rewrite E. split; [reflexivity|].
  split.
  { rewrite Hjn. simpl. rewrite fmap_app, <- app_assoc. reflexivity. }
  repeat split; assumption.
Qed.

Lemma runPipeline_trace_witness :
  lipsync_launches bare_host
  /\ merge_launches bare_host
  /\ jobs (submitted bare_host) !! "j1" = Some sample_job
  /\ status sample_job = queued
  /\ progress sample_job <= 8
  /\ exists st' js,
       runPipeline bare_host "j1" "/srv/synclab/uploads/1-a.mp4"
         (Options "en" "es" "clone" "balanced") (submitted bare_host) = (Ok tt, st')
       /\ journal st' = (((fun x => ("j1", x)) <$> rev js) ++ journal (submitted bare_host))%list
       /\ chain sample_job js
       /\ Forall consistent js
       /\ jobs st' !! "j1" = Some (List.last js sample_job)
       /\ terminal (List.last js sample_job).
Proof.
  split; [intros args cwd; discriminate|]. split; [intros v a o; discriminate|].
  split; [vm_compute; reflexivity|]. split; [reflexivity|]. split; [vm_compute; discriminate|].
  apply (runPipeline_trace bare_host "j1" "/srv/synclab/uploads/1-a.mp4"
           (Options "en" "es" "clone" "balanced") (submitted bare_host) sample_job);
    [intros args cwd; discriminate | intros v a o; discriminate
    | vm_compute; reflexivity | reflexivity | vm_compute; discriminate].
Defined.

(** C1. On a host without the lip-sync model where every tool succeeds,
    the progress values written for a job, from [createJob] on, go from 88
    back to 86: [runLipSync] writes 88 and then calls [mergeAudioOnly],
    which writes 86. *)
Theorem progress_goes_back_without_model :
  let st := snd (post_dub bare_host (Some sample_upload) no_fields "j1" initial_state) in
  progress <$> writes "j1" st
    = [0; 0; 8; 15; 18; 28; 48; 58; 65; 75; 82; 88; 86; 90; 94; 100; 100]
  /\ nondecreasing (progress <$> writes "j1" st) = false
  /\ status <$> jobs st !! "j1" = Some done.
Proof. vm_compute. repeat split. Qed.

(** C2. On a host where everything succeeds except the writing of the
    subtitle file, [finalRender] has marked the job [done] at 100 before
    [generateSrt] throws, and the handler of [runPipeline] then sets
    [error] without touching progress: the job ends with progress 100 and
    status [error]. *)
Theorem progress_100_with_status_error :
  let st := snd (post_dub srt_unwritable (Some sample_upload) no_fields "j1" with_model) in
  (fun j => (status j, progress j)) <$> jobs st !! "j1" = Some (error, 100)
  /\ (fun j => (status j, progress j)) <$> writes "j1" st
     = [(queued, 0); (running, 0); (running, 8); (running, 15); (running, 18);
        (running, 28); (running, 48); (running, 58); (running, 65); (running, 75);
        (running, 82); (running, 90); (running, 94); (done, 100); (error, 100)].
Proof. vm_compute. repeat split. Qed.

(** C3. On the same host the status written after [done] is [error]: the
    job leaves a terminal status, and its outputs keep the video that
    [finalRender] recorded. *)
Theorem status_done_then_error :
  let st := snd (post_dub srt_unwritable (Some sample_upload) no_fields "j1" with_model) in
  (fun j => (status j, stage j)) <$> drop 12 (writes "j1" st)
    = [(running, Some "pill-render"); (done, Some "complete"); (error, Some "complete")]
  /\ message <$> jobs st !! "j1"
     = Some "EACCES: permission denied, open '/srv/synclab/outputs/j1_subtitles.srt'"
  /\ map_to_list <$> (outputs <$> jobs st !! "j1")
     = Some [("video", "/srv/synclab/outputs/j1_dubbed_final.mp4")].
Proof. vm_compute. repeat split. Qed.

(** * More of the program *)

(** ** What the steps leave alone *)

#[global] Instance job_frame_preorder jobId : PreOrder (job_frame jobId).
Proof.
  split.
  - intros st key. destruct (jobs st !! key) as [j|] eqn:E; [|reflexivity].
    exists j. repeat split; auto.
  - intros s1 s2 s3 H12 H23 key. specialize (H12 key). specialize (H23 key).
    destruct (jobs s1 !! key) as [j|].
    + destruct H12 as (j2 & E2 & Hi & Hm & Hc & Hne). rewrite E2 in H23.
      destruct H23 as (j3 & E3 & Hi3 & Hm3 & Hc3 & Hne3).
      exists j3. repeat split; try congruence.
      intros Hk. rewrite (Hne3 Hk). apply Hne, Hk.
    + rewrite H12 in H23. exact H23.
Qed.

#[global] Instance files_frame_preorder framesDir : PreOrder (files_frame framesDir).
Proof.
  split.
  - intros st p. split; auto.
  - intros s1 s2 s3 H12 H23 p.
    destruct (H12 p) as [A1 B1]. destruct (H23 p) as [A2 B2]. split; auto.
Qed.

#[global] Instance stage_frame_preorder w jobId : PreOrder (stage_frame w jobId).
Proof.
  split.
  - intros st. split; [reflexivity|]. split; reflexivity.
  - intros s1 s2 s3 (J1 & T1 & F1) (J2 & T2 & F2).
    split; [etransitivity; eassumption|].
    split; [congruence | etransitivity; eassumption].
Qed.

Section Preserves.

Context (I : state -> state -> Prop) `{!PreOrder I}.

Lemma preserves_ret {A} (a : A) : preserves I (ret a).
Proof. intros st r st' H. inversion H. reflexivity. Qed.

Lemma preserves_throw {A} msg : preserves I (@throw A msg).
Proof. intros st r st' H. inversion H. reflexivity. Qed.

Lemma preserves_bind {A B} (m : M A) (k : A -> M B) :
  preserves I m -> (forall a, preserves I (k a)) -> preserves I (bind m k).
Proof.
  intros Hm Hk st r st' H. unfold bind in H.
  destruct (m st) as [[a|msg] s1] eqn:E.
  - transitivity s1; [apply (Hm _ _ _ E) | apply (Hk a _ _ _ H)].
  - inversion H; subst. apply (Hm _ _ _ E).
Qed.

Lemma preserves_try {A} (m : M A) (h : string -> M A) :
  preserves I m -> (forall msg, preserves I (h msg)) -> preserves I (try_catch m h).
Proof.
  intros Hm Hh st r st' H. unfold try_catch in H.
  destruct (m st) as [[a|msg] s1] eqn:E.
  - inversion H; subst. apply (Hm _ _ _ E).
  - transitivity s1; [apply (Hm _ _ _ E) | apply (Hh msg _ _ _ H)].
Qed.

End Preserves.

Lemma preserves_weaken {A} (I I' : state -> state -> Prop) (m : M A) :
  (forall st st', I st st' -> I' st st') -> preserves I m -> preserves I' m.
Proof. intros HI Hm st r st' H. apply HI, (Hm _ _ _ H). Qed.

Lemma job_frame_same_jobs jobId st st' :
  jobs st' = jobs st -> job_frame jobId st st'.
Proof.
  intros E key. rewrite E. destruct (jobs st !! key) as [j|]; [|reflexivity].
  exists j. repeat split; auto.
Qed.

Section Frames.

Variable w : world.
Variable jobId : string.

Lemma updateJob_job_frame updates :
  named f_id updates = None ->
  named f_meta updates = None ->
  named f_createdAt updates = None ->
  preserves (job_frame jobId) (updateJob w jobId updates).
Proof.
  intros Hid Hmeta Hcr st r st' H. rewrite updateJob_run in H.
  apply pair_equal_spec in H. destruct H as [_ <-].
  unfold after_update. destruct (jobs st !! jobId) as [j|] eqn:Hj; [|reflexivity].
  intros key. simpl. destruct (decide (key = jobId)) as [->|Hne].
  - rewrite Hj, lookup_insert_eq. eexists. split; [reflexivity|].
    pose proof (get_Object_assign j updates (clock w (ticks st)) f_id) as G1.
    pose proof (get_Object_assign j updates (clock w (ticks st)) f_meta) as G2.
    pose proof (get_Object_assign j updates (clock w (ticks st)) f_createdAt) as G3.
    rewrite Hid in G1. rewrite Hmeta in G2. rewrite Hcr in G3. simpl in G1, G2, G3.
    injection G1 as G1. injection G2 as G2. injection G3 as G3.
    repeat split; try assumption. intros Hk. contradiction.
  - rewrite lookup_insert_ne by congruence.
    destruct (jobs st !! key) as [j0|]; [|reflexivity].
    exists j0. repeat split; auto.
Qed.

Lemma updateJob_stage_frame updates :
  named f_id updates = None ->
  named f_meta updates = None ->
  named f_createdAt updates = None ->
  preserves (stage_frame w jobId) (updateJob w jobId updates).
Proof.
  intros Hid Hmeta Hcr st r st' H. split.
  - apply (updateJob_job_frame updates Hid Hmeta Hcr st r st' H).
  - rewrite updateJob_run in H. apply pair_equal_spec in H. destruct H as [_ <-].
    unfold after_update.
    destruct (jobs st !! jobId); (split; [reflexivity|]); intros p; simpl; split; auto.
Qed.

Lemma existsSync_stage_frame p : preserves (stage_frame w jobId) (existsSync p).
Proof. intros st r st' H. inversion H. reflexivity. Qed.

Lemma mkdirSync_stage_frame :
  preserves (stage_frame w jobId) (mkdirSync w (temp_path w (jobId ++ "_frames"))).
Proof.
  intros st r st' H. unfold mkdirSync, bind, get_files, set_files, throw in H.
  destruct (files st !! temp_path w (jobId ++ "_frames")) eqn:E;
    [|destruct (io_fails w _)];
    apply pair_equal_spec in H; destruct H as [_ <-]; try reflexivity.
  split; [apply job_frame_same_jobs; reflexivity|].
  split; [reflexivity|]. intros p. simpl. split.
  - intros Hp. destruct (decide (p = temp_path w (jobId ++ "_frames"))) as [->|Hne].
    + rewrite lookup_insert_eq. eauto.
    + rewrite lookup_insert_ne by congruence. exact Hp.
  - intros Hne Hp. rewrite lookup_insert_ne in Hp by congruence. exact Hp.
Qed.

Lemma writeFileSync_stage_frame p content :
  preserves (stage_frame w jobId) (writeFileSync w p content).
Proof.
  intros st r st' H. unfold writeFileSync, bind, get_files, set_files, throw in H.
  assert (Hins : stage_frame w jobId st
            (State (jobs st) (<[p := File content]> (files st)) (ticks st)
                   (timers st) (journal st))).
  { split; [apply job_frame_same_jobs; reflexivity|].
    split; [reflexivity|]. intros q. simpl. split.
    - intros Hq. destruct (decide (q = p)) as [->|Hne].
      + rewrite lookup_insert_eq. eauto.
      + rewrite lookup_insert_ne by congruence. exact Hq.
    - intros _ Hq. destruct (decide (q = p)) as [->|Hne].
      + rewrite lookup_insert_eq in Hq. discriminate Hq.
      + rewrite lookup_insert_ne in Hq by congruence. exact Hq. }
  destruct (files st !! p) as [[c|]|]; try destruct (io_fails w p);
    apply pair_equal_spec in H; destruct H as [_ <-]; try reflexivity; exact Hins.
Qed.

Ltac frame_step :=
  lazymatch goal with
  | |- preserves _ (updateJob _ _ _) => apply updateJob_stage_frame; reflexivity
  | |- preserves _ (existsSync _) => apply existsSync_stage_frame
  | |- preserves _ (mkdirSync _ _) => apply mkdirSync_stage_frame
  | |- preserves _ (writeFileSync _ _ _) => apply writeFileSync_stage_frame
  | |- preserves _ (ret _) => apply (preserves_ret (stage_frame w jobId))
  | |- preserves _ (throw _) => apply (preserves_throw (stage_frame w jobId))
  | |- preserves _ (bind _ _) =>
      apply (preserves_bind (stage_frame w jobId)); [|intros ?]
  | |- preserves _ (try_catch _ _) =>
      apply (preserves_try (stage_frame w jobId)); [|intros ?]
  | |- preserves _ (match ?x with _ => _ end) => destruct x
  end.

Ltac frame_walk := repeat frame_step.

Lemma extractAudio_frame videoPath :
  preserves (stage_frame w jobId) (extractAudio w videoPath jobId).
Proof. unfold extractAudio. cbv zeta. frame_walk. Qed.

Lemma extractFrames_frame videoPath :
  preserves (stage_frame w jobId)
    (try_catch (let* d := extractFrames w videoPath jobId in ret (Some d))
               (fun _ => ret None)).
Proof. unfold extractFrames. cbv zeta. frame_walk. Qed.

Lemma transcribeAudio_frame audioPath langCode :
  preserves (stage_frame w jobId) (transcribeAudio w audioPath langCode jobId).
Proof. unfold transcribeAudio. cbv zeta. frame_walk. Qed.

Lemma translateText_frame tr fromLang toLang :
  preserves (stage_frame w jobId) (translateText w tr fromLang toLang jobId).
Proof. unfold translateText. cbv zeta. frame_walk. Qed.

Lemma synthesizeVoice_frame tr referenceAudioPath toLang voiceMode :
  preserves (stage_frame w jobId)
    (synthesizeVoice w tr referenceAudioPath toLang voiceMode jobId).
Proof. unfold synthesizeVoice. cbv zeta. frame_walk. Qed.

Lemma mergeAudioOnly_frame videoPath audioPath outputPath :
  preserves (stage_frame w jobId) (mergeAudioOnly w videoPath audioPath outputPath jobId).
Proof. unfold mergeAudioOnly. cbv zeta. frame_walk. Qed.

Lemma runLipSync_frame videoPath dubbedAudioPath quality :
  preserves (stage_frame w jobId) (runLipSync w videoPath dubbedAudioPath quality jobId).
Proof.
  unfold runLipSync. cbv zeta.
  repeat first [apply mergeAudioOnly_frame | frame_step].
Qed.

Lemma finalRender_frame lipsyncPath :
  preserves (stage_frame w jobId) (finalRender w lipsyncPath jobId).
Proof. unfold finalRender. cbv zeta. frame_walk. Qed.

Lemma generateSrt_frame tr :
  preserves (stage_frame w jobId) (generateSrt w tr jobId).
Proof. unfold generateSrt. cbv zeta. frame_walk. Qed.

End Frames.

(** ** A whole run *)

#[global] Instance run_frame_preorder w jobId : PreOrder (run_frame w jobId).
Proof.
  split.
  - intros st. split; reflexivity.
  - intros s1 s2 s3 (J1 & F1) (J2 & F2). split; etransitivity; eassumption.
Qed.

Lemma stage_run_frame w jobId st st' :
  stage_frame w jobId st st' -> run_frame w jobId st st'.
Proof. intros (J & _ & F). split; assumption. Qed.

Lemma files_after_update w key updates st :
  files (after_update w key updates st) = files st.
Proof. unfold after_update. destruct (jobs st !! key); reflexivity. Qed.

Lemma timers_after_update w key updates st :
  timers (after_update w key updates st) = timers st.
Proof. unfold after_update. destruct (jobs st !! key); reflexivity. Qed.

Lemma lookup_after_update w key updates st :
  jobs (after_update w key updates st) !! key
  = (fun j => Object_assign j updates [set_updatedAt (clock w (ticks st))])
      <$> jobs st !! key.
Proof.
  unfold after_update. destruct (jobs st !! key) as [j|] eqn:E; simpl.
  - apply lookup_insert_eq.
  - rewrite E. reflexivity.
Qed.

Lemma runPipeline_unfold w jobId videoPath o :
  runPipeline w jobId videoPath o
  = (updateJob w jobId [set_status running];;
     try_catch (pipeline_try_block w jobId videoPath o)
       (fun msg => updateJob w jobId [set_status error; set_message msg])).
Proof. reflexivity. Qed.

Section Run.

Variable w : world.
Variable jobId : string.

Lemma setTimeout_run_frame delay :
  preserves (run_frame w jobId) (setTimeout jobId delay).
Proof.
  intros st r st' H. unfold setTimeout in H.
  apply pair_equal_spec in H. destruct H as [_ <-].
  split; [apply job_frame_same_jobs; reflexivity|]. intros p. simpl. auto.
Qed.

Lemma stage_as_run_frame {A} (m : M A) :
  preserves (stage_frame w jobId) m -> preserves (run_frame w jobId) m.
Proof. apply preserves_weaken, stage_run_frame. Qed.

Lemma try_block_run_frame videoPath o :
  preserves (run_frame w jobId) (pipeline_try_block w jobId videoPath o).
Proof.
  unfold pipeline_try_block.
  apply (preserves_bind (run_frame w jobId));
    [apply stage_as_run_frame, extractAudio_frame | intros audioPath].
  apply (preserves_bind (run_frame w jobId));
    [apply stage_as_run_frame, extractFrames_frame | intros framesDir].
  apply (preserves_bind (run_frame w jobId));
    [apply stage_as_run_frame, transcribeAudio_frame | intros transcript].
  apply (preserves_bind (run_frame w jobId));
    [apply stage_as_run_frame, translateText_frame | intros translated].
  apply (preserves_bind (run_frame w jobId));
    [apply stage_as_run_frame, synthesizeVoice_frame | intros dubbedAudio].
  apply (preserves_bind (run_frame w jobId));
    [apply stage_as_run_frame, runLipSync_frame | intros lipsyncPath].
  apply (preserves_bind (run_frame w jobId));
    [apply stage_as_run_frame, finalRender_frame | intros finalPath].
  apply (preserves_bind (run_frame w jobId));
    [apply stage_as_run_frame, generateSrt_frame | intros srtPath].
  apply (preserves_bind (run_frame w jobId));
    [apply stage_as_run_frame, updateJob_stage_frame; reflexivity | intros _].
  apply setTimeout_run_frame.
Qed.

Lemma runPipeline_run_frame videoPath o :
  preserves (run_frame w jobId) (runPipeline w jobId videoPath o).
Proof.
  rewrite runPipeline_unfold.
  apply (preserves_bind (run_frame w jobId));
    [apply stage_as_run_frame, updateJob_stage_frame; reflexivity | intros _].
  apply (preserves_try (run_frame w jobId)); [apply try_block_run_frame | intros msg].
  apply stage_as_run_frame, updateJob_stage_frame; reflexivity.
Qed.

(** The [catch] of [runPipeline] turns every rejection into a write. *)
Lemma runPipeline_returns videoPath o st :
  exists st', runPipeline w jobId videoPath o st = (Ok tt, st').
Proof.
  rewrite runPipeline_unfold. unfold bind at 1. rewrite updateJob_run.
  unfold try_catch.
  destruct (pipeline_try_block w jobId videoPath o _) as [[[]|msg] s2].
  - eauto.
  - rewrite updateJob_run. eauto.
Qed.

End Run.

(** X1. Whatever the tools, providers and files do, [runPipeline] returns
    normally, changes no record but the one under its job id, adds and
    removes none, and leaves [id], [meta] and [createdAt] of its own record
    as they were; when the id is unknown the Map is left as it was. *)
Theorem runPipeline_touches_own_record w jobId videoPath o st :
  exists st',
    runPipeline w jobId videoPath o st = (Ok tt, st')
    /\ delete jobId (jobs st') = delete jobId (jobs st)
    /\ match jobs st !! jobId with
       | None => jobs st' = jobs st
       | Some j =>
           exists j',
             jobs st' !! jobId = Some j'
             /\ id j' = id j /\ meta j' = meta j /\ createdAt j' = createdAt j
       end.
Proof.
  destruct (runPipeline_returns w jobId videoPath o st) as [st' E].
  exists st'. split; [exact E|].
  destruct (runPipeline_run_frame w jobId videoPath o _ _ _ E) as [J _].
  assert (Hothers : delete jobId (jobs st') = delete jobId (jobs st)).
  { apply map_eq. intros key. destruct (decide (key = jobId)) as [->|Hne].
    - rewrite !lookup_delete_eq. reflexivity.
    - rewrite !lookup_delete_ne by congruence. specialize (J key).
      destruct (jobs st !! key) as [j|]; [|exact J].
      destruct J as (j' & E' & _ & _ & _ & Hsame). rewrite E', (Hsame Hne). reflexivity. }
  split; [exact Hothers|].
  pose proof (J jobId) as Hown. destruct (jobs st !! jobId) as [j|] eqn:Hj.
  - destruct Hown as (j' & E' & Hi & Hm & Hc & _). exists j'. auto.
  - apply map_eq. intros key. destruct (decide (key = jobId)) as [->|Hne].
    + rewrite Hown, Hj. reflexivity.
    + apply (f_equal (fun m => m !! key)) in Hothers.
      rewrite !lookup_delete_ne in Hothers by congruence. exact Hothers.
Qed.

(** X2. The file operations of a run never remove a path: every path that
    exists before [runPipeline] exists after it. *)
Theorem runPipeline_removes_no_file w jobId videoPath o st :
  exists st',
    runPipeline w jobId videoPath o st = (Ok tt, st')
    /\ dom (files st) ⊆ dom (files st').
Proof.
  destruct (runPipeline_returns w jobId videoPath o st) as [st' E].
  exists st'. split; [exact E|].
  destruct (runPipeline_run_frame w jobId videoPath o _ _ _ E) as [_ F].
  intros p Hp. apply elem_of_dom. apply elem_of_dom in Hp. apply (F p), Hp.
Qed.

(** ** How a run ends *)

Section Ends.

Variable w : world.
Variable jobId : string.

(** A step that keeps [stage_frame], followed by a continuation. *)
Lemma ends_bind {A B} (m : M A) (k : A -> M B) (R : result A -> Prop)
    (Post : state -> result B -> state -> Prop) :
  preserves (stage_frame w jobId) m ->
  outcome m R ->
  (forall a, R (Ok a) -> forall st r st', k a st = (r, st') -> Post st r st') ->
  (forall s0 s1 r s2, stage_frame w jobId s0 s1 -> Post s1 r s2 -> Post s0 r s2) ->
  (forall s0 s1 msg, R (Throw msg) -> stage_frame w jobId s0 s1 -> Post s0 (Throw msg) s1) ->
  forall st r st', bind m k st = (r, st') -> Post st r st'.
Proof.
  intros Hm HR Hk Hcomp Hthrow st r st' H. unfold bind in H.
  destruct (m st) as [[a|msg] s1] eqn:E.
  - apply (Hcomp st s1); [apply (Hm _ _ _ E)|].
    apply (Hk a (HR _ _ _ E) _ _ _ H).
  - apply pair_equal_spec in H. destruct H as [<- <-].
    apply Hthrow; [apply (HR _ _ _ E) | apply (Hm _ _ _ E)].
Qed.

Lemma outcome_any {A} (m : M A) : outcome m (fun _ => True).
Proof. intros st r st' _. exact I. Qed.

Lemma block_post_frame s0 s1 r s2 :
  stage_frame w jobId s0 s1 -> block_post w jobId s1 r s2 -> block_post w jobId s0 r s2.
Proof.
  intros (_ & T & _) H. destruct r as [a|msg]; simpl in *.
  - destruct H as (H1 & H2 & H3). rewrite <- T. auto.
  - congruence.
Qed.

Lemma block_post_throw s0 s1 msg :
  stage_frame w jobId s0 s1 -> block_post w jobId s0 (Throw msg) s1.
Proof. intros (_ & T & _). exact T. Qed.

Lemma block_tail translated finalPath dubbedAudio st r st' :
  (let* srtPath := generateSrt w translated jobId in
   updateJob w jobId [set_status done; set_progress 100;
                      set_message "Dubbing complete!";
                      set_outputs {[ "video" := finalPath; "srt" := srtPath;
                                     "audio" := dubbedAudio ]}];;
   setTimeout jobId (5 * 60 * 1000)) st = (r, st') ->
  block_post w jobId st r st'.
Proof.
  intros H. unfold generateSrt, writeFileSync, bind, get_files, set_files,
    setTimeout, ret, throw in H. fold (srt_path w jobId) in H.
  destruct (files st !! srt_path w jobId) as [[c|]|] eqn:E;
    try destruct (io_fails w (srt_path w jobId));
    rewrite ?updateJob_run in H;
    apply pair_equal_spec in H; destruct H as [<- <-]; simpl; try reflexivity.
  all: rewrite timers_after_update, files_after_update; simpl.
  all: split; [reflexivity|]; split; [rewrite lookup_insert_eq; eauto|].
  all: intros j' Hj'; rewrite lookup_after_update in Hj'; simpl in Hj'.
  all: destruct (jobs st !! jobId) as [j|]; simpl in Hj'; [|discriminate Hj'].
  all: injection Hj' as <-; repeat split; eauto.
Qed.

Lemma try_block_end videoPath o st r st' :
  pipeline_try_block w jobId videoPath o st = (r, st') -> block_post w jobId st r st'.
Proof.
  unfold pipeline_try_block.
  revert st r st'.
  eapply ends_bind;
    [apply extractAudio_frame | apply outcome_any | intros audioPath _
    | apply block_post_frame | intros ? ? ? _; apply block_post_throw].
  eapply ends_bind;
    [apply extractFrames_frame | apply outcome_any | intros framesDir _
    | apply block_post_frame | intros ? ? ? _; apply block_post_throw].
  eapply ends_bind;
    [apply transcribeAudio_frame | apply outcome_any | intros transcript _
    | apply block_post_frame | intros ? ? ? _; apply block_post_throw].
  eapply ends_bind;
    [apply translateText_frame | apply outcome_any | intros translated _
    | apply block_post_frame | intros ? ? ? _; apply block_post_throw].
  eapply ends_bind;
    [apply synthesizeVoice_frame | apply outcome_any | intros dubbedAudio _
    | apply block_post_frame | intros ? ? ? _; apply block_post_throw].
  eapply ends_bind;
    [apply runLipSync_frame | apply outcome_any | intros lipsyncPath _
    | apply block_post_frame | intros ? ? ? _; apply block_post_throw].
  eapply ends_bind;
    [apply finalRender_frame | apply outcome_any | intros finalPath _
    | apply block_post_frame | intros ? ? ? _; apply block_post_throw].
  apply block_tail.
Qed.

(** The end of a run on a stored job: either the block returned, the job
    is [done] with its three outputs, the subtitle file is on disk and the
    clean-up is scheduled; or the block threw, the job is [error] with the
    thrown message and no clean-up is scheduled. *)
Lemma runPipeline_end videoPath o st j :
  jobs st !! jobId = Some j ->
  exists st' j',
    runPipeline w jobId videoPath o st = (Ok tt, st')
    /\ jobs st' !! jobId = Some j'
    /\ ((status j' = done /\ progress j' = 100
         /\ timers st' = (5 * 60 * 1000, jobId) :: timers st
         /\ (exists c, files st' !! srt_path w jobId = Some (File c))
         /\ (exists v a, outputs j' = {[ "video" := v; "srt" := srt_path w jobId;
                                         "audio" := a ]})
         /\ exists s1, pipeline_try_block w jobId videoPath o
                         (after_update w jobId [set_status running] st) = (Ok tt, s1))
        \/ (status j' = error /\ timers st' = timers st
            /\ exists s1, pipeline_try_block w jobId videoPath o
                            (after_update w jobId [set_status running] st)
                          = (Throw (message j'), s1))).
Proof.
  intros Hj. rewrite runPipeline_unfold. unfold bind at 1. rewrite updateJob_run.
  unfold try_catch.
  set (s0 := after_update w jobId [set_status running] st).
  assert (Hs0 : is_Some (jobs s0 !! jobId)).
  { unfold s0. rewrite lookup_after_update, Hj. simpl. eauto. }
  assert (Ht0 : timers s0 = timers st) by apply timers_after_update.
  destruct (pipeline_try_block w jobId videoPath o s0) as [[[]|msg] s2] eqn:E.
  - pose proof (try_block_end _ _ _ _ _ E) as (T & F & J).
    destruct (try_block_run_frame w jobId videoPath o _ _ _ E) as [Jf _].
    specialize (Jf jobId). destruct Hs0 as [j0 Hj0]. rewrite Hj0 in Jf.
    destruct Jf as (j' & Hj' & _).
    destruct (J j' Hj') as (Hs & Hp & Hout).
    exists s2, j'. split; [reflexivity|]. split; [exact Hj'|]. left.
    rewrite T, Ht0. repeat split; eauto.
  - pose proof (try_block_end _ _ _ _ _ E) as T. simpl in T.
    destruct (try_block_run_frame w jobId videoPath o _ _ _ E) as [Jf _].
    specialize (Jf jobId). destruct Hs0 as [j0 Hj0]. rewrite Hj0 in Jf.
    destruct Jf as (j2 & Hj2 & _).
    rewrite updateJob_run.
    eexists _, _. split; [reflexivity|].
    split; [rewrite lookup_after_update, Hj2; reflexivity|]. right.
    rewrite timers_after_update, T, Ht0. repeat split. eauto.
Qed.

End Ends.

Lemma srt_path_nonempty w jobId :
  exists c p, srt_path w jobId = String c p.
Proof.
  unfold srt_path, Js.path_join, Js.join.
  destruct (dirname w) as [|c d]; simpl; eauto.
Qed.

(** X4. When a run on a stored job ends [done], the outputs of the job are
    [video], [audio] and [srt], the last being the subtitle path, the
    subtitle file is on disk, and the download route serves it as
    [dubbed_srt.srt]; otherwise the job ends [error]. *)
Theorem runPipeline_done_serves_subtitles w jobId videoPath o st j :
  jobs st !! jobId = Some j ->
  exists st' j',
    runPipeline w jobId videoPath o st = (Ok tt, st')
    /\ jobs st' !! jobId = Some j'
    /\ (status j' = error
        \/ (status j' = done
            /\ (exists v a, outputs j' = {[ "video" := v; "srt" := srt_path w jobId;
                                            "audio" := a ]})
            /\ (exists c, files st' !! srt_path w jobId = Some (File c))
            /\ get_download jobId "srt" st'
               = download (srt_path w jobId) "dubbed_srt.srt")).
Proof.
  intros Hj.
  destruct (runPipeline_end w jobId videoPath o st j Hj)
    as (st' & j' & E & Hj' & [(Hs & Hp & T & F & Hout & _)|(Hs & T & _)]);
    exists st', j'; (split; [exact E|]); (split; [exact Hj'|]); [right|left; exact Hs].
  split; [exact Hs|]. split; [exact Hout|]. split; [exact F|].
  destruct Hout as (v & a & Hout). destruct F as (c & F).
  unfold get_download, fileMap. rewrite Hj', Hs, Hout. simpl.
  rewrite lookup_insert_ne by discriminate. rewrite lookup_insert_eq.
  destruct (srt_path_nonempty w jobId) as (c0 & p0 & Ep). rewrite Ep in *.
  rewrite F. reflexivity.
Qed.

Lemma runPipeline_done_serves_subtitles_witness :
  jobs (submitted bare_host) !! "j1" = Some sample_job
  /\ exists st' j',
       runPipeline bare_host "j1" "/srv/synclab/uploads/1-a.mp4"
         (Options "en" "es" "clone" "balanced") (submitted bare_host) = (Ok tt, st')
       /\ jobs st' !! "j1" = Some j'
       /\ (status j' = error
           \/ (status j' = done
               /\ (exists v a, outputs j' = {[ "video" := v; "srt" := srt_path bare_host "j1";
                                               "audio" := a ]})
               /\ (exists c, files st' !! srt_path bare_host "j1" = Some (File c))
               /\ get_download "j1" "srt" st'
                  = download (srt_path bare_host "j1") "dubbed_srt.srt")).
Proof.
  split; [vm_compute; reflexivity|].
  apply (runPipeline_done_serves_subtitles bare_host "j1" "/srv/synclab/uploads/1-a.mp4"
           (Options "en" "es" "clone" "balanced") (submitted bare_host) sample_job).
  vm_compute; reflexivity.
Defined.

(** ** What the steps return *)

Ltac run_out H :=
  repeat first
    [ progress cbv beta iota zeta in H
    | rewrite updateJob_run in H
    | match type of H with
      | context [match ?x with _ => _ end] =>
          let y := innermost x in destruct y eqn:?
      end ];
  apply pair_equal_spec in H; destruct H as [<- _].

Section Outcomes.

Variable w : world.
Variable jobId : string.

Lemma extractAudio_outcome videoPath :
  extractAudio_proc w videoPath (temp_path w (jobId ++ "_audio.wav")) = on_close (Some 0) ->
  outcome (extractAudio w videoPath jobId)
    (fun r => r = Ok (temp_path w (jobId ++ "_audio.wav"))).
Proof.
  intros Hproc st r st' H. unfold extractAudio, bind, ret in H.
  cbv zeta in H. rewrite Hproc in H. run_out H. reflexivity.
Qed.

Lemma extractFrames_outcome videoPath :
  outcome (try_catch (let* d := extractFrames w videoPath jobId in ret (Some d))
                     (fun _ => ret None))
    (fun r => exists d, r = Ok d).
Proof.
  intros st r st' H.
  unfold try_catch, extractFrames, bind, existsSync, mkdirSync, bind,
    get_files, set_files, ret, throw in H.
  run_out H; eauto.
Qed.

Lemma transcribeAudio_outcome audioPath langCode :
  outcome (transcribeAudio w audioPath langCode jobId)
    (fun r => exists t, r = Ok t
                /\ (t = getMockTranscript \/ exists p, whisper_json w p = Some t)).
Proof.
  intros st r st' H. unfold transcribeAudio, bind, ret in H.
  run_out H; eauto.
Qed.

Lemma translateText_outcome tr fromLang toLang :
  outcome (translateText w tr fromLang toLang jobId)
    (fun r => exists t, r = Ok (with_translatedText tr t)).
Proof.
  intros st r st' H. unfold translateText, try_catch, bind, ret, throw in H.
  run_out H; eauto.
Qed.

Lemma synthesizeVoice_outcome tr referenceAudioPath toLang voiceMode :
  outcome (synthesizeVoice w tr referenceAudioPath toLang voiceMode jobId)
    (fun r => r = Ok referenceAudioPath
              \/ r = Ok (temp_path w (jobId ++ "_dubbed.wav"))
              \/ r = Ok (Js.replace ".wav" ".mp3" (temp_path w (jobId ++ "_dubbed.wav")))).
Proof.
  intros st r st' H.
  unfold synthesizeVoice, try_catch, bind, writeFileSync, bind,
    get_files, set_files, ret, throw in H.
  run_out H; auto.
Qed.

Lemma runLipSync_outcome videoPath dubbedAudioPath quality :
  spawn w "ffmpeg"
    ["-i"; videoPath; "-i"; dubbedAudioPath; "-c:v"; "copy";
     "-map"; "0:v:0"; "-map"; "1:a:0"; "-shortest"; "-y";
     temp_path w (jobId ++ "_lipsync.mp4")] None = on_close (Some 0) ->
  outcome (runLipSync w videoPath dubbedAudioPath quality jobId)
    (fun r => r = Ok (temp_path w (jobId ++ "_lipsync.mp4"))).
Proof.
  intros Hproc st r st' H.
  unfold runLipSync, mergeAudioOnly, bind, existsSync, ret, throw in H.
  cbv zeta in H. rewrite !Hproc in H. run_out H; reflexivity.
Qed.

Lemma finalRender_outcome lipsyncPath :
  finalRender_proc w lipsyncPath (final_path w jobId) = on_close (Some 0)
  \/ finalRender_proc w lipsyncPath (final_path w jobId) = on_error ->
  outcome (finalRender w lipsyncPath jobId)
    (fun r => r = Ok (final_path w jobId) \/ r = Ok lipsyncPath).
Proof.
  intros Hproc st r st' H. unfold finalRender, bind, ret, throw in H.
  cbv zeta in H. fold (final_path w jobId) in H.
  destruct Hproc as [Hproc|Hproc]; rewrite Hproc in H; run_out H; auto.
Qed.

End Outcomes.

(** ** Paths *)

(** Nothing under [outputs] is a path under [temp]. *)
Lemma outputs_not_temp w x y :
  Js.path_join [dirname w; "outputs"; x] <> temp_path w y.
Proof.
  unfold temp_path, Js.path_join, Js.join. intros H.
  apply append_inv_head in H. simpl in H. discriminate H.
Qed.

(** ** When a run succeeds *)

Section Success.

Variable w : world.
Variable jobId : string.

Lemma unless_blocked_frame s0 s1 r s2 :
  stage_frame w jobId s0 s1 -> unless_blocked w jobId s1 r s2 -> unless_blocked w jobId s0 r s2.
Proof.
  intros (_ & _ & F) H Hdir. apply H. intros Hdir1. apply Hdir.
  apply (F (srt_path w jobId)); [apply outputs_not_temp | exact Hdir1].
Qed.

Lemma try_block_succeeds videoPath o st r st' :
  extractAudio_proc w videoPath (temp_path w (jobId ++ "_audio.wav")) = on_close (Some 0) ->
  (forall audio,
     spawn w "ffmpeg"
       ["-i"; videoPath; "-i"; audio; "-c:v"; "copy";
        "-map"; "0:v:0"; "-map"; "1:a:0"; "-shortest"; "-y";
        temp_path w (jobId ++ "_lipsync.mp4")] None = on_close (Some 0)) ->
  (finalRender_proc w (temp_path w (jobId ++ "_lipsync.mp4")) (final_path w jobId)
     = on_close (Some 0)
   \/ finalRender_proc w (temp_path w (jobId ++ "_lipsync.mp4")) (final_path w jobId)
     = on_error) ->
  io_fails w (srt_path w jobId) = false ->
  pipeline_try_block w jobId videoPath o st = (r, st') ->
  unless_blocked w jobId st r st'.
Proof.
  intros H1 H2 H3 H4. unfold pipeline_try_block. revert st r st'.
  eapply ends_bind;
    [apply extractAudio_frame | apply extractAudio_outcome, H1 | intros audioPath _
    | apply unless_blocked_frame | intros ? ? ? E; discriminate E].
  eapply ends_bind;
    [apply extractFrames_frame | apply extractFrames_outcome | intros framesDir _
    | apply unless_blocked_frame | intros ? ? ? [? E]; discriminate E].
  eapply ends_bind;
    [apply transcribeAudio_frame | apply transcribeAudio_outcome | intros transcript _
    | apply unless_blocked_frame | intros ? ? ? (? & E & _); discriminate E].
  eapply ends_bind;
    [apply translateText_frame | apply translateText_outcome | intros translated _
    | apply unless_blocked_frame | intros ? ? ? [? E]; discriminate E].
  eapply ends_bind;
    [apply synthesizeVoice_frame | apply synthesizeVoice_outcome | intros dubbedAudio _
    | apply unless_blocked_frame | intros ? ? ? [E|[E|E]]; discriminate E].
  eapply ends_bind;
    [apply runLipSync_frame | apply runLipSync_outcome, H2 | intros lipsyncPath E
    | apply unless_blocked_frame | intros ? ? ? E; discriminate E].
  injection E as ->.
  eapply ends_bind;
    [apply finalRender_frame | apply finalRender_outcome, H3 | intros finalPath _
    | apply unless_blocked_frame | intros ? ? ? [E|E]; discriminate E].
  intros st r st' H Hdir.
  unfold generateSrt, writeFileSync, bind, get_files, set_files, setTimeout, ret, throw in H.
  fold (srt_path w jobId) in H. rewrite H4 in H.
  destruct (files st !! srt_path w jobId) as [[c|]|] eqn:E; try contradiction;
    rewrite ?updateJob_run in H;
    apply pair_equal_spec in H; destruct H as [<- _]; eauto.
Qed.

End Success.

(** A run on a stored job ends [done] at progress 100 whenever the three
    ffmpeg steps the job cannot do without succeed and the subtitle file
    can be written. *)
Lemma runPipeline_succeeds w jobId videoPath o st j :
  jobs st !! jobId = Some j ->
  extractAudio_proc w videoPath (temp_path w (jobId ++ "_audio.wav")) = on_close (Some 0) ->
  (forall audio,
     spawn w "ffmpeg"
       ["-i"; videoPath; "-i"; audio; "-c:v"; "copy";
        "-map"; "0:v:0"; "-map"; "1:a:0"; "-shortest"; "-y";
        temp_path w (jobId ++ "_lipsync.mp4")] None = on_close (Some 0)) ->
  (finalRender_proc w (temp_path w (jobId ++ "_lipsync.mp4")) (final_path w jobId)
     = on_close (Some 0)
   \/ finalRender_proc w (temp_path w (jobId ++ "_lipsync.mp4")) (final_path w jobId)
     = on_error) ->
  io_fails w (srt_path w jobId) = false ->
  files st !! srt_path w jobId <> Some Dir ->
  exists st' j',
    runPipeline w jobId videoPath o st = (Ok tt, st')
    /\ jobs st' !! jobId = Some j'
    /\ status j' = done /\ progress j' = 100.
Proof.
  intros Hj H1 H2 H3 H4 H5.
  destruct (runPipeline_end w jobId videoPath o st j Hj)
    as (st' & j' & E & Hj' & [(Hs & Hp & _)|(_ & _ & s1 & Hthrow)]).
  - exists st', j'. auto.
  - apply (try_block_succeeds w jobId videoPath o _ _ _ H1 H2 H3 H4) in Hthrow.
    destruct Hthrow as [a Ha]; [|discriminate Ha].
    rewrite files_after_update. exact H5.
Qed.

(** ** Steps that never reject *)

(** X6. [translateText] never rejects, whatever the providers answer: it
    returns the transcript it was given with nothing changed but
    [translatedText]. *)
Theorem translateText_changes_only_translation w tr fromLang toLang jobId st :
  exists r st',
    translateText w tr fromLang toLang jobId st = (Ok r, st')
    /\ text r = text tr /\ segments r = segments tr /\ language r = language tr.
Proof.
  destruct (translateText w tr fromLang toLang jobId st) as [r st'] eqn:E.
  destruct (translateText_outcome w jobId tr fromLang toLang _ _ _ E) as [t ->].
  eexists _, _. split; [reflexivity|]. repeat split.
Qed.

(** X7. [transcribeAudio] never rejects: it returns what was read from
    Whisper's JSON file, or the built-in mock transcript of two segments
    when Whisper fails, cannot be launched or leaves no readable file. *)
Theorem transcribeAudio_falls_back_to_mock w audioPath langCode jobId st :
  exists t st',
    transcribeAudio w audioPath langCode jobId st = (Ok t, st')
    /\ (t = getMockTranscript
        \/ whisper_json w (Js.path_join [Js.path_join [dirname w; "temp"];
                                         Js.basename audioPath ".wav" ++ ".json"])
           = Some t).
Proof.
  destruct (transcribeAudio w audioPath langCode jobId st) as [r st'] eqn:E.
  unfold transcribeAudio, bind, ret in E. run_out E; eauto.
Qed.

(** X8. [synthesizeVoice] never rejects: it returns the XTTS output path,
    the ElevenLabs output path, or the reference audio it was given; with
    neither provider configured it returns the reference audio. *)
Theorem synthesizeVoice_falls_back_to_reference w tr referenceAudioPath toLang voiceMode
    jobId st :
  exists p st',
    synthesizeVoice w tr referenceAudioPath toLang voiceMode jobId st = (Ok p, st')
    /\ (p = referenceAudioPath
        \/ p = temp_path w (jobId ++ "_dubbed.wav")
        \/ p = Js.replace ".wav" ".mp3" (temp_path w (jobId ++ "_dubbed.wav")))
    /\ (Js.truthy (XTTS_SERVER_URL w) = false ->
        Js.truthy (ELEVENLABS_API_KEY w) = false ->
        p = referenceAudioPath).
Proof.
  destruct (synthesizeVoice w tr referenceAudioPath toLang voiceMode jobId st)
    as [r st'] eqn:E.
  unfold synthesizeVoice, try_catch, bind, writeFileSync, bind,
    get_files, set_files, ret, throw in E.
  run_out E; eexists _, _; (split; [reflexivity|]); (split; [auto|]);
    intros Hx He; try reflexivity; exfalso;
    repeat match goal with
           | H : XTTS_SERVER_URL w = _ |- _ => rewrite H in Hx; clear H
           | H : ELEVENLABS_API_KEY w = _ |- _ => rewrite H in He; clear H
           end;
    simpl in *; congruence.
Qed.

(** ** Clean-up, deletion and the routes that read *)

Lemma starts_with_app (d a b : string) :
  Js.starts_with (d ++ a) (d ++ b) = Js.starts_with a b.
Proof.
  induction d as [|c d IH]; simpl; [reflexivity|].
  rewrite Ascii.eqb_refl. exact IH.
Qed.

Lemma append_assoc (a b c : string) : (a ++ b) ++ c = a ++ (b ++ c).
Proof.
  induction a as [|x a IH]; [reflexivity|].
  change (String x ((a ++ b) ++ c) = String x (a ++ (b ++ c))).
  rewrite IH. reflexivity.
Qed.

(** Nothing under [outputs] is a temp path of a job or lies below one. *)
Lemma outputs_not_within w x y :
  within (temp_path w x) (Js.path_join [dirname w; "outputs"; y]) = false.
Proof.
  unfold within. apply orb_false_intro.
  - apply String.eqb_neq, outputs_not_temp.
  - unfold temp_path, Js.path_join, Js.join.
    rewrite append_assoc, starts_with_app. reflexivity.
Qed.

Lemma outputs_not_temp_file w jobId x :
  Js.path_join [dirname w; "outputs"; x] ∉ temp_files w jobId.
Proof.
  unfold temp_files. rewrite !not_elem_of_cons.
  repeat split; try apply outputs_not_temp. apply not_elem_of_nil.
Qed.

(** X9. [cleanupTemp] returns normally from every state and changes
    nothing but files.  It creates and alters none; only the three temp
    files of the job and what lies in or below its frames directory can
    go, so the deliverables under [outputs] stay; each of the three files
    is gone afterwards unless its removal is refused or a directory sits
    in its place; and the frames directory is gone together with every
    path below it unless a removal in it is refused. *)
Theorem cleanupTemp_removes_only_artifacts w jobId st :
  exists st',
    cleanupTemp w jobId st = (Ok tt, st')
    /\ jobs st' = jobs st /\ timers st' = timers st
    /\ files st' ⊆ files st
    /\ (forall q, q ∉ temp_files w jobId -> within (frames_dir w jobId) q = false ->
          files st' !! q = files st !! q)
    /\ files st' !! srt_path w jobId = files st !! srt_path w jobId
    /\ files st' !! final_path w jobId = files st !! final_path w jobId
    /\ (forall p, p ∈ temp_files w jobId ->
          io_fails w p = false -> files st !! p <> Some Dir -> files st' !! p = None)
    /\ ((forall q, within (frames_dir w jobId) q = true -> io_fails w q = false) ->
        is_Some (files st !! frames_dir w jobId) ->
        forall q, within (frames_dir w jobId) q = true -> files st' !! q = None).
Proof.
  destruct (cleanupTemp_effect w jobId st)
    as (st' & E & (Hj & _ & Ht & _) & Hsub & Hother & Hfiles & Hdir & _).
  exists st'. split; [exact E|]. split; [exact Hj|]. split; [exact Ht|].
  split.
  { apply map_subseteq_spec. intros p x Hp.
    destruct (Hsub p) as [H|H]; rewrite H in Hp; [discriminate Hp | exact Hp]. }
  split; [exact Hother|].
  split; [apply Hother; [apply outputs_not_temp_file | apply outputs_not_within]|].
  split; [apply Hother; [apply outputs_not_temp_file | apply outputs_not_within]|].
  split; assumption.
Qed.

(** X10. Deleting a known job answers 200; afterwards the status and
    download routes answer 404 for its id, while the deliverables under
    [outputs] stay on disk and a clean-up already scheduled stays
    scheduled. *)
Theorem delete_dub_forgets_job_keeps_outputs w jobId st j :
  jobs st !! jobId = Some j ->
  exists st',
    delete_dub w jobId st = (Ok (Response 200 [("message", "Job deleted")]), st')
    /\ get_status jobId st' = status_error 404 "Job not found"
    /\ (forall type, get_download jobId type st' = download_error 404 "Job not found")
    /\ files st' !! srt_path w jobId = files st !! srt_path w jobId
    /\ files st' !! final_path w jobId = files st !! final_path w jobId
    /\ timers st' = timers st.
Proof.
  intros Hj. unfold delete_dub, bind, jobs_get. rewrite Hj.
  destruct (cleanupTemp_effect w jobId st)
    as (s1 & E & (Hjobs & _ & Ht & _) & _ & Hother & _).
  rewrite E. unfold jobs_delete, ret. eexists. split; [reflexivity|].
  unfold get_status, get_download. simpl. rewrite lookup_delete_eq.
  split; [reflexivity|]. split; [reflexivity|].
  split; [apply Hother; [apply outputs_not_temp_file | apply outputs_not_within]|].
  split; [apply Hother; [apply outputs_not_temp_file | apply outputs_not_within] | exact Ht].
Qed.

Lemma delete_dub_forgets_job_keeps_outputs_witness :
  jobs (submitted bare_host) !! "j1" = Some sample_job
  /\ exists st',
       delete_dub bare_host "j1" (submitted bare_host)
         = (Ok (Response 200 [("message", "Job deleted")]), st')
       /\ get_status "j1" st' = status_error 404 "Job not found"
       /\ (forall type, get_download "j1" type st' = download_error 404 "Job not found")
       /\ files st' !! srt_path bare_host "j1"
          = files (submitted bare_host) !! srt_path bare_host "j1"
       /\ files st' !! final_path bare_host "j1"
          = files (submitted bare_host) !! final_path bare_host "j1"
       /\ timers st' = timers (submitted bare_host).
Proof.
  split; [vm_compute; reflexivity|].
  apply (delete_dub_forgets_job_keeps_outputs bare_host "j1" (submitted bare_host)
           sample_job).
  vm_compute; reflexivity.
Defined.

(** X11. Once the clean-up of a [done] job has run, the audio download
    answers 404 when the job's audio is the extracted track or the XTTS
    track, both of which live under [temp] (removal not refused); the
    subtitle download answers as before. *)
Theorem cleanupTemp_drops_audio_download w jobId st j p :
  jobs st !! jobId = Some j ->
  status j = done ->
  outputs j !! "audio" = Some p ->
  outputs j !! "srt" = Some (srt_path w jobId) ->
  p ∈ [temp_path w (jobId ++ "_audio.wav"); temp_path w (jobId ++ "_dubbed.wav")] ->
  io_fails w p = false ->
  files st !! p <> Some Dir ->
  exists st',
    cleanupTemp w jobId st = (Ok tt, st')
    /\ get_download jobId "audio" st' = download_error 404 "Output file not found"
    /\ get_download jobId "srt" st' = get_download jobId "srt" st.
Proof.
  intros Hj Hs Ha Hsrt Hp Hio Hdir.
  destruct (cleanupTemp_effect w jobId st)
    as (st' & E & (Hjobs & _) & _ & Hother & Hfiles & _).
  exists st'. split; [exact E|].
  unfold get_download, fileMap. rewrite Hjobs, Hj, Hs. simpl. rewrite Ha, Hsrt.
  split.
  - assert (Hgone : files st' !! p = None).
    { apply Hfiles; [|exact Hio|exact Hdir].
      rewrite !elem_of_cons in Hp. unfold temp_files. rewrite !elem_of_cons.
      destruct Hp as [Hp|[Hp|Hp]]; [auto|auto|inversion Hp]. }
    destruct p as [|c p]; [reflexivity|]. rewrite Hgone. reflexivity.
  - destruct (srt_path_nonempty w jobId) as (c0 & p0 & Ep).
    rewrite Ep. rewrite <- Ep.
    rewrite (Hother (srt_path w jobId))
      by (first [apply outputs_not_temp_file | apply outputs_not_within]).
    reflexivity.
Qed.

Lemma cleanupTemp_drops_audio_download_witness :
  jobs finished !! "j1" = Some finished_job
  /\ status finished_job = done
  /\ outputs finished_job !! "audio" = Some (temp_path bare_host ("j1" ++ "_audio.wav"))
  /\ exists st',
       cleanupTemp bare_host "j1" finished = (Ok tt, st')
       /\ get_download "j1" "audio" st' = download_error 404 "Output file not found"
       /\ get_download "j1" "srt" st' = get_download "j1" "srt" finished.
Proof.
  split; [vm_compute; reflexivity|]. split; [vm_compute; reflexivity|].
  split; [vm_compute; reflexivity|].
  apply (cleanupTemp_drops_audio_download bare_host "j1" finished finished_job
           (temp_path bare_host ("j1" ++ "_audio.wav"))).
  - vm_compute; reflexivity.
  - vm_compute; reflexivity.
  - vm_compute; reflexivity.
  - vm_compute; reflexivity.
  - apply elem_of_cons. left. reflexivity.
  - reflexivity.
  - vm_compute. discriminate.
Defined.

(** ** The store and the routes *)

(** X12. [createJob] stores a fresh record under the id: queued, no
    stage, progress 0, empty message and outputs, [createdAt] and
    [updatedAt] two successive clock readings.  The status route then
    reports it without output URLs.  No other record changes; a record
    already stored under the id is replaced, so the number of jobs grows
    only for a new id. *)
Theorem createJob_stores_fresh_record w key m st :
  exists job st',
    createJob w key m st = (Ok job, st')
    /\ job = Job key queued None 0 EmptyString m
               (clock w (ticks st)) (clock w (S (ticks st))) ∅
    /\ jobs st' !! key = Some job
    /\ delete key (jobs st') = delete key (jobs st)
    /\ get_status key st' = status_ok (StatusView key queued None 0 EmptyString None)
    /\ size (jobs st') = match jobs st !! key with
                         | Some _ => size (jobs st)
                         | None => S (size (jobs st))
                         end.
Proof.
  unfold createJob, bind, Date_now, jobs_set, ret. simpl.
  eexists _, _. split; [reflexivity|]. split; [reflexivity|].
  split; [apply lookup_insert_eq|]. split; [apply delete_insert_eq|].
  split.
  - unfold get_status. simpl. rewrite lookup_insert_eq. reflexivity.
  - destruct (jobs st !! key) as [j|] eqn:E.
    + simpl. rewrite <- insert_delete_eq.
      rewrite map_size_insert_None by apply lookup_delete_eq.
      transitivity (size (<[key := j]> (delete key (jobs st)))).
      * rewrite map_size_insert_None by apply lookup_delete_eq. reflexivity.
      * rewrite (insert_delete_id (jobs st) key j E). reflexivity.
    + apply map_size_insert_None, E.
Qed.

(** X13. When the encoder closes with a code other than 0, [finalRender]
    rejects with "Final render failed": the job stays as the entry of the
    render stage left it, at progress 94 with its status and outputs
    untouched, and no file is written. *)
Theorem finalRender_rejects_on_exit_code w lipsyncPath jobId st j code :
  jobs st !! jobId = Some j ->
  finalRender_proc w lipsyncPath (final_path w jobId) = on_close code ->
  code <> Some 0 ->
  exists st' j',
    finalRender w lipsyncPath jobId st = (Throw "Final render failed", st')
    /\ jobs st' !! jobId = Some j'
    /\ stage j' = Some "pill-render" /\ progress j' = 94
    /\ status j' = status j /\ outputs j' = outputs j
    /\ files st' = files st.
Proof.
  intros Hj Hproc Hcode. unfold finalRender, bind.
  rewrite updateJob_run, (after_update_Some _ _ _ _ _ Hj).
  fold (final_path w jobId). rewrite Hproc.
  destruct code as [[| |]|]; try contradiction;
    (eexists _, _; split; [reflexivity|]; split; [simpl; apply lookup_insert_eq|];
     repeat split).
Qed.

Lemma finalRender_rejects_on_exit_code_witness :
  jobs (submitted tools_exit_1) !! "j1" = Some sample_job
  /\ finalRender_proc tools_exit_1 "/srv/synclab/temp/j1_lipsync.mp4"
       (final_path tools_exit_1 "j1") = on_close (Some 1)
  /\ Some 1 <> Some 0
  /\ exists st' j',
       finalRender tools_exit_1 "/srv/synclab/temp/j1_lipsync.mp4" "j1"
         (submitted tools_exit_1)
       = (Throw "Final render failed", st')
       /\ jobs st' !! "j1" = Some j'
       /\ stage j' = Some "pill-render" /\ progress j' = 94
       /\ status j' = status sample_job /\ outputs j' = outputs sample_job
       /\ files st' = files (submitted tools_exit_1).
Proof.
  split; [vm_compute; reflexivity|]. split; [reflexivity|]. split; [discriminate|].
  apply (finalRender_rejects_on_exit_code tools_exit_1 "/srv/synclab/temp/j1_lipsync.mp4"
           "j1" (submitted tools_exit_1) sample_job (Some 1));
    [vm_compute; reflexivity | reflexivity | discriminate].
Defined.

(** X16. With no model file on disk [runLipSync] does not look further
    than the audio merge: it resolves with the lip-sync path in [temp]
    when the merge closes with 0, rejects with "Audio merge failed" on any
    other code and with "ffmpeg not found" when the merge cannot be
    launched; it writes no file. *)
Theorem runLipSync_without_model w videoPath dubbedAudioPath quality jobId st :
  files st !! Js.or_else (WAV2LIP_MODEL w)
                (Js.path_join [dirname w; "models"; "wav2lip_gan.pth"]) = None ->
  exists st',
    runLipSync w videoPath dubbedAudioPath quality jobId st
    = (match spawn w "ffmpeg"
               ["-i"; videoPath; "-i"; dubbedAudioPath; "-c:v"; "copy";
                "-map"; "0:v:0"; "-map"; "1:a:0"; "-shortest"; "-y";
                temp_path w (jobId ++ "_lipsync.mp4")] None with
       | on_close (Some 0) => Ok (temp_path w (jobId ++ "_lipsync.mp4"))
       | on_close _ => Throw "Audio merge failed"
       | on_error => Throw "ffmpeg not found"
       end, st')
    /\ files st' = files st.
Proof.
  intros Hmodel. unfold runLipSync, mergeAudioOnly, bind, existsSync. cbv zeta.
  rewrite updateJob_run. cbv beta iota. rewrite files_after_update, Hmodel. simpl.
  rewrite !updateJob_run. cbv beta iota.
  destruct (spawn w "ffmpeg" _ None) as [[[| |]|]|];
    rewrite ?updateJob_run; cbv beta iota; unfold ret, throw;
    (eexists; split; [reflexivity|]);
    rewrite ?files_after_update; reflexivity.
Qed.

Lemma runLipSync_without_model_witness :
  files (submitted bare_host)
    !! Js.or_else (WAV2LIP_MODEL bare_host)
         (Js.path_join [dirname bare_host; "models"; "wav2lip_gan.pth"]) = None
  /\ exists st',
       runLipSync bare_host "/srv/synclab/uploads/1-a.mp4" "/srv/synclab/temp/j1_audio.wav"
         "balanced" "j1" (submitted bare_host)
       = (Ok (temp_path bare_host ("j1" ++ "_lipsync.mp4")), st')
       /\ files st' = files (submitted bare_host).
Proof.
  split; [vm_compute; reflexivity|].
  apply (runLipSync_without_model bare_host "/srv/synclab/uploads/1-a.mp4"
           "/srv/synclab/temp/j1_audio.wav" "balanced" "j1" (submitted bare_host)).
  vm_compute; reflexivity.
Defined.

(** ** Time stamps *)

Lemma Qfloor_frac (x : Q) a b : Qeq x (a # b) -> Qfloor x = a / Zpos b.
Proof. intros H. rewrite H. reflexivity. Qed.

Lemma trunc_nonneg (x : Q) : (0 <= x)%Q -> Js.trunc x = Qfloor x.
Proof.
  intros H. unfold Js.trunc. apply Qle_bool_iff in H. rewrite H. reflexivity.
Qed.

Ltac qeq :=
  unfold Qeq, Qdiv, Qminus, Qplus, Qopp, Qmult, Qinv, inject_Z; simpl;
  rewrite ?Pos2Z.inj_mul, ?Pos.mul_1_r; try ring.

Lemma rem_frac a b c :
  0 <= a ->
  Qeq (Js.rem (a # b) (Zpos c # 1)) ((a mod (Zpos b * Zpos c)) # b).
Proof.
  intros Ha. unfold Js.rem.
  assert (Hq : Qeq ((a # b) / (Zpos c # 1)) (a # (b * c))).
  { qeq. }
  rewrite trunc_nonneg.
  2:{ rewrite Hq. unfold Qle. simpl. lia. }
  rewrite (Qfloor_frac _ _ _ Hq).
  rewrite Pos2Z.inj_mul, Z.mod_eq by lia.
  qeq.
Qed.

Lemma fmtSrtTime_fields a b :
  0 <= a ->
  fmtSrtTime (a # b)
  = pad (a / (Zpos b * 3600)) ++ ":"
    ++ pad (a mod (Zpos b * 3600) / (Zpos b * 60)) ++ ":"
    ++ pad (a mod (Zpos b * 60) / Zpos b) ++ ","
    ++ Js.padStart 3 "0" (Js.String_ (((a mod Zpos b) * 2000 + Zpos b) / (Zpos b * 2))).
Proof.
  intros Ha. unfold fmtSrtTime, Js.floor, Js.round.
  assert (H1 : Qfloor ((a # b) / 3600) = a / (Zpos b * 3600)).
  { rewrite (Qfloor_frac _ a (b * 3600)); [rewrite Pos2Z.inj_mul; reflexivity|].
    qeq. }
  assert (H2 : Qfloor (Js.rem (a # b) 3600 / 60)
               = a mod (Zpos b * 3600) / (Zpos b * 60)).
  { rewrite (Qfloor_frac _ (a mod (Zpos b * 3600)) (b * 60));
      [rewrite Pos2Z.inj_mul; reflexivity|].
    rewrite (rem_frac a b 3600 Ha).
    qeq. }
  assert (H3 : Qfloor (Js.rem (a # b) 60) = a mod (Zpos b * 60) / Zpos b).
  { apply Qfloor_frac. apply (rem_frac a b 60 Ha). }
  assert (H4 : Qfloor (Js.rem (a # b) 1 * 1000 + (1 # 2))
               = ((a mod Zpos b) * 2000 + Zpos b) / (Zpos b * 2)).
  { rewrite (Qfloor_frac _ ((a mod Zpos b) * 2000 + Zpos b) (b * 2));
      [rewrite Pos2Z.inj_mul; reflexivity|].
    rewrite (rem_frac a b 1 Ha). rewrite Z.mul_1_r.
    qeq. }
  rewrite H1, H2, H3, H4. reflexivity.
Qed.

Lemma length_append (a b : string) :
  String.length (a ++ b) = (String.length a + String.length b)%nat.
Proof. induction a as [|c a IH]; simpl; [reflexivity | rewrite IH; reflexivity]. Qed.

Lemma below_bound (P : Z -> bool) (bound : nat) :
  forallb (fun k => P (Z.of_nat k)) (seq 0 bound) = true ->
  forall x, 0 <= x < Z.of_nat bound -> P x = true.
Proof.
  intros H x Hx. rewrite forallb_forall in H.
  rewrite <- (Z2Nat.id x) by lia. apply H. apply in_seq. lia.
Qed.

Lemma pad_length x : 0 <= x < 100 -> String.length (pad x) = 2%nat.
Proof.
  intros Hx. apply Nat.eqb_eq.
  apply (below_bound (fun x => Nat.eqb (String.length (pad x)) 2) 100); [|lia].
  vm_compute. reflexivity.
Qed.

Lemma pad3_length x :
  0 <= x < 1000 -> String.length (Js.padStart 3 "0" (Js.String_ x)) = 3%nat.
Proof.
  intros Hx. apply Nat.eqb_eq.
  apply (below_bound
           (fun x => Nat.eqb (String.length (Js.padStart 3 "0" (Js.String_ x))) 3) 1000);
    [|lia].
  vm_compute. reflexivity.
Qed.

(** X14. For an offset of [n] whole milliseconds below 100 hours,
    [fmtSrtTime] gives the twelve characters [HH:MM:SS,mmm] of the hours,
    minutes, seconds and milliseconds of [n]. *)
Theorem fmtSrtTime_whole_milliseconds n :
  0 <= n < 360000000 ->
  fmtSrtTime (n # 1000)
  = pad (n / 3600000) ++ ":" ++ pad (n mod 3600000 / 60000) ++ ":"
    ++ pad (n mod 60000 / 1000) ++ ","
    ++ Js.padStart 3 "0" (Js.String_ (n mod 1000))
  /\ String.length (fmtSrtTime (n # 1000)) = 12%nat.
Proof.
  intros Hn.
  assert (E : fmtSrtTime (n # 1000)
              = pad (n / 3600000) ++ ":" ++ pad (n mod 3600000 / 60000) ++ ":"
                ++ pad (n mod 60000 / 1000) ++ ","
                ++ Js.padStart 3 "0" (Js.String_ (n mod 1000))).
  { rewrite fmtSrtTime_fields by lia.
    change (Z.pos 1000 * 3600) with 3600000. change (Z.pos 1000 * 60) with 60000.
    change (Z.pos 1000 * 2) with 2000. change (Z.pos 1000) with 1000.
    replace ((n mod 1000 * 2000 + 1000) / 2000) with (n mod 1000); [reflexivity|].
    pose proof (Z.mod_pos_bound n 1000 ltac:(lia)) as Hm.
    apply Z.div_unique with 1000; lia. }
  split; [exact E|]. rewrite E.
  rewrite !length_append, !pad_length, pad3_length; [reflexivity | | | |].
  - apply Z.mod_pos_bound. lia.
  - split; [apply Z.div_pos; [apply Z.mod_pos_bound|]; lia|].
    apply Z.div_lt_upper_bound; [lia|]. pose proof (Z.mod_pos_bound n 60000). lia.
  - split; [apply Z.div_pos; [apply Z.mod_pos_bound|]; lia|].
    apply Z.div_lt_upper_bound; [lia|]. pose proof (Z.mod_pos_bound n 3600000). lia.
  - split; [apply Z.div_pos; lia|]. apply Z.div_lt_upper_bound; lia.
Qed.

Lemma fmtSrtTime_whole_milliseconds_witness :
  0 <= 3723456 < 360000000
  /\ fmtSrtTime (3723456 # 1000) = "01:02:03,456"
  /\ String.length (fmtSrtTime (3723456 # 1000)) = 12%nat.
Proof.
  split; [lia|]. apply (fmtSrtTime_whole_milliseconds 3723456). lia.
Defined.

(** X15. The milliseconds are rounded without a carry: below 100 hours, an
    offset of [k] seconds and 0.9996, 0.9997, 0.9998 or 0.9999, which lies
    less than half a millisecond below the whole second [k + 1], is stamped
    with second [k] and the four digits [1000]. *)
Theorem fmtSrtTime_rounds_up_to_1000 k t :
  0 <= k < 360000 ->
  9995 < t < 10000 ->
  fmtSrtTime ((10000 * k + t) # 10000)
  = pad (k / 3600) ++ ":" ++ pad (k mod 3600 / 60) ++ ":" ++ pad (k mod 60) ++ ",1000".
Proof.
  intros Hk Ht. rewrite fmtSrtTime_fields by lia.
  change (Z.pos 10000 * 3600) with 36000000. change (Z.pos 10000 * 60) with 600000.
  change (Z.pos 10000 * 2) with 20000. change (Z.pos 10000) with 10000.
  replace ((10000 * k + t) / 36000000) with (k / 3600)
    by (apply Z.div_unique with (10000 * (k mod 3600) + t);
        [pose proof (Z.mod_pos_bound k 3600); lia
        | pose proof (Z.div_mod k 3600); lia]).
  replace ((10000 * k + t) mod 36000000 / 600000) with (k mod 3600 / 60).
  2:{ replace ((10000 * k + t) mod 36000000) with (10000 * (k mod 3600) + t)
        by (apply Z.mod_unique with (k / 3600);
            [pose proof (Z.mod_pos_bound k 3600); lia
            | pose proof (Z.div_mod k 3600); lia]).
      apply Z.div_unique with (10000 * ((k mod 3600) mod 60) + t);
        [pose proof (Z.mod_pos_bound (k mod 3600) 60); lia
        | pose proof (Z.div_mod (k mod 3600) 60); lia]. }
  replace ((10000 * k + t) mod 600000 / 10000) with (k mod 60).
  2:{ replace ((10000 * k + t) mod 600000) with (10000 * (k mod 60) + t)
        by (apply Z.mod_unique with (k / 60);
            [pose proof (Z.mod_pos_bound k 60); lia
            | pose proof (Z.div_mod k 60); lia]).
      apply Z.div_unique with t; [lia | lia]. }
  replace (((10000 * k + t) mod 10000 * 2000 + 10000) / 20000) with 1000.
  2:{ replace ((10000 * k + t) mod 10000) with t
        by (apply Z.mod_unique with k; lia).
      apply Z.div_unique with (t * 2000 + 10000 - 20000000); lia. }
  reflexivity.
Qed.

Lemma fmtSrtTime_rounds_up_to_1000_witness :
  0 <= 1 < 360000 /\ 9995 < 9996 < 10000
  /\ fmtSrtTime ((10000 * 1 + 9996) # 10000) = "00:00:01,1000".
Proof.
  split; [lia|]. split; [lia|].
  apply (fmtSrtTime_rounds_up_to_1000 1 9996); lia.
Defined.

(** * The run, event by event *)

Section Events.

Variable w : world.

Lemma turn_single choice h s later st pl :
  turn w choice (EventLoop st [Process h (s :: later)] pl)
  = deliver w h s
      (EventLoop st match later with [] => [] | _ :: _ => [Process h later] end pl).
Proof.
  unfold turn, hear. cbn [processes length heap pipeline].
  rewrite Nat.mod_1_r. cbn. rewrite app_nil_r. reflexivity.
Qed.

Lemma turn_idle choice st pl :
  turn w choice (EventLoop st [] pl) = EventLoop st [] pl.
Proof. unfold turn, hear. cbn. rewrite lookup_nil. reflexivity. Qed.

Lemma turns_idle schedule n k st pl :
  turns w schedule n k (EventLoop st [] pl) = EventLoop st [] pl.
Proof.
  revert k. induction n as [|n IH]; intros k; [reflexivity|].
  cbn [turns]. rewrite turn_idle. apply IH.
Qed.

Lemma turns_S schedule n k l :
  turns w schedule (S n) k l = turns w schedule n (S k) (turn w (schedule k) l).
Proof. reflexivity. Qed.

Lemma try_catch_bind {A B} (m : M A) (k : A -> M B) (h : string -> M B) st :
  try_catch (bind m k) h st
  = match m st with
    | (Ok a, s1) => try_catch (k a) h s1
    | (Throw msg, s1) => h msg s1
    end.
Proof. unfold try_catch, bind. destruct (m st) as [[a|msg] s1]; reflexivity. Qed.

Lemma try_catch_congr {A B C} (F : result B * state -> result C * state)
    (m : M A) (k1 : A -> M B) (k2 : A -> M C) h1 h2 st :
  (forall a s, F (try_catch (k1 a) h1 s) = try_catch (k2 a) h2 s) ->
  (forall msg s, F (h1 msg s) = h2 msg s) ->
  F (try_catch (bind m k1) h1 st) = try_catch (bind m k2) h2 st.
Proof.
  intros Hk Hh. rewrite !try_catch_bind.
  destruct (m st) as [[a|msg] s1]; [apply Hk | apply Hh].
Qed.

Lemma bind_updateJob {B} key updates (k : unit -> M B) st :
  bind (updateJob w key updates) k st = k tt (after_update w key updates st).
Proof. unfold bind. rewrite updateJob_run. reflexivity. Qed.

Lemma runPipeline_finish_returns translated dubbedAudio finalPath jobId st :
  runPipeline_finish w translated dubbedAudio finalPath jobId st
  = (Ok tt, snd (runPipeline_finish w translated dubbedAudio finalPath jobId st)).
Proof.
  unfold runPipeline_finish, try_catch.
  destruct ((let* srtPath := generateSrt w translated jobId in _) st) as [[[]|msg] s1] eqn:E.
  - reflexivity.
  - rewrite updateJob_run. reflexivity.
Qed.

End Events.

(** ** When every process is launched, the order of the events is immaterial *)

Section Sequential.

Variable w : world.
Variable schedule : nat -> nat.
Variable jobId : string.

(** From the start of [finalRender] on. *)
Lemma render_events translated dubbedAudio lipsyncPath n k st :
  try_catch
    (let* finalPath := finalRender w lipsyncPath jobId in
     (let* srtPath := generateSrt w translated jobId in
      updateJob w jobId [set_status done; set_progress 100;
                         set_message "Dubbing complete!";
                         set_outputs {[ "video" := finalPath; "srt" := srtPath;
                                        "audio" := dubbedAudio ]}];;
      setTimeout jobId (5 * 60 * 1000)))
    (fun msg => updateJob w jobId [set_status error; set_message msg]) st
  = (Ok tt,
     heap (turns w schedule (S (S n)) k
             (EventLoop (heap (finalRender_start w lipsyncPath jobId
                                 (EventLoop st [] (at_runLipSync translated dubbedAudio))))
                        (processes (finalRender_start w lipsyncPath jobId
                                      (EventLoop st [] (at_runLipSync translated dubbedAudio))))
                        (at_finalRender translated dubbedAudio)))).
Proof.
  rewrite try_catch_bind.
  unfold finalRender, finalRender_start, launch, on_heap, bind at 1.
  cbn [heap processes pipeline]. rewrite !updateJob_run. cbn [snd app].
  destruct (finalRender_proc w lipsyncPath _) as [code|] eqn:Hproc; cbn [signals turns].
  - rewrite turn_single. unfold deliver.
    destruct code as [[|p|p]|]; unfold on_heap, finalRender_settles, runPipeline_catch;
      cbn [heap processes pipeline]; rewrite ?updateJob_run; cbn [snd];
      rewrite turn_idle, turns_idle; cbn [heap];
      unfold bind at 1, ret, throw; rewrite ?updateJob_run;
      try reflexivity; apply (runPipeline_finish_returns w translated dubbedAudio).
  - rewrite turn_single. unfold deliver.
    unfold on_heap, finalRender_settles, runPipeline_catch;
      cbn [heap processes pipeline]; rewrite ?updateJob_run; cbn [snd].
    rewrite turn_single. unfold deliver, finalRender_settles. cbn [heap processes pipeline].
    cbv beta iota. rewrite turns_idle. cbn [heap].
    unfold bind at 1, ret. rewrite updateJob_run.
    apply (runPipeline_finish_returns w translated dubbedAudio).
Qed.

(** From the start of [mergeAudioOnly] on. *)
Lemma merge_events translated dubbedAudio videoPath audioPath outputPath n k st :
  spawn w "ffmpeg"
    ["-i"; videoPath; "-i"; audioPath; "-c:v"; "copy";
     "-map"; "0:v:0"; "-map"; "1:a:0"; "-shortest"; "-y"; outputPath] None <> on_error ->
  try_catch
    (let* lipsyncPath := mergeAudioOnly w videoPath audioPath outputPath jobId in
     let* finalPath := finalRender w lipsyncPath jobId in
     (let* srtPath := generateSrt w translated jobId in
      updateJob w jobId [set_status done; set_progress 100;
                         set_message "Dubbing complete!";
                         set_outputs {[ "video" := finalPath; "srt" := srtPath;
                                        "audio" := dubbedAudio ]}];;
      setTimeout jobId (5 * 60 * 1000)))
    (fun msg => updateJob w jobId [set_status error; set_message msg]) st
  = (Ok tt,
     heap (turns w schedule (S (S (S n))) k
             (mergeAudioOnly_start w videoPath audioPath outputPath jobId
                (EventLoop st [] (at_runLipSync translated dubbedAudio))))).
Proof.
  intros Hne. rewrite try_catch_bind.
  unfold mergeAudioOnly, mergeAudioOnly_start, launch, on_heap, bind at 1.
  cbn [heap processes pipeline]. rewrite !updateJob_run. cbn [snd app].
  destruct (spawn w "ffmpeg" _ None) as [code|]; [|contradiction].
  cbn [signals]. rewrite turns_S, turn_single. unfold deliver, on_heap, runLipSync_settles.
  cbn [heap processes pipeline]. unfold bind at 1. rewrite !updateJob_run. cbn [snd].
  destruct code as [[|p|p]|]; unfold ret, throw, runPipeline_catch;
    cbn [heap processes pipeline]; rewrite ?updateJob_run; cbn [snd];
    rewrite ?turns_idle; try reflexivity.
  apply render_events.
Qed.

(** From the start of [runLipSync] on. *)
Lemma tail_events videoPath quality translated dubbedAudio st :
  lipsync_launches w ->
  (forall audioPath,
     spawn w "ffmpeg"
       ["-i"; videoPath; "-i"; audioPath; "-c:v"; "copy";
        "-map"; "0:v:0"; "-map"; "1:a:0"; "-shortest"; "-y";
        temp_path w (jobId ++ "_lipsync.mp4")] None <> on_error) ->
  try_catch
    (let* lipsyncPath := runLipSync w videoPath dubbedAudio quality jobId in
     let* finalPath := finalRender w lipsyncPath jobId in
     (let* srtPath := generateSrt w translated jobId in
      updateJob w jobId [set_status done; set_progress 100;
                         set_message "Dubbing complete!";
                         set_outputs {[ "video" := finalPath; "srt" := srtPath;
                                        "audio" := dubbedAudio ]}];;
      setTimeout jobId (5 * 60 * 1000)))
    (fun msg => updateJob w jobId [set_status error; set_message msg]) st
  = (Ok tt,
     heap (turns w schedule 8 0
             (runLipSync_start w videoPath dubbedAudio quality jobId
                (EventLoop st [] (at_runLipSync translated dubbedAudio))))).
Proof.
  intros Hlip Hmerge.
  unfold runLipSync, runLipSync_start. cbv zeta.
  unfold on_heap at 1 2. cbn [heap processes pipeline]. rewrite !updateJob_run. cbn [snd].
  rewrite try_catch_bind. unfold bind at 1. rewrite !updateJob_run.
  unfold bind at 1, existsSync.
  destruct (negb (bool_decide (is_Some (files _ !! _)))) eqn:Hmodel.
  - unfold on_heap. cbn [heap processes pipeline]. rewrite !updateJob_run. cbn [snd].
    rewrite <- (merge_events translated dubbedAudio) by apply Hmerge.
    rewrite try_catch_bind. unfold bind at 1. rewrite !updateJob_run.
    reflexivity.
  - match goal with
    | |- context [spawn w "python3" ?a ?c] =>
        pose proof (Hlip (tl a) c) as Hne; cbn [tl] in Hne;
        destruct (spawn w "python3" a c) as [code|]; [|contradiction]
    end.
    unfold launch, on_heap. cbn [heap processes pipeline signals app].
    rewrite !updateJob_run. cbn [snd].
    rewrite turns_S, turn_single. unfold deliver.
    destruct code as [[|p|p]|];
      try (rewrite <- (merge_events translated dubbedAudio) by apply Hmerge;
           rewrite try_catch_bind; reflexivity).
    unfold on_heap, runLipSync_settles. cbn [heap processes pipeline].
    unfold bind at 1, ret. rewrite !updateJob_run. cbn [snd].
    apply render_events.
Qed.

(** When the lip-sync inference and the audio merge of the job are
    launched, every process reports once and the run heard event by event
    leaves, in whatever order the schedule takes the events, the result
    and the state of [runPipeline]. *)
Lemma runPipeline_events_run videoPath o st :
  lipsync_launches w ->
  (forall audioPath,
     spawn w "ffmpeg"
       ["-i"; videoPath; "-i"; audioPath; "-c:v"; "copy";
        "-map"; "0:v:0"; "-map"; "1:a:0"; "-shortest"; "-y";
        temp_path w (jobId ++ "_lipsync.mp4")] None <> on_error) ->
  runPipeline_events w schedule jobId videoPath o st = runPipeline w jobId videoPath o st.
Proof.
  intros Hlip Hmerge. unfold runPipeline_events, runPipeline.
  rewrite !bind_updateJob.
  set (F := fun x : result (option (Transcript * string)) * state =>
              match x with
              | (Ok (Some (translated, dubbedAudio)), st1) =>
                  (Ok tt,
                   heap (turns w schedule 8 0
                           (runLipSync_start w videoPath dubbedAudio (opt_quality o) jobId
                              (EventLoop st1 [] (at_runLipSync translated dubbedAudio)))))
              | (_, st1) => (Ok tt, st1)
              end).
  assert (Hh : forall msg s,
             F ((updateJob w jobId [set_status error; set_message msg];; ret None) s)
             = updateJob w jobId [set_status error; set_message msg] s).
  { intros msg s. rewrite bind_updateJob, updateJob_run. reflexivity. }
  apply (try_catch_congr F (extractAudio w videoPath jobId)); [intros audioPath s1 | exact Hh].
  apply (try_catch_congr F (try_catch (let* d := extractFrames w videoPath jobId in ret (Some d))
                                      (fun _ => ret None)));
    [intros framesDir s2 | exact Hh].
  apply (try_catch_congr F (transcribeAudio w audioPath (opt_langFrom o) jobId));
    [intros transcript s3 | exact Hh].
  apply (try_catch_congr F (translateText w transcript (opt_langFrom o) (opt_langTo o) jobId));
    [intros translated s4 | exact Hh].
  apply (try_catch_congr F (synthesizeVoice w translated audioPath (opt_langTo o)
                              (opt_voiceMode o) jobId));
    [intros dubbedAudio s5 | exact Hh].
  unfold try_catch at 1, ret, F.
  symmetry. apply tail_events; assumption.
Qed.

(** The same for [POST /api/dub]. *)
Lemma post_dub_events_run file body st :
  lipsync_launches w ->
  merge_launches w ->
  post_dub_events w schedule file body jobId st = post_dub w file body jobId st.
Proof.
  intros Hlip Hmerge. destruct file as [file|]; [|reflexivity].
  unfold post_dub_events, post_dub. unfold bind at 1 3.
  destruct (createJob w jobId _ st) as [[[]|msg] s1]; [|reflexivity].
  unfold bind at 1 2.
  rewrite runPipeline_events_run; [reflexivity | exact Hlip | intros audioPath; apply Hmerge].
Qed.

End Sequential.

(** ** Every process is heard out *)

Section Quiet.

Variable w : world.

Lemma signals_length e : (1 <= length (signals e) <= 2)%nat.
Proof. destruct e; simpl; lia. Qed.

Lemma signals_nonempty e : signals e <> [].
Proof. destruct e; discriminate. Qed.

(** What a handler does to the list of processes and to [runPipeline]. *)
Lemma deliver_shape h s st ps pl :
  exists launched,
    processes (deliver w h s (EventLoop st ps pl)) = (ps ++ launched)%list
    /\ Forall (fun p => undelivered p <> []) launched
    /\ (sum_list_with weight launched
        + match pipeline (deliver w h s (EventLoop st ps pl)) with
          | at_runLipSync _ _ => 2
          | _ => 0
          end
        <= match h with lipsync_handlers _ _ _ _ => 2 | _ => 0 end
           + match pl with at_runLipSync _ _ => 2 | _ => 0 end)%nat
    /\ match pipeline (deliver w h s (EventLoop st ps pl)) with
       | at_runLipSync _ _ =>
           pl = pipeline (deliver w h s (EventLoop st ps pl))
           /\ match h with
              | lipsync_handlers _ _ _ _ => Exists (fun p => ~ is_render p) launched
              | merge_handlers _ _ => False
              | render_handlers _ _ _ => True
              end
       | at_finalRender _ _ =>
           pl = pipeline (deliver w h s (EventLoop st ps pl)) \/ Exists is_render launched
       | returned => True
       end
    /\ (match h with render_handlers _ _ _ => True | _ => False end ->
        match pl with
        | at_finalRender _ _ => pipeline (deliver w h s (EventLoop st ps pl)) = returned
        | _ => pipeline (deliver w h s (EventLoop st ps pl)) = pl
        end).
Proof.
  assert (Hlaunch : forall h0 e, Forall (fun p => undelivered p <> []) [Process h0 (signals e)]).
  { intros h0 e. constructor; [apply signals_nonempty | constructor]. }
  destruct h as [v a out jobId | out jobId | lp fp jobId];
    destruct s as [[[|p|p]|]|]; destruct pl as [tr dub | tr dub |];
    unfold deliver, runLipSync_settles, finalRender_settles, runPipeline_catch,
      mergeAudioOnly_start, finalRender_start, launch, on_heap;
    cbn [heap processes pipeline];
    first
      [ exists []; rewrite app_nil_r; cbn;
        repeat split; auto; try lia; try discriminate; fail
      | eexists [_]; (split; [reflexivity|]); (split; [apply Hlaunch|]);
        cbn [sum_list_with weight handlers undelivered];
        match goal with
        | |- context [signals ?e] => pose proof (signals_length e)
        end;
        repeat split; auto; try lia; try discriminate;
        try (right; constructor; exact I);
        try (constructor; intros []) ].
Qed.

(** A turn delivers a signal: the load goes down. *)
Lemma turn_hearable c l :
  hearable l -> processes l <> [] ->
  hearable (turn w c l) /\ (load (turn w c l) < load l)%nat.
Proof.
  intros [Hall Hpl] Hne. unfold turn, hear.
  destruct l as [st ps pl]. cbn [heap processes pipeline] in *.
  assert (Hi : (c mod length ps < length ps)%nat).
  { apply Nat.mod_upper_bound. destruct ps; [contradiction | discriminate]. }
  destruct (lookup_lt_is_Some_2 ps _ Hi) as [[h ss] Hp]. rewrite Hp.
  set (i := (c mod length ps)%nat) in *.
  assert (Hss : ss <> []) by apply (proj1 (Forall_lookup _ _) Hall i _ Hp).
  destruct ss as [|s later]; [contradiction|]. clear Hss.
  pose proof (take_drop_middle ps i _ Hp) as Hsplit.
  set (rest := match later with [] => [] | _ :: _ => [Process h later] end).
  set (before := take i ps) in *. set (after := drop (S i) ps) in *.
  assert (Hrest : Forall (fun p => undelivered p <> []) rest).
  { unfold rest. destruct later; constructor; [discriminate | constructor]. }
  assert (Hweight : weight (Process h (s :: later))
                    = (sum_list_with weight rest
                       + match h with lipsync_handlers _ _ _ _ => 3 | _ => 1 end)%nat).
  { unfold rest, weight. destruct h, later; cbn; lia. }
  assert (Hkind : forall P : process -> Prop,
             (P (Process h (s :: later)) -> False) ->
             Exists P ps -> Exists P (before ++ rest ++ after)%list).
  { intros P Hnot Hex. rewrite <- Hsplit in Hex.
    rewrite !Exists_app in *. rewrite Exists_cons in Hex. tauto. }
  rewrite <- Hsplit in Hall. rewrite !Forall_app, Forall_cons in Hall.
  destruct Hall as (Hb & _ & Ha).
  destruct (deliver_shape h s st (before ++ rest ++ after)%list pl)
    as (launched & Hps & Hnew & Hload & Hpipe & Hrender).
  set (l' := deliver w h s _) in *.
  split; [split|].
  - rewrite Hps, !Forall_app. auto.
  - rewrite Hps. destruct (pipeline l') as [tr dub | tr dub |] eqn:El'; [| |exact I].
    + destruct Hpipe as [-> Hh]. rewrite Exists_app.
      destruct h; [right; exact Hh | contradiction |].
      left. apply Hkind; [|exact Hpl]. intros Hnot. apply Hnot. exact I.
    + rewrite Exists_app. destruct Hpipe as [-> | Hex]; [|right; exact Hex].
      left. apply Hkind; [|exact Hpl]. intros Hr.
      destruct h; try contradiction. specialize (Hrender I). simpl in Hrender.
      congruence.
  - unfold load. rewrite Hps. cbn [processes pipeline].
    rewrite <- Hsplit, !sum_list_with_app. cbn [sum_list_with].
    rewrite Hweight. destruct h; lia.
Qed.

(** After as many turns as the load, no process is left and [runPipeline]
    has returned. *)
Lemma turns_quiet schedule n : forall k l,
  hearable l -> (load l <= n)%nat ->
  processes (turns w schedule n k l) = [] /\ pipeline (turns w schedule n k l) = returned.
Proof.
  assert (Hend : forall l, hearable l -> processes l = [] -> pipeline l = returned).
  { intros l [_ Hpl] Hps. rewrite Hps in Hpl.
    destruct (pipeline l); [inversion Hpl | inversion Hpl | reflexivity]. }
  assert (Hidle : forall m k l, processes l = [] -> turns w schedule m k l = l).
  { induction m as [|m IH]; intros k l Hps; [reflexivity|].
    cbn [turns]. assert (Hturn : turn w (schedule k) l = l).
    { unfold turn, hear. rewrite Hps. reflexivity. }
    rewrite Hturn. apply IH, Hps. }
  induction n as [|n IH]; intros k l Hl Hload.
  - cbn [turns]. destruct (processes l) as [|p ps] eqn:Hps.
    + split; [reflexivity | apply Hend; assumption].
    + exfalso. destruct Hl as [Hall _]. rewrite Hps in Hall.
      inversion Hall as [|? ? Hp _]; subst.
      unfold load in Hload. rewrite Hps in Hload. cbn [sum_list_with] in Hload.
      assert (weight p <> 0)%nat.
      { unfold weight. destruct (handlers p), (undelivered p); simpl; try lia; contradiction. }
      lia.
  - destruct (processes l) as [|p ps] eqn:Hps.
    + rewrite (Hidle _ _ _ Hps). split; [exact Hps | apply Hend; assumption].
    + cbn [turns].
      destruct (turn_hearable (schedule k) l Hl) as [Hl' Hlt]; [rewrite Hps; discriminate|].
      apply IH; [exact Hl' | lia].
Qed.

(** Eight turns are enough for the processes of the lip-sync and render
    stages. *)
Lemma runLipSync_start_load videoPath dubbedAudioPath quality jobId st translated dubbedAudio :
  hearable (runLipSync_start w videoPath dubbedAudioPath quality jobId
              (EventLoop st [] (at_runLipSync translated dubbedAudio)))
  /\ (load (runLipSync_start w videoPath dubbedAudioPath quality jobId
              (EventLoop st [] (at_runLipSync translated dubbedAudio))) <= 8)%nat.
Proof.
  unfold runLipSync_start. cbv zeta.
  destruct (negb (bool_decide (is_Some (files _ !! _))));
    unfold mergeAudioOnly_start, launch, on_heap, hearable, load;
    cbn [heap processes pipeline app sum_list_with weight handlers undelivered];
    match goal with
    | |- context [signals ?e] =>
        pose proof (signals_length e); pose proof (signals_nonempty e)
    end;
    (split; [split; [constructor; [assumption | constructor]
                    | constructor; intros []]
            | lia]).
Qed.

End Quiet.

(** ** What every order of events keeps *)

Section Invariant.
Variable w : world.
Variable jobId : string.
Variable st0 : state.

(** Writes of a handler that runs after its promise was settled. *)
Lemma stray_frame updates st :
  named f_id updates = None -> named f_meta updates = None ->
  named f_createdAt updates = None ->
  run_frame w jobId st (after_update w jobId updates st).
Proof.
  intros H1 H2 H3. apply stage_run_frame.
  apply (updateJob_stage_frame w jobId updates H1 H2 H3 st (Ok tt)).
  apply updateJob_run.
Qed.

Lemma stray_ended updates st :
  named f_status updates = None -> named f_outputs updates = None ->
  ended w jobId st0 st -> ended w jobId st0 (after_update w jobId updates st).
Proof.
  intros Hs Ho Hend j Hj. rewrite lookup_after_update in Hj.
  destruct (jobs st !! jobId) as [j0|] eqn:Hj0; simpl in Hj; [|discriminate Hj].
  injection Hj as <-.
  pose proof (get_Object_assign j0 updates (clock w (ticks st)) f_status) as G1.
  pose proof (get_Object_assign j0 updates (clock w (ticks st)) f_outputs) as G2.
  rewrite Hs in G1. rewrite Ho in G2. simpl in G1, G2.
  injection G1 as G1. injection G2 as G2. rewrite G1, G2.
  rewrite timers_after_update, files_after_update. apply Hend. exact Hj0.
Qed.

Lemma catch_ended msg st :
  timers st = timers st0 ->
  ended w jobId st0 (after_update w jobId [set_status error; set_message msg] st).
Proof.
  intros Ht j Hj. right. rewrite lookup_after_update in Hj.
  destruct (jobs st !! jobId) as [j0|]; simpl in Hj; [|discriminate Hj].
  injection Hj as <-. rewrite timers_after_update. split; [reflexivity | exact Ht].
Qed.

Lemma finish_frame translated dubbedAudio finalPath st :
  run_frame w jobId st (snd (runPipeline_finish w translated dubbedAudio finalPath jobId st)).
Proof.
  destruct (runPipeline_finish w translated dubbedAudio finalPath jobId st) as [r st'] eqn:E.
  simpl. revert E. unfold runPipeline_finish.
  apply (preserves_try (run_frame w jobId)).
  - apply (preserves_bind (run_frame w jobId));
      [apply stage_as_run_frame, generateSrt_frame | intros srtPath].
    apply (preserves_bind (run_frame w jobId));
      [apply stage_as_run_frame, updateJob_stage_frame; reflexivity | intros _].
    apply setTimeout_run_frame.
  - intros msg. apply stage_as_run_frame, updateJob_stage_frame; reflexivity.
Qed.

Lemma finish_ended translated dubbedAudio finalPath st :
  timers st = timers st0 ->
  ended w jobId st0 (snd (runPipeline_finish w translated dubbedAudio finalPath jobId st)).
Proof.
  intros Ht. unfold runPipeline_finish, try_catch.
  destruct ((let* srtPath := generateSrt w translated jobId in _) st) as [[[]|msg] s1] eqn:E.
  - apply block_tail in E. destruct E as (T & F & J). simpl.
    intros j Hj. left. destruct (J j Hj) as (Hs & _ & Hout).
    rewrite T, Ht. auto.
  - apply block_tail in E. simpl in E. rewrite updateJob_run. simpl.
    apply catch_ended. congruence.
Qed.


Ltac frame_goal :=
  repeat match goal with
         | |- run_frame _ _ _ (after_update _ _ _ ?s) =>
             transitivity s; [|apply stray_frame; reflexivity]
         | |- run_frame _ _ _ (snd (runPipeline_finish _ _ _ _ _ ?s)) =>
             transitivity s; [|apply finish_frame]
         end;
  assumption.

Ltac ended_goal :=
  repeat match goal with
         | |- ended _ _ _ (after_update _ _ [set_status error; set_message _] _) =>
             apply catch_ended
         | |- ended _ _ _ (snd (runPipeline_finish _ _ _ _ _ _)) => apply finish_ended
         | |- ended _ _ _ (after_update _ _ _ _) =>
             apply stray_ended; [reflexivity | reflexivity |]
         | |- timers (after_update _ _ _ _) = _ => rewrite timers_after_update
         end;
  try assumption.

Lemma filter_not_render (ps : list process) :
  Forall (fun p => ~ is_render p) ps -> filter is_render ps = [].
Proof.
  induction 1 as [|p ps Hp _ IH]; [reflexivity|].
  rewrite filter_cons. destruct (decide (is_render p)); [contradiction | exact IH].
Qed.

(** A handler that runs keeps [run_inv]. *)
Lemma deliver_inv h s later st ps pl :
  own jobId h ->
  Forall (fun p => own jobId (handlers p)) ps ->
  heard_ok h s later ps pl ->
  run_frame w jobId st0 st ->
  match pl with
  | returned => ended w jobId st0 st
  | _ => timers st = timers st0
  end ->
  run_inv w jobId st0 (deliver w h s (EventLoop st ps pl)).
Proof.
  intros Hown Hall Hheard Hframe Hpl.
  assert (Hlaunched : forall h0 e, own jobId h0 ->
            Forall (fun p => own jobId (handlers p)) (ps ++ [Process h0 e])%list).
  { intros h0 e H0. apply Forall_app. split; [exact Hall | constructor; [exact H0 | constructor]]. }
  destruct h as [v a out j | out j | lp fp j]; unfold own in Hown; simpl in Hown; subst j.
  - (* the inference *)
    unfold heard_ok, render_inv in Hheard. cbn [pipeline processes] in Hheard.
    destruct s as [[[|p|p]|]|]; destruct pl as [tr dub | tr dub |];
      unfold deliver, runLipSync_settles, runPipeline_catch, mergeAudioOnly_start,
        finalRender_start, launch, on_heap, run_inv, render_inv;
      cbn [heap processes pipeline]; rewrite ?updateJob_run; cbn [snd].
    all: try (destruct Hheard as [Hone Hsig]).
    all: split; [first [exact Hall | apply Hlaunched; reflexivity]|].
    all: split; [|split; [frame_goal | ended_goal]].
    all: rewrite ?Forall_app, ?filter_app, ?length_app.
    all: try (rewrite (filter_not_render ps Hheard)).
    all: repeat split; auto.
    all: try (constructor; [|constructor]).
    all: try (intros []; fail).
    all: try (intros _; eexists; reflexivity).
    all: try (rewrite Hone; reflexivity).
    all: try (rewrite filter_cons; cbn; lia).
    all: try (eapply Forall_impl; [exact Hheard|]; intros q Hq Hr; contradiction).
  - (* a merge *)
    unfold heard_ok, render_inv in Hheard. cbn [pipeline processes] in Hheard.
    destruct s as [[[|p|p]|]|]; destruct pl as [tr dub | tr dub |];
      unfold deliver, runLipSync_settles, runPipeline_catch, mergeAudioOnly_start,
        finalRender_start, launch, on_heap, run_inv, render_inv;
      cbn [heap processes pipeline]; rewrite ?updateJob_run; cbn [snd].
    all: try (destruct Hheard as [Hone Hsig]).
    all: split; [first [exact Hall | apply Hlaunched; reflexivity]|].
    all: split; [|split; [frame_goal | ended_goal]].
    all: rewrite ?Forall_app, ?filter_app, ?length_app.
    all: try (rewrite (filter_not_render ps Hheard)).
    all: repeat split; auto.
    all: try (constructor; [|constructor]).
    all: try (intros []; fail).
    all: try (intros _; eexists; reflexivity).
    all: try (rewrite Hone; reflexivity).
    all: try (rewrite filter_cons; cbn; lia).
    all: try (eapply Forall_impl; [exact Hheard|]; intros q Hq Hr; contradiction).
  - (* the render *)
    unfold heard_ok in Hheard. destruct Hheard as [Htrail Hsig].
    destruct pl as [tr dub | tr dub |]; [contradiction | |].
    + destruct s as [[[|p|p]|]|];
        unfold deliver, finalRender_settles, runPipeline_catch, on_heap, run_inv, render_inv;
        cbn [heap processes pipeline]; rewrite ?updateJob_run; cbn [snd].
      all: split; [exact Hall|].
      all: split; [exact Htrail|].
      all: split; [frame_goal | ended_goal].
    + subst s. unfold deliver, finalRender_settles. cbn [heap processes pipeline].
      cbv beta iota. unfold run_inv, render_inv. cbn [heap processes pipeline].
      auto.
Qed.

Lemma render_count_0 (ps : list process) :
  length (filter is_render ps) = 0%nat -> Forall (fun p => ~ is_render p) ps.
Proof.
  induction ps as [|p ps IH]; [constructor|].
  rewrite filter_cons. destruct (decide (is_render p)) as [Hr|Hr]; [discriminate|].
  intros H. constructor; [exact Hr | apply IH, H].
Qed.

Lemma not_render_trailing (ps : list process) :
  Forall (fun p => ~ is_render p) ps -> Forall trailing ps.
Proof. intros H. eapply Forall_impl; [exact H|]. intros p Hp Hr. contradiction. Qed.

(** So does a turn of the event loop. *)
Lemma turn_inv c l : run_inv w jobId st0 l -> run_inv w jobId st0 (turn w c l).
Proof.
  intros (Hown & Hrender & Hframe & Hpl). unfold turn, hear.
  destruct l as [st ps pl]. cbn [heap processes pipeline] in *.
  destruct (ps !! (c mod length ps)%nat) as [[h ss]|] eqn:Hp;
    [|split; [exact Hown | split; [exact Hrender | split; assumption]]].
  set (i := (c mod length ps)%nat) in *.
  pose proof (take_drop_middle ps i _ Hp) as Hsplit.
  set (before := take i ps) in *. set (after := drop (S i) ps) in *.
  unfold render_inv in Hrender. cbn [pipeline processes] in Hrender.
  rewrite <- Hsplit in Hown, Hrender. clear Hsplit Hp.
  rewrite Forall_app, Forall_cons in Hown. destruct Hown as (Hob & Hoh & Hoa).
  cbn [handlers] in Hoh.
  destruct ss as [|s later].
  - (* nothing left to deliver *)
    split; [cbn [processes]; rewrite Forall_app; auto|].
    split; [|split; assumption].
    unfold render_inv. cbn [pipeline processes].
    destruct pl as [tr dub | tr dub |].
    + rewrite Forall_app, Forall_cons in Hrender. rewrite Forall_app. tauto.
    + destruct Hrender as [Hone Hsig].
      rewrite Forall_app, Forall_cons in Hsig. destruct Hsig as (Hsb & Hsh & Hsa).
      rewrite filter_app, filter_cons in Hone.
      destruct (decide (is_render (Process h []))) as [Hr|Hr].
      * destruct (Hsh Hr) as [e He]. cbn in He. destruct e; discriminate He.
      * rewrite filter_app. split; [exact Hone | rewrite Forall_app; auto].
    + rewrite Forall_app, Forall_cons in Hrender. rewrite Forall_app. tauto.
  - set (rest := match later with [] => [] | _ :: _ => [Process h later] end).
    assert (Hrest : forall P : process -> Prop,
               (later <> [] -> P (Process h later)) -> Forall P rest).
    { intros P HP. unfold rest. destruct later; constructor; [apply HP; discriminate | constructor]. }
    apply (deliver_inv h s later); try assumption.
    + rewrite !Forall_app. split; [exact Hob|]. split; [|exact Hoa].
      apply Hrest. intros _. exact Hoh.
    + unfold heard_ok.
      assert (Hkind : is_render (Process h (s :: later)) \/ ~ is_render (Process h (s :: later))).
      { destruct (decide (is_render (Process h (s :: later)))); auto. }
      destruct h as [v a out j | out j | lp fp j]; unfold render_inv; cbn [pipeline processes].
      1, 2: destruct pl as [tr dub | tr dub |].
      1, 3, 4, 6:
        rewrite Forall_app, Forall_cons in Hrender; rewrite !Forall_app;
        (split; [tauto|]); (split; [|tauto]); apply Hrest; intros _ [].
      1, 2:
        destruct Hrender as [Hone Hsig];
        rewrite Forall_app, Forall_cons in Hsig; destruct Hsig as (Hsb & Hsh & Hsa);
        rewrite filter_app, filter_cons in Hone;
        destruct (decide (is_render _)) as [[]|_] in Hone;
        rewrite !filter_app, !length_app in *;
        (split; [|rewrite !Forall_app; split; [exact Hsb|]; split; [|exact Hsa];
                  apply Hrest; intros _ []]);
        assert (Hr0 : filter is_render rest = [])
          by (apply filter_not_render, Hrest; intros _ []);
        rewrite Hr0; cbn [length]; lia.
      destruct pl as [tr dub | tr dub |].
      * rewrite Forall_app, Forall_cons in Hrender. destruct Hrender as (_ & Hn & _).
        exfalso. apply Hn. exact I.
      * destruct Hrender as [Hone Hsig].
        rewrite Forall_app, Forall_cons in Hsig. destruct Hsig as (Hsb & Hsh & Hsa).
        destruct (Hsh I) as [e He]. cbn [undelivered] in He.
        rewrite filter_app, filter_cons in Hone.
        destruct (decide (is_render _)) as [_|Hn] in Hone; [|exfalso; apply Hn; exact I].
        rewrite length_app in Hone. cbn [length] in Hone.
        assert (Hb0 : length (filter is_render before) = 0%nat) by lia.
        assert (Ha0 : length (filter is_render after) = 0%nat) by lia.
        split; [|eauto].
        rewrite !Forall_app. split; [apply not_render_trailing, render_count_0, Hb0|].
        split; [|apply not_render_trailing, render_count_0, Ha0].
        apply Hrest. intros Hl _. cbn [undelivered].
        destruct e; cbn in He; injection He as _ ->; [congruence | reflexivity].
      * rewrite Forall_app, Forall_cons in Hrender. destruct Hrender as (Hsb & Hsh & Hsa).
        specialize (Hsh I). cbn [undelivered] in Hsh. injection Hsh as -> ->.
        split; [|reflexivity]. cbn. rewrite Forall_app. split; assumption.
Qed.

Lemma turns_inv schedule n : forall k l,
  run_inv w jobId st0 l -> run_inv w jobId st0 (turns w schedule n k l).
Proof.
  induction n as [|n IH]; intros k l Hl; [exact Hl|].
  cbn [turns]. apply IH, turn_inv, Hl.
Qed.

(** [run_inv] holds when [runLipSync] has returned its promise. *)
Lemma runLipSync_start_inv videoPath dubbedAudioPath quality st translated dubbedAudio :
  run_frame w jobId st0 st -> timers st = timers st0 ->
  run_inv w jobId st0
    (runLipSync_start w videoPath dubbedAudioPath quality jobId
       (EventLoop st [] (at_runLipSync translated dubbedAudio))).
Proof.
  intros Hframe Ht. unfold runLipSync_start. cbv zeta.
  destruct (negb (bool_decide (is_Some (files _ !! _))));
    unfold mergeAudioOnly_start, launch, on_heap, run_inv, render_inv;
    cbn [heap processes pipeline app]; rewrite ?updateJob_run; cbn [snd].
  all: split; [constructor; [reflexivity | constructor]|].
  all: split; [constructor; [intros [] | constructor]|].
  all: split; [frame_goal | ended_goal].
Qed.

End Invariant.

(** ** How a run ends, in whatever order the events come *)

Section Ending.
Variable w : world.
Variable jobId : string.

Lemma bind_Ok {A B} (m : M A) (k : A -> M B) st b st' :
  bind m k st = (Ok b, st') -> exists a s, m st = (Ok a, s) /\ k a s = (Ok b, st').
Proof.
  unfold bind. destruct (m st) as [[a|msg] s]; [eauto | discriminate].
Qed.

(** The stages before the lip sync hand on the translation and the dubbed
    track, or the [catch] has stored the failure. *)
Lemma prefix_end videoPath o st r st1 :
  try_catch
    (let* audioPath := extractAudio w videoPath jobId in
     let* framesDir := try_catch
                         (let* d := extractFrames w videoPath jobId in ret (Some d))
                         (fun _ => ret None) in
     let* transcript := transcribeAudio w audioPath (opt_langFrom o) jobId in
     let* translated := translateText w transcript (opt_langFrom o) (opt_langTo o) jobId in
     let* dubbedAudio := synthesizeVoice w translated audioPath (opt_langTo o)
                           (opt_voiceMode o) jobId in
     ret (Some (translated, dubbedAudio)))
    (fun msg => updateJob w jobId [set_status error; set_message msg];; ret None) st
  = (r, st1) ->
  match r with
  | Ok (Some _) => stage_frame w jobId st st1
  | Ok None =>
      exists msg s, stage_frame w jobId st s
                    /\ st1 = after_update w jobId [set_status error; set_message msg] s
  | Throw _ => False
  end.
Proof.
  unfold try_catch.
  match goal with
  | |- context [match ?m st with _ => _ end] =>
      assert (Hframe : preserves (stage_frame w jobId) m);
      [|destruct (m st) as [[a|msg] s] eqn:E]
  end.
  - apply (preserves_bind (stage_frame w jobId)); [apply extractAudio_frame | intros audioPath].
    apply (preserves_bind (stage_frame w jobId)); [apply extractFrames_frame | intros framesDir].
    apply (preserves_bind (stage_frame w jobId)); [apply transcribeAudio_frame | intros transcript].
    apply (preserves_bind (stage_frame w jobId)); [apply translateText_frame | intros translated].
    apply (preserves_bind (stage_frame w jobId)); [apply synthesizeVoice_frame | intros dubbedAudio].
    apply (preserves_ret (stage_frame w jobId)).
  - intros H. apply pair_equal_spec in H. destruct H as [<- <-].
    pose proof (Hframe _ _ _ E) as Hf.
    apply bind_Ok in E. destruct E as (audioPath & s1 & _ & E).
    apply bind_Ok in E. destruct E as (framesDir & s2 & _ & E).
    apply bind_Ok in E. destruct E as (transcript & s3 & _ & E).
    apply bind_Ok in E. destruct E as (translated & s4 & _ & E).
    apply bind_Ok in E. destruct E as (dubbedAudio & s5 & _ & E).
    unfold ret in E. apply pair_equal_spec in E. destruct E as [E _].
    injection E as <-. exact Hf.
  - rewrite bind_updateJob. unfold ret. intros H.
    apply pair_equal_spec in H. destruct H as [<- <-].
    exists msg, s. split; [apply (Hframe _ _ _ E) | reflexivity].
Qed.

(** How a run heard event by event ends, in whatever order the events
    come: it returns, the record of the job is [done] with the three
    outputs, the subtitle file on disk and one clean-up scheduled, or
    [error] with none scheduled; no other record is touched and no path is
    removed. *)
Lemma runPipeline_events_end schedule videoPath o st j :
  jobs st !! jobId = Some j ->
  exists st' j',
    runPipeline_events w schedule jobId videoPath o st = (Ok tt, st')
    /\ jobs st' !! jobId = Some j'
    /\ run_frame w jobId st st'
    /\ ((status j' = done
         /\ timers st' = (5 * 60 * 1000, jobId) :: timers st
         /\ (exists c, files st' !! srt_path w jobId = Some (File c))
         /\ exists v a, outputs j' = {[ "video" := v; "srt" := srt_path w jobId;
                                        "audio" := a ]})
        \/ (status j' = error /\ timers st' = timers st)).
Proof.
  intros Hj. unfold runPipeline_events. rewrite bind_updateJob.
  set (s0 := after_update w jobId [set_status running] st).
  assert (Hs0 : run_frame w jobId st s0) by (apply stray_frame; reflexivity).
  assert (Ht0 : timers s0 = timers st) by apply timers_after_update.
  assert (Hlook : forall st', run_frame w jobId st st' -> exists j', jobs st' !! jobId = Some j').
  { intros st' [J _]. specialize (J jobId). rewrite Hj in J.
    destruct J as (j' & Hj' & _). eauto. }
  match goal with
  | |- context [match ?m s0 with _ => _ end] => destruct (m s0) as [r st1] eqn:E
  end.
  apply prefix_end in E. destruct r as [[[translated dubbedAudio]|]|msg]; [| |contradiction].
  - assert (Hf1 : run_frame w jobId st st1).
    { transitivity s0; [exact Hs0 | apply stage_run_frame, E]. }
    assert (Ht1 : timers st1 = timers st) by (destruct E as (_ & T & _); congruence).
    set (l0 := runLipSync_start w videoPath dubbedAudio (opt_quality o) jobId
                 (EventLoop st1 [] (at_runLipSync translated dubbedAudio))).
    destruct (runLipSync_start_load w videoPath dubbedAudio (opt_quality o) jobId st1
                translated dubbedAudio) as [Hhear Hload].
    destruct (turns_quiet w schedule 8 0 l0 Hhear Hload) as [_ Hret].
    pose proof (turns_inv w jobId st schedule 8 0 l0
                  (runLipSync_start_inv w jobId st _ _ _ _ _ _ Hf1 Ht1))
      as (_ & _ & Hframe & Hend).
    rewrite Hret in Hend.
    destruct (Hlook _ Hframe) as [j' Hj'].
    exists (heap (turns w schedule 8 0 l0)), j'.
    split; [reflexivity|]. split; [exact Hj'|]. split; [exact Hframe|].
    apply Hend, Hj'.
  - destruct E as (msg & s & Hs & ->).
    assert (Hf1 : run_frame w jobId st
                    (after_update w jobId [set_status error; set_message msg] s)).
    { transitivity s0; [exact Hs0|]. transitivity s; [apply stage_run_frame, Hs|].
      apply stray_frame; reflexivity. }
    destruct (Hlook _ Hf1) as [j' Hj'].
    exists (after_update w jobId [set_status error; set_message msg] s), j'.
    split; [reflexivity|]. split; [exact Hj'|]. split; [exact Hf1|]. right.
    rewrite timers_after_update. destruct Hs as (_ & T & _).
    split; [|congruence].
    rewrite lookup_after_update in Hj'.
    destruct (jobs s !! jobId) as [j0|]; simpl in Hj'; [|discriminate Hj'].
    injection Hj' as <-. reflexivity.
Qed.

End Ending.

(** X3. In whatever order the events of its processes come, a run on a
    stored job returns normally and ends in one of two ways: the job is
    [done] and one clean-up of the job is scheduled in 300000 ms, or the
    job is [error] and none is scheduled.  When the lip-sync inference and
    the audio merge are launched, a job that ends [done] is at progress
    100. *)
Theorem runPipeline_cleanup_only_when_done w schedule jobId videoPath o st j :
  jobs st !! jobId = Some j ->
  exists st' j',
    runPipeline_events w schedule jobId videoPath o st = (Ok tt, st')
    /\ jobs st' !! jobId = Some j'
    /\ ((status j' = done /\ timers st' = (300000, jobId) :: timers st)
        \/ (status j' = error /\ timers st' = timers st))
    /\ (lipsync_launches w -> merge_launches w -> status j' = done -> progress j' = 100).
Proof.
  intros Hj.
  destruct (runPipeline_events_end w jobId schedule videoPath o st j Hj)
    as (st' & j' & E & Hj' & _ & Hend).
  exists st', j'. split; [exact E|]. split; [exact Hj'|]. split.
  - destruct Hend as [(Hs & T & _)|(Hs & T)]; [left | right]; auto.
  - intros Hlip Hmerge Hs.
    rewrite (runPipeline_events_run w schedule jobId videoPath o st Hlip) in E
      by (intros audioPath; apply Hmerge).
    destruct (runPipeline_end w jobId videoPath o st j Hj)
      as (st2 & j2 & E2 & Hj2 & [(_ & Hp & _)|(Hs2 & _)]);
      rewrite E in E2; injection E2 as <-; rewrite Hj' in Hj2; injection Hj2 as <-.
    + exact Hp.
    + rewrite Hs in Hs2. discriminate Hs2.
Qed.

Lemma runPipeline_cleanup_only_when_done_witness :
  jobs (snd (createJob no_python "j1" sample_meta with_model)) !! "j1" = Some sample_job
  /\ exists st' j',
       runPipeline_events no_python render_first "j1" "/srv/synclab/uploads/1-a.mp4"
         (Options "en" "es" "clone" "balanced")
         (snd (createJob no_python "j1" sample_meta with_model)) = (Ok tt, st')
       /\ jobs st' !! "j1" = Some j'
       /\ ((status j' = done
            /\ timers st' = (300000, "j1")
                              :: timers (snd (createJob no_python "j1" sample_meta with_model)))
           \/ (status j' = error
               /\ timers st' = timers (snd (createJob no_python "j1" sample_meta with_model))))
       /\ (lipsync_launches no_python -> merge_launches no_python ->
           status j' = done -> progress j' = 100).
Proof.
  split; [vm_compute; reflexivity|].
  apply (runPipeline_cleanup_only_when_done no_python render_first "j1"
           "/srv/synclab/uploads/1-a.mp4" (Options "en" "es" "clone" "balanced")
           (snd (createJob no_python "j1" sample_meta with_model)) sample_job).
  vm_compute; reflexivity.
Defined.

(** X5. In whatever order the events come, a run on a stored job ends
    [done] at progress 100 whenever the three ffmpeg steps the job cannot
    do without succeed and the subtitle file can be written: audio
    extraction closes with 0, the audio merge closes with 0 on whichever
    track it is given, the final render closes with 0 or cannot be
    launched.  Frame extraction may fail, Whisper may fail, not be launched
    or leave no file that parses (a file that does is taken to hold a
    transcript), the translation and voice providers may fail, the
    lip-sync model may be missing and the inference may close with any
    code, as long as it is launched when it is started. *)
Theorem runPipeline_done_when_ffmpeg_works w schedule jobId videoPath o st j :
  lipsync_launches w ->
  jobs st !! jobId = Some j ->
  extractAudio_proc w videoPath (temp_path w (jobId ++ "_audio.wav")) = on_close (Some 0) ->
  (forall audio,
     spawn w "ffmpeg"
       ["-i"; videoPath; "-i"; audio; "-c:v"; "copy";
        "-map"; "0:v:0"; "-map"; "1:a:0"; "-shortest"; "-y";
        temp_path w (jobId ++ "_lipsync.mp4")] None = on_close (Some 0)) ->
  (finalRender_proc w (temp_path w (jobId ++ "_lipsync.mp4")) (final_path w jobId)
     = on_close (Some 0)
   \/ finalRender_proc w (temp_path w (jobId ++ "_lipsync.mp4")) (final_path w jobId)
     = on_error) ->
  io_fails w (srt_path w jobId) = false ->
  files st !! srt_path w jobId <> Some Dir ->
  exists st' j',
    runPipeline_events w schedule jobId videoPath o st = (Ok tt, st')
    /\ jobs st' !! jobId = Some j'
    /\ status j' = done /\ progress j' = 100.
Proof.
  intros Hlip Hj H1 H2 H3 H4 H5.
  rewrite (runPipeline_events_run w schedule jobId videoPath o st Hlip)
    by (intros audioPath; rewrite H2; discriminate).
  apply (runPipeline_succeeds w jobId videoPath o st j); assumption.
Qed.

Lemma runPipeline_done_when_ffmpeg_works_witness :
  lipsync_launches bare_host
  /\ jobs (submitted bare_host) !! "j1" = Some sample_job
  /\ exists st' j',
       runPipeline_events bare_host render_first "j1" "/srv/synclab/uploads/1-a.mp4"
         (Options "en" "es" "clone" "balanced") (submitted bare_host) = (Ok tt, st')
       /\ jobs st' !! "j1" = Some j'
       /\ status j' = done /\ progress j' = 100.
Proof.
  split; [intros args cwd; discriminate|]. split; [vm_compute; reflexivity|].
  apply (runPipeline_done_when_ffmpeg_works bare_host render_first "j1"
           "/srv/synclab/uploads/1-a.mp4"
           (Options "en" "es" "clone" "balanced") (submitted bare_host) sample_job).
  - intros args cwd; discriminate.
  - vm_compute; reflexivity.
  - reflexivity.
  - intros audio. reflexivity.
  - left. reflexivity.
  - reflexivity.
  - vm_compute. discriminate.
Defined.

(** X17. From the upload on, in whatever order the events come, when the
    lip-sync inference and the audio merge are launched: [POST /api/dub]
    with a file answers 200, stores a queued record at progress 0 without
    outputs, and the writes that follow, oldest first, are each [allowed]
    after the one before and [consistent], the last being the record of the
    job, [done] or [error]. *)
Theorem post_dub_trace w schedule file body jobId st :
  lipsync_launches w ->
  merge_launches w ->
  exists st' j0 js,
    post_dub_events w schedule (Some file) body jobId st
      = (Ok (Response 200 [("job_id", jobId); ("status", "queued");
                           ("message", "Job queued successfully")]), st')
    /\ journal st' = (((fun x => (jobId, x)) <$> rev (j0 :: js)) ++ journal st)%list
    /\ status j0 = queued /\ progress j0 = 0 /\ outputs j0 = ∅
    /\ chain j0 js
    /\ Forall consistent js
    /\ jobs st' !! jobId = Some (List.last js j0)
    /\ terminal (List.last js j0).
Proof.
  intros Hlip Hmerge.
  rewrite (post_dub_events_run w schedule jobId (Some file) body st Hlip Hmerge).
  apply post_dub_obeys; assumption.
Qed.

Lemma post_dub_trace_witness :
  lipsync_launches bare_host
  /\ merge_launches bare_host
  /\ exists st' j0 js,
       post_dub_events bare_host render_first (Some sample_upload) no_fields "j1" initial_state
         = (Ok (Response 200 [("job_id", "j1"); ("status", "queued");
                              ("message", "Job queued successfully")]), st')
       /\ journal st' = (((fun x => ("j1", x)) <$> rev (j0 :: js)) ++ journal initial_state)%list
       /\ status j0 = queued /\ progress j0 = 0 /\ outputs j0 = ∅
       /\ chain j0 js
       /\ Forall consistent js
       /\ jobs st' !! "j1" = Some (List.last js j0)
       /\ terminal (List.last js j0).
Proof.
  assert (Hlip : lipsync_launches bare_host) by (intros args cwd; discriminate).
  assert (Hmerge : merge_launches bare_host) by (intros v a o; discriminate).
  split; [exact Hlip|]. split; [exact Hmerge|].
  apply (post_dub_trace bare_host render_first sample_upload no_fields "j1" initial_state
           Hlip Hmerge).
Defined.



(** X19. On a host with the lip-sync model where [python3] cannot be
    launched, the inference reports [error] and then [close], and each of
    the two handlers starts an audio merge: 86 is written twice and 90
    twice, eighteen records in all.  Heard in turn, the second merge
    closes before the render and progress drops from 94 to 90 before the
    job is [done] at 100.  When the render is heard before the second
    merge, or the first merge before the [close] of the inference (which
    then drops progress from 94 to 86), the 90 of the second merge is
    written after the job was marked [done], and the job ends [done] at
    progress 90. *)
Theorem launch_failure_ends_done_at_90 :
  launch_failure_writes in_turn
    = [(queued, 0); (running, 0); (running, 8); (running, 15); (running, 18);
       (running, 28); (running, 48); (running, 58); (running, 65); (running, 75);
       (running, 82); (running, 86); (running, 86); (running, 90); (running, 94);
       (running, 90); (done, 100); (done, 100)]
  /\ launch_failure_writes render_first
    = [(queued, 0); (running, 0); (running, 8); (running, 15); (running, 18);
       (running, 28); (running, 48); (running, 58); (running, 65); (running, 75);
       (running, 82); (running, 86); (running, 86); (running, 90); (running, 94);
       (done, 100); (done, 100); (done, 90)]
  /\ launch_failure_writes merge_first
    = [(queued, 0); (running, 0); (running, 8); (running, 15); (running, 18);
       (running, 28); (running, 48); (running, 58); (running, 65); (running, 75);
       (running, 82); (running, 86); (running, 90); (running, 94); (running, 86);
       (done, 100); (done, 100); (done, 90)]
  /\ (fun j => (status j, progress j))
        <$> jobs (snd (post_dub_events no_python merge_first (Some sample_upload) no_fields
                         "j1" with_model)) !! "j1"
      = Some (done, 90)
  /\ timers (snd (post_dub_events no_python merge_first (Some sample_upload) no_fields
                    "j1" with_model))
      = [(300000, "j1")].
Proof. vm_compute. repeat split. Qed.

(** X20. In whatever order the events come, a run on a stored job changes
    no record but the one under its job id, adds and removes none, leaves
    [id], [meta] and [createdAt] of its own record as they were, and
    removes no path. *)
Theorem runPipeline_events_touches_own_record w schedule jobId videoPath o st j :
  jobs st !! jobId = Some j ->
  exists st' j',
    runPipeline_events w schedule jobId videoPath o st = (Ok tt, st')
    /\ jobs st' !! jobId = Some j'
    /\ id j' = id j /\ meta j' = meta j /\ createdAt j' = createdAt j
    /\ delete jobId (jobs st') = delete jobId (jobs st)
    /\ dom (files st) ⊆ dom (files st').
Proof.
  intros Hj.
  destruct (runPipeline_events_end w jobId schedule videoPath o st j Hj)
    as (st' & j' & E & Hj' & [J F] & _).
  exists st', j'. split; [exact E|]. split; [exact Hj'|].
  pose proof (J jobId) as Hown. rewrite Hj in Hown.
  destruct Hown as (j2 & Hj2 & Hi & Hm & Hc & _).
  rewrite Hj' in Hj2. injection Hj2 as <-.
  split; [exact Hi|]. split; [exact Hm|]. split; [exact Hc|]. split.
  - apply map_eq. intros key. destruct (decide (key = jobId)) as [->|Hne].
    + rewrite !lookup_delete_eq. reflexivity.
    + rewrite !lookup_delete_ne by congruence. specialize (J key).
      destruct (jobs st !! key) as [j0|]; [|exact J].
      destruct J as (j1 & E1 & _ & _ & _ & Hsame). rewrite E1, (Hsame Hne). reflexivity.
  - intros p Hp. apply elem_of_dom. apply elem_of_dom in Hp. apply (F p), Hp.
Qed.

Lemma runPipeline_events_touches_own_record_witness :
  jobs (snd (createJob no_python "j1" sample_meta with_model)) !! "j1" = Some sample_job
  /\ exists st' j',
       runPipeline_events no_python render_first "j1" "/srv/synclab/uploads/1-a.mp4"
         (Options "en" "es" "clone" "balanced")
         (snd (createJob no_python "j1" sample_meta with_model)) = (Ok tt, st')
       /\ jobs st' !! "j1" = Some j'
       /\ id j' = id sample_job /\ meta j' = meta sample_job
       /\ createdAt j' = createdAt sample_job
       /\ delete "j1" (jobs st')
          = delete "j1" (jobs (snd (createJob no_python "j1" sample_meta with_model)))
       /\ dom (files (snd (createJob no_python "j1" sample_meta with_model))) ⊆ dom (files st').
Proof.
  split; [vm_compute; reflexivity|].
  apply (runPipeline_events_touches_own_record no_python render_first "j1"
           "/srv/synclab/uploads/1-a.mp4" (Options "en" "es" "clone" "balanced")
           (snd (createJob no_python "j1" sample_meta with_model)) sample_job).
  vm_compute; reflexivity.
Defined.

(** X21. The eight turns [runPipeline_events] takes are enough in every
    order: after them no process has a signal left, [runPipeline] has
    returned, and further turns change nothing. *)
Theorem runPipeline_events_hears_every_signal w schedule videoPath dubbedAudioPath quality
    jobId st translated dubbedAudio :
  let l := turns w schedule 8 0
             (runLipSync_start w videoPath dubbedAudioPath quality jobId
                (EventLoop st [] (at_runLipSync translated dubbedAudio))) in
  processes l = []
  /\ pipeline l = returned
  /\ forall later n k, turns w later n k l = l.
Proof.
  intros l.
  destruct (runLipSync_start_load w videoPath dubbedAudioPath quality jobId st
              translated dubbedAudio) as [Hhear Hload].
  destruct (turns_quiet w schedule 8 0 _ Hhear Hload) as [Hps Hpl].
  fold l in Hps, Hpl. split; [exact Hps|]. split; [exact Hpl|].
  intros later n k. destruct l as [heap0 ps pl]. cbn in Hps. subst ps.
  apply turns_idle.
Qed.

(** X22. In whatever order the events come, when a run on a stored job
    ends [done] the outputs of the job are [video], [audio] and [srt], the
    last being the subtitle path, the subtitle file is on disk, and the
    download route serves it as [dubbed_srt.srt]; otherwise the job ends
    [error]. *)
Theorem runPipeline_events_done_serves_subtitles w schedule jobId videoPath o st j :
  jobs st !! jobId = Some j ->
  exists st' j',
    runPipeline_events w schedule jobId videoPath o st = (Ok tt, st')
    /\ jobs st' !! jobId = Some j'
    /\ (status j' = error
        \/ (status j' = done
            /\ (exists v a, outputs j' = {[ "video" := v; "srt" := srt_path w jobId;
                                            "audio" := a ]})
            /\ (exists c, files st' !! srt_path w jobId = Some (File c))
            /\ get_download jobId "srt" st'
               = download (srt_path w jobId) "dubbed_srt.srt")).
Proof.
  intros Hj.
  destruct (runPipeline_events_end w jobId schedule videoPath o st j Hj)
    as (st' & j' & E & Hj' & _ & [(Hs & T & F & Hout)|(Hs & T)]);
    exists st', j'; (split; [exact E|]); (split; [exact Hj'|]); [right|left; exact Hs].
  split; [exact Hs|]. split; [exact Hout|]. split; [exact F|].
  destruct Hout as (v & a & Hout). destruct F as (c & F).
  unfold get_download, fileMap. rewrite Hj', Hs, Hout. simpl.
  rewrite lookup_insert_ne by discriminate. rewrite lookup_insert_eq.
  destruct (srt_path_nonempty w jobId) as (c0 & p0 & Ep). rewrite Ep in *.
  rewrite F. reflexivity.
Qed.

Lemma runPipeline_events_done_serves_subtitles_witness :
  jobs (snd (createJob no_python "j1" sample_meta with_model)) !! "j1" = Some sample_job
  /\ exists st' j',
       runPipeline_events no_python render_first "j1" "/srv/synclab/uploads/1-a.mp4"
         (Options "en" "es" "clone" "balanced")
         (snd (createJob no_python "j1" sample_meta with_model)) = (Ok tt, st')
       /\ jobs st' !! "j1" = Some j'
       /\ (status j' = error
           \/ (status j' = done
               /\ (exists v a, outputs j' = {[ "video" := v; "srt" := srt_path no_python "j1";
                                               "audio" := a ]})
               /\ (exists c, files st' !! srt_path no_python "j1" = Some (File c))
               /\ get_download "j1" "srt" st'
                  = download (srt_path no_python "j1") "dubbed_srt.srt")).
Proof.
  split; [vm_compute; reflexivity|].
  apply (runPipeline_events_done_serves_subtitles no_python render_first "j1"
           "/srv/synclab/uploads/1-a.mp4" (Options "en" "es" "clone" "balanced")
           (snd (createJob no_python "j1" sample_meta with_model)) sample_job).
  vm_compute; reflexivity.
Defined.
